(** * VoiceCLIP: a shallow embedding of [codes/models/gpt_voice/voice_clip.py]

    The file follows the Python module top to bottom:

    - [result], the exceptions a forward call can end with;
    - tensors as nested lists, with the broadcasting rules of the torch
      operations the module calls;
    - [Scalar], the arithmetic of the tensor elements, with two instances:
      IEEE-754 binary32, torch's default dtype and the arithmetic the module
      computes in, and the real numbers, the arithmetic it approximates;
    - [masked_mean] and the torch layers used by the class ([nn.Embedding],
      [nn.Linear], [F.normalize], [einsum], [F.cross_entropy]), written once
      for any [Scalar];
    - a store of tensor objects, because [forward] updates two tensors in
      place ([+=]) while the weights live in the same store;
    - [VoiceCLIP], [__init__] and [forward];
    - the properties.

    Representation.  A tensor of shape [(n0, n1, ...)] is the list of its
    [n0] slices.  A nested list does not record the inner extents of an
    empty axis, so the two token inputs carry their sequence length next
    to their rows ([IdTensor]); past the lookups, a sequence axis of length 0
    loses the feature width, and the properties of the later stages are
    stated for sequences that are not empty.

    Arithmetic.  Every function of the model is polymorphic in the element
    type.  A property that does not depend on the arithmetic (shapes,
    exceptions, the store, which operations are composed) is proved for any
    [Scalar], so for binary32.  A property of the values is stated on the
    instance it is proved for and says so: on binary32 where overflow, NaN
    or a division by zero decide it, on the reals where it is the value the
    binary32 computation rounds.  Sums are taken from left to right. *)

From Stdlib Require Import List ZArith Bool Lia Reals Lra SpecFloat.
Import ListNotations.

Set Implicit Arguments.
Set Warnings "-abstract-large-number".

(** ** Exceptions *)

(** The lookup an out-of-range index was met at. *)
Inductive site : Type :=
| TextEmb        (* self.text_emb(text) *)
| TextPosEmb     (* self.text_pos_emb(arange) *)
| SpeechEmb      (* self.speech_emb(speech_tokens) *)
| SpeechPosEmb   (* self.speech_pos_emb(arange) *)
| Target.        (* the class index given to F.cross_entropy *)

Inductive error : Type :=
| IndexError (s : site)   (* index out of range *)
| ShapeError              (* sizes that do not match and do not broadcast *)
| BadReference.           (* a reference to no tensor, or to one of the wrong rank *)

Inductive result (A : Type) : Type :=
| Ok (a : A)
| Error (e : error).

Arguments Ok {A} a.
Arguments Error {A} e.

Definition rbind {A B} (r : result A) (k : A -> result B) : result B :=
  match r with
  | Ok a => k a
  | Error e => Error e
  end.

Declare Scope result_scope.
Delimit Scope result_scope with res.
Notation "x <- r ;; k" := (rbind r (fun x => k))
  (at level 61, r at next level, right associativity) : result_scope.

(** [mapM f xs] runs [f] on the elements from left to right and stops at the
    first exception. *)
Fixpoint mapM {A B} (f : A -> result B) (xs : list A) : result (list B) :=
  match xs with
  | [] => Ok []
  | x :: xs' =>
      (y <- f x ;; ys <- mapM f xs' ;; Ok (y :: ys))%res
  end.

(** ** Tensors *)

Definition matrix (A : Type) := list (list A).
Definition tensor3 (A : Type) := list (list (list A)).

(** Extent of the second axis, read off the first slice. *)
Definition width {A} (m : list (list A)) : nat := length (hd [] m).

Definition zip_with {A B C} (f : A -> B -> C) (xs : list A) (ys : list B) : list C :=
  map (fun p => f (fst p) (snd p)) (combine xs ys).

(** Broadcasting of one axis between two operands (out-of-place operations):
    the extents agree, or one of them is 1 and its only slice is repeated. *)
Definition bzip {A B C} (f : A -> B -> result C) (xs : list A) (ys : list B)
  : result (list C) :=
  if Nat.eqb (length xs) (length ys) then
    mapM (fun p => f (fst p) (snd p)) (combine xs ys)
  else
    match xs, ys with
    | [x], _ => mapM (f x) ys
    | _, [y] => mapM (fun x => f x y) xs
    | _, _ => Error ShapeError
    end.

(** Broadcasting of one axis for an in-place operation: the left operand keeps
    its shape, only the right one may be repeated. *)
Definition xzip {A B} (f : A -> B -> result A) (xs : list A) (ys : list B)
  : result (list A) :=
  if Nat.eqb (length ys) (length xs) then
    mapM (fun p => f (fst p) (snd p)) (combine xs ys)
  else
    match ys with
    | [y] => mapM (fun x => f x y) xs
    | _ => Error ShapeError
    end.

(** ** Element arithmetic *)

(** What the module asks of the elements of a float tensor. *)
Class Scalar (A : Type) : Type := {
  szero : A;
  sone : A;                 (* the literal 1. *)
  seps : A;                 (* the literal 1e-12, F.normalize's default eps *)
  sadd : A -> A -> A;
  ssub : A -> A -> A;
  smul : A -> A -> A;
  sdiv : A -> A -> A;
  sneg : A -> A;
  smax : A -> A -> A;
  ssqrt : A -> A;
  sexp : A -> A;
  sln : A -> A;
  of_count : nat -> A       (* an int64 count promoted to the element type *)
}.

(** *** The real numbers *)

Definition eps : R := (/ 10 ^ 12)%R.

#[export] Instance R_Scalar : Scalar R := {
  szero := 0%R;
  sone := 1%R;
  seps := eps;
  sadd := Rplus;
  ssub := Rminus;
  smul := Rmult;
  sdiv := Rdiv;
  sneg := Ropp;
  smax := Rmax;
  ssqrt := sqrt;
  sexp := exp;
  sln := ln;
  of_count := INR
}.

(** *** IEEE-754 binary32

    24 bits of precision, exponents below 128; the four operations and the
    square root are those of the Standard Library's [SpecFloat], rounding to
    nearest, ties to even. *)
Definition float32 : Type := spec_float.
Definition f32_prec : Z := 24.
Definition f32_emax : Z := 128.
Definition f32_nan : float32 := S754_nan.

(** The binary32 numbers 1, 2, 3, 4 and 128, and the binary32 numbers nearest
    to 1e30 and to 1e-12. *)
Definition f32_one : float32 := S754_finite false 8388608 (-23).
Definition f32_two : float32 := S754_finite false 8388608 (-22).
Definition f32_three : float32 := S754_finite false 12582912 (-22).
Definition f32_four : float32 := S754_finite false 8388608 (-21).
Definition f32_128 : float32 := S754_finite false 8388608 (-16).
Definition f32_1e30 : float32 := S754_finite false 13234890 76.
Definition f32_eps : float32 := S754_finite false 9223372 (-63).

(** Zeros and finite numbers, as opposed to the infinities and NaN. *)
Definition f32_finite (x : float32) : bool :=
  match x with
  | S754_zero _ | S754_finite _ _ _ => true
  | S754_infinity _ | S754_nan => false
  end.

(** The sign bit: set on the negative numbers, on [-0] and on [-inf]. *)
Definition f32_signbit (x : float32) : bool :=
  match x with
  | S754_zero s | S754_infinity s | S754_finite s _ _ => s
  | S754_nan => false
  end.

(** [torch.max] and [clamp_min] on two numbers: NaN if either is NaN, else
    the larger one.  [x < y] is read off the sign of [x - y]: rounding a
    difference never changes its sign. *)
Definition f32_max (x y : float32) : float32 :=
  match x, y with
  | S754_nan, _ | _, S754_nan => S754_nan
  | _, _ => if f32_signbit (SFsub f32_prec f32_emax x y) then y else x
  end.

(** Classes of binary32 numbers by sign and size.  NaN belongs to each of
    them: the operations propagate it.

    Not positive: NaN, a zero, a negative number or [-inf]. *)
Definition f32_not_positive (x : float32) : Prop :=
  match x with
  | S754_nan | S754_zero _ => True
  | S754_infinity s | S754_finite s _ _ => s = true
  end.

(** Not negative: NaN, a zero, a positive number or [+inf]. *)
Definition f32_not_negative (x : float32) : Prop :=
  match x with
  | S754_zero _ => True
  | _ => f32_signbit x = false
  end.

(** At least 1: NaN, [+inf], or a positive [m * 2^e] whose mantissa has more
    than [-e] binary digits. *)
Definition f32_ge_one (x : float32) : Prop :=
  match x with
  | S754_nan => True
  | S754_zero _ => False
  | S754_infinity s => s = false
  | S754_finite s m e => s = false /\ (1 <= Zpos (digits2_pos m) + e)%Z
  end.

(** The real number that a zero or a finite binary32 number stands for. *)
Definition f32_value (x : float32) : R :=
  match x with
  | S754_finite s m e => (IZR (cond_Zopp s (Zpos m)) * powerRZ 2 e)%R
  | _ => 0%R
  end.

(** The order of the binary32 numbers; NaN is set aside. *)
Definition f32_le (x y : float32) : Prop :=
  match x, y with
  | S754_nan, _ | _, S754_nan => True
  | S754_infinity true, _ => True
  | _, S754_infinity false => True
  | S754_infinity false, _ => False
  | _, S754_infinity true => False
  | _, _ => (f32_value x <= f32_value y)%R
  end.

(** [exp] and [log] are computed on integers [n] standing for [n / 2^100],
    to far more digits than binary32 keeps, and rounded once.  A libm may
    differ from the result in its last bit.  The properties proved on
    binary32 rest on what all of them share: the special values, the
    overflow of [exp], the exact values [exp 0 = 1] and [log 1 = 0], and the
    signs ([exp] is never negative, [log] is not negative from 1 on). *)
Definition fix_bits : Z := 100.
Definition fix_one : Z := 2 ^ fix_bits.
Definition fix_mul (a c : Z) : Z := ((a * c) / fix_one)%Z.

(** The sum of [r^n / n!] over the first [fuel] values of [n]. *)
Fixpoint exp_series (fuel : nat) (n term acc r : Z) : Z :=
  match fuel with
  | O => acc
  | S fuel' =>
      exp_series fuel' (n + 1)%Z (fix_mul term r / (n + 1))%Z (acc + term)%Z r
  end.

Definition fix_exp (r : Z) : Z := exp_series 40 0 fix_one 0 r.

(** The sum of [z^(2n+1) / (2n+1)], the inverse hyperbolic tangent of [z]. *)
Fixpoint atanh_series (fuel : nat) (n power acc z2 : Z) : Z :=
  match fuel with
  | O => acc
  | S fuel' =>
      atanh_series fuel' (n + 1)%Z (fix_mul power z2)
                   (acc + power / (2 * n + 1))%Z z2
  end.

Definition fix_atanh (z : Z) : Z := atanh_series 40 0 z 0 (fix_mul z z).

(** [ln 2 = 2 atanh (1/3)] *)
Definition fix_ln2 : Z := Eval vm_compute in (2 * fix_atanh (fix_one / 3))%Z.

(** [torch.exp]: [x = k ln 2 + r] with [0 <= r < ln 2], and
    [exp x = 2^k exp r].  From 256 on the result is out of range. *)
Definition f32_exp (x : float32) : float32 :=
  match x with
  | S754_nan => S754_nan
  | S754_infinity false => S754_infinity false
  | S754_infinity true => S754_zero false
  | S754_zero _ => f32_one
  | S754_finite s m e =>
      if (8 <? e + Zpos (digits2_pos m))%Z then
        if s then S754_zero false else S754_infinity false
      else
        let a := Z.shiftl (Zpos m) (e + fix_bits) in
        let x' := if s then (- a)%Z else a in
        binary_normalize f32_prec f32_emax
          (fix_exp (x' mod fix_ln2)) (x' / fix_ln2 - fix_bits) false
  end.

(** [torch.log]: [x = 2^t f] with [1 <= f < 2], and
    [log x = t ln 2 + 2 atanh ((f - 1) / (f + 1))]. *)
Definition f32_log (x : float32) : float32 :=
  match x with
  | S754_nan => S754_nan
  | S754_infinity false => S754_infinity false
  | S754_infinity true => S754_nan
  | S754_zero _ => S754_infinity true
  | S754_finite true _ _ => S754_nan
  | S754_finite false m e =>
      let d := Zpos (digits2_pos m) in
      let half := (2 ^ (d - 1))%Z in
      let z := (((Zpos m - half) * fix_one) / (Zpos m + half))%Z in
      binary_normalize f32_prec f32_emax
        ((e + d - 1) * fix_ln2 + 2 * fix_atanh z) (- fix_bits) false
  end.

#[export] Instance float32_Scalar : Scalar float32 | 10 := {
  szero := S754_zero false;
  sone := f32_one;
  seps := f32_eps;
  sadd := SFadd f32_prec f32_emax;
  ssub := SFsub f32_prec f32_emax;
  smul := SFmul f32_prec f32_emax;
  sdiv := SFdiv f32_prec f32_emax;
  sneg := SFopp;
  smax := f32_max;
  ssqrt := SFsqrt f32_prec f32_emax;
  sexp := f32_exp;
  sln := f32_log;
  of_count := fun n => binary_normalize f32_prec f32_emax (Z.of_nat n) 0 false
}.

(** ** Pooling *)

Section Pooling.
Context {A : Type} `{Scalar A}.

(** [t.masked_fill(m, v)] for [t] of shape [(b, L, d)] and [m] of shape
    [(b', L', 1)]: where [m] holds, the element becomes [v]. *)
Definition masked_fill (t : tensor3 A) (m : list (list bool)) (v : A)
  : result (tensor3 A) :=
  bzip (fun rows mrow =>
          bzip (fun (vec : list A) (hit : bool) =>
                  Ok (if hit then map (fun _ => v) vec else vec))
               rows mrow)
       t m.

Definition vadd (x y : list A) : list A := zip_with sadd x y.

(** [t.sum(dim = 1)]: shape [(b, L, d)] to [(b, d)]. *)
Definition sum_dim1 (t : tensor3 A) : matrix A :=
  map (fun rows => fold_left vadd rows (repeat szero (width rows))) t.

(** [mask.sum(dim = 1)]: the number of [true] per example. *)
Definition count_true (mask : list (list bool)) : list nat :=
  map (fun mrow => length (filter (fun x => x) mrow)) mask.

(** [s / c[..., None]] for [s] of shape [(b, d)] and [c] of shape [(b',)]. *)
Definition div_counts (s : matrix A) (c : list nat) : result (matrix A) :=
  bzip (fun (vec : list A) (n : nat) =>
          bzip (fun x y => Ok (sdiv x y)) vec [of_count n])
       s c.

(** [masked_mean(t, mask, dim = 1)].  The body never reads [dim]. *)
Definition masked_mean (t : tensor3 A) (mask : list (list bool)) (dim : nat)
  : result (matrix A) :=
  (t' <- masked_fill t (map (map negb) mask) szero ;;
   div_counts (sum_dim1 t') (count_true mask))%res.

(** [t.mean(dim = 1)]: the sum over the axis divided by its extent. *)
Definition mean_dim1 (t : tensor3 A) : matrix A :=
  map (fun rows =>
         map (fun x => sdiv x (of_count (length rows)))
             (fold_left vadd rows (repeat szero (width rows))))
      t.
(** One example of [masked_mean]: the rows the mask drops become zero, the
    sum is divided by the number of rows kept. *)
Definition fill_rows (rows : list (list A)) (mrow : list bool) : list (list A) :=
  zip_with (fun (vec : list A) (keep : bool) =>
              if negb keep then map (fun _ => szero) vec else vec)
           rows mrow.

Definition pool_rows (rows : list (list A)) (mrow : list bool) : list A :=
  map (fun x => sdiv x (of_count (length (filter (fun x => x) mrow))))
      (fold_left vadd (fill_rows rows mrow)
                 (repeat szero (width (fill_rows rows mrow)))).
End Pooling.

(** ** Token ids *)

Open Scope R_scope.

(** An int64 tensor of shape [(b, L)]: token ids, one row per example. *)
Record IdTensor : Type := {
  size1 : nat;                (* shape[1] *)
  data : list (list Z)
}.

Definition size0 (t : IdTensor) : nat := length (data t).   (* shape[0] *)

(** [torch.arange(n)] *)
Definition arange (n : nat) : list Z := map Z.of_nat (seq 0 n).

(** ** Computations on a store *)

(** A computation on a store of type [H]; the store survives an
    exception. *)
Definition M (H B : Type) : Type := H -> result B * H.

Definition ret {H B} (a : B) : M H B := fun h => (Ok a, h).

Definition fail {H B} (e : error) : M H B := fun h => (Error e, h).

Definition bind {H B C} (m : M H B) (k : B -> M H C) : M H C :=
  fun h =>
    match m h with
    | (Ok a, h') => k a h'
    | (Error e, h') => (Error e, h')
    end.

Definition lift {H B} (r : result B) : M H B := fun h => (r, h).

Declare Scope store_scope.
Delimit Scope store_scope with st.
Notation "x <- m ;; k" := (bind m (fun x => k))
  (at level 61, m at next level, right associativity) : store_scope.
Notation "m ;;; k" := (bind m (fun _ => k))
  (at level 61, right associativity) : store_scope.

Definition ref : Type := nat.
Bind Scope nat_scope with ref.

(** The keyword arguments of [__init__]. *)
Record Config : Type := {
  dim_text : nat;
  dim_speech : nat;
  dim_latent : nat;
  num_text_tokens : nat;
  text_enc_depth : nat;
  text_seq_len : nat;
  text_heads : nat;
  num_speech_tokens : nat;
  speech_enc_depth : nat;
  speech_heads : nat;
  speech_seq_len : nat
}.

Definition default_config : Config := {|
  dim_text := 512;
  dim_speech := 512;
  dim_latent := 512;
  num_text_tokens := 10000;
  text_enc_depth := 6;
  text_seq_len := 200;
  text_heads := 8;
  num_speech_tokens := 8192;
  speech_enc_depth := 6;
  speech_heads := 8;
  speech_seq_len := 250
|}.

Definition shape2 {A} (m : list (list A)) (n d : nat) : Prop :=
  length m = n /\ Forall (fun r => length r = d) m.

Definition shape3 {A} (t : list (list (list A))) (b L d : nat) : Prop :=
  length t = b /\ Forall (fun rows => shape2 rows L d) t.

Definition mask_fits (mask : option (list (list bool))) (b L : nat) : Prop :=
  match mask with
  | None => True
  | Some m => shape2 m b L
  end.

Section Model.
Context {A : Type} `{Scalar A}.

(** ** Torch layers *)

(** One row of an embedding table; an index outside [0, rows) raises. *)
Definition lookup (s : site) (weight : matrix A) (i : Z) : result (list A) :=
  if ((0 <=? i)%Z && (i <? Z.of_nat (length weight))%Z)%bool then
    match nth_error weight (Z.to_nat i) with
    | Some row => Ok row
    | None => Error (IndexError s)
    end
  else Error (IndexError s).

(** [F.embedding(ids, weight)] for ids of rank 1 and of rank 2. *)
Definition embedding_1d (s : site) (weight : matrix A) (ids : list Z)
  : result (matrix A) :=
  mapM (lookup s weight) ids.

Definition embedding_2d (s : site) (weight : matrix A) (ids : list (list Z))
  : result (tensor3 A) :=
  mapM (embedding_1d s weight) ids.

(** The value [x += p] leaves in [x], for [x] of shape [(b, L, d)] and [p] of
    shape [(L', d')]: [p] is repeated along the batch axis, and along an axis
    where its extent is 1. *)
Definition add_pos (x : tensor3 A) (p : matrix A) : result (tensor3 A) :=
  mapM (fun rows =>
          xzip (fun r q => xzip (fun a c => Ok (sadd a c)) r q) rows p)
       x.

(** The sum of a row, from left to right. *)
Definition rsum (xs : list A) : A := fold_left sadd xs szero.

Definition dot (x y : list A) : A := rsum (zip_with smul x y).

(** [F.linear(X, W)] without bias: [X] of shape [(b, in)], [W] of shape
    [(out, in)]; the inner extents must agree. *)
Definition linear (W : matrix A) (X : matrix A) : result (matrix A) :=
  mapM (fun x =>
          mapM (fun w =>
                  if Nat.eqb (length x) (length w) then Ok (dot x w)
                  else Error ShapeError)
               W)
       X.

(** [F.normalize(X, p = 2, dim = -1)], with torch's default [eps = 1e-12]:
    every row is divided by [max(norm, eps)], the norm being the square root
    of the sum of the squares. *)
Definition norm2 (v : list A) : A := ssqrt (rsum (map (fun a => smul a a) v)).

Definition normalize_row (v : list A) : list A :=
  map (fun a => sdiv a (smax (norm2 v) seps)) v.

Definition normalize (X : matrix A) : matrix A := map normalize_row X.

(** A contraction over an axis both operands label [d]: the extents agree or
    one of them is 1. *)
Definition bdot (x y : list A) : result A :=
  (p <- bzip (fun a c => Ok (smul a c)) x y ;; Ok (rsum p))%res.

(** [einsum('n d, n d -> n', a, c)] *)
Definition einsum_nd_nd_n (a c : matrix A) : result (list A) := bzip bdot a c.

(** [einsum('i d, j d -> i j', a, c)] *)
Definition einsum_id_jd_ij (a c : matrix A) : result (matrix A) :=
  mapM (fun x => mapM (fun y => bdot x y) c) a.

Definition scale (k : A) (v : list A) : list A := map (fun a => smul a k) v.

(** [m.t()] *)
Definition transpose (m : matrix A) : matrix A :=
  map (fun j => map (fun r => nth j r szero) m) (seq 0 (width m)).

(** The largest entry of a row. *)
Definition row_max (x : list A) : A :=
  match x with
  | [] => szero
  | a :: rest => fold_left smax rest a
  end.

(** [F.log_softmax(x, dim = -1)] on one row, in the order torch computes it:
    the largest entry is subtracted before the exponentials are taken, and
    the log of their sum is subtracted last. *)
Definition log_softmax (x : list A) : list A :=
  let m := row_max x in
  let lse := sln (rsum (map (fun a => sexp (ssub a m)) x)) in
  map (fun a => ssub (ssub a m) lse) x.

(** [F.cross_entropy(input, target)] with the default mean reduction, for
    [input] of shape [(N, C)] and class indices [target] of shape [(N,)].
    The targets of this module come from [arange], so they are never the
    ignored index (-100). *)
Definition nll (x : list A) (k : nat) : result A :=
  match nth_error (log_softmax x) k with
  | Some v => Ok (sneg v)
  | None => Error (IndexError Target)
  end.

Definition cross_entropy (input : matrix A) (target : list nat) : result A :=
  if Nat.eqb (length input) (length target) then
    (ls <- mapM (fun p => nll (fst p) (snd p)) (combine input target) ;;
     Ok (sdiv (rsum ls) (of_count (length ls))))%res
  else Error ShapeError.

(** ** The store of tensor objects *)

Inductive tensor : Type :=
| Scalar0 (x : A)
| Mat (m : matrix A)
| Cube (t : tensor3 A).

Definition heap : Type := list tensor.

(** A new tensor object. *)
Definition alloc (v : tensor) : M heap ref :=
  fun h => (Ok (length h), h ++ [v]).

Definition load (r : ref) : M heap tensor :=
  fun h =>
    match nth_error h r with
    | Some v => (Ok v, h)
    | None => (Error BadReference, h)
    end.

Fixpoint set_nth (r : nat) (v : tensor) (h : heap) : heap :=
  match h, r with
  | [], _ => []
  | _ :: h', O => v :: h'
  | c :: h', S r' => c :: set_nth r' v h'
  end.

(** Overwrites the contents of an existing object. *)
Definition store (r : ref) (v : tensor) : M heap unit :=
  fun h =>
    if Nat.ltb r (length h) then (Ok tt, set_nth r v h)
    else (Error BadReference, h).

Definition load_mat (r : ref) : M heap (matrix A) :=
  (v <- load r ;;
   match v with
   | Mat m => ret m
   | _ => fail BadReference
   end)%st.

Definition load_cube (r : ref) : M heap (tensor3 A) :=
  (v <- load r ;;
   match v with
   | Cube t => ret t
   | _ => fail BadReference
   end)%st.

Definition load_scalar (r : ref) : M heap A :=
  (v <- load r ;;
   match v with
   | Scalar0 x => ret x
   | _ => fail BadReference
   end)%st.

(** [nn.Embedding.forward]: reads the table, returns a new tensor. *)
Definition Embedding_forward_2d (s : site) (weight : ref) (ids : list (list Z))
  : M heap ref :=
  (w <- load_mat weight ;;
   t <- lift (embedding_2d s w ids) ;;
   alloc (Cube t))%st.

Definition Embedding_forward_1d (s : site) (weight : ref) (ids : list Z)
  : M heap ref :=
  (w <- load_mat weight ;;
   t <- lift (embedding_1d s w ids) ;;
   alloc (Mat t))%st.

(** [x += p]: the object [x] refers to is updated in place. *)
Definition iadd (x p : ref) : M heap unit :=
  (a <- load_cube x ;;
   q <- load_mat p ;;
   r <- lift (add_pos a q) ;;
   store x (Cube r))%st.

(** ** The model *)

(** The forward function of an encoder built by the external [Transformer]
    class ([models.lucidrains.dalle.transformer]): it maps a [(b, L, d)]
    tensor and an optional [(b, L)] mask to a tensor, or raises.  Its code
    is not part of this module; it is a function of its arguments. *)
Definition encoder : Type :=
  tensor3 A -> option (list (list bool)) -> result (tensor3 A).

Record VoiceCLIP : Type := {
  text_emb : ref;
  text_pos_emb : ref;
  text_transformer : encoder;
  to_text_latent : ref;
  speech_emb : ref;
  speech_pos_emb : ref;
  speech_transformer : encoder;
  to_speech_latent : ref;
  temperature : ref
}.

(** What the constructors draw at random: the initial entries of each weight
    matrix, and the two encoders the external [Transformer] class returns for
    [seq_len], [dim], [depth] and [heads] (with [causal = False] and
    [rotary_emb = False]). *)
Record Init : Type := {
  w_text_emb : nat -> nat -> A;
  w_text_pos_emb : nat -> nat -> A;
  Transformer_text : nat -> nat -> nat -> nat -> encoder;
  w_to_text_latent : nat -> nat -> A;
  w_speech_emb : nat -> nat -> A;
  w_speech_pos_emb : nat -> nat -> A;
  Transformer_speech : nat -> nat -> nat -> nat -> encoder;
  w_to_speech_latent : nat -> nat -> A
}.

Definition table (n d : nat) (w : nat -> nat -> A) : matrix A :=
  map (fun i => map (w i) (seq 0 d)) (seq 0 n).

(** [nn.Embedding(num_embeddings, embedding_dim)]: a table with one row per
    index. *)
Definition nn_Embedding (num_embeddings embedding_dim : nat)
  (w : nat -> nat -> A) : M heap ref :=
  alloc (Mat (table num_embeddings embedding_dim w)).

(** [nn.Linear(in_features, out_features, bias=False)]: the weight has shape
    [(out_features, in_features)]. *)
Definition nn_Linear (in_features out_features : nat)
  (w : nat -> nat -> A) : M heap ref :=
  alloc (Mat (table out_features in_features w)).

(** [nn.Parameter(torch.tensor(x))] *)
Definition nn_Parameter (x : A) : M heap ref := alloc (Scalar0 x).

(** [VoiceCLIP.__init__] *)
Definition init (cfg : Config) (rnd : Init) : M heap VoiceCLIP :=
  (te <- nn_Embedding (num_text_tokens cfg) (dim_text cfg) (w_text_emb rnd) ;;
   tp <- nn_Embedding (text_seq_len cfg) (dim_text cfg) (w_text_pos_emb rnd) ;;
   let tt := Transformer_text rnd (text_seq_len cfg) (dim_text cfg)
               (text_enc_depth cfg) (text_heads cfg) in
   tl <- nn_Linear (dim_text cfg) (dim_latent cfg) (w_to_text_latent rnd) ;;
   se <- nn_Embedding (num_speech_tokens cfg) (dim_speech cfg) (w_speech_emb rnd) ;;
   sp <- nn_Embedding (num_speech_tokens cfg) (dim_speech cfg)
           (w_speech_pos_emb rnd) ;;
   let st := Transformer_speech rnd (speech_seq_len cfg) (dim_speech cfg)
               (speech_enc_depth cfg) (speech_heads cfg) in
   sl <- nn_Linear (dim_speech cfg) (dim_latent cfg) (w_to_speech_latent rnd) ;;
   tm <- nn_Parameter sone ;;
   ret {| text_emb := te; text_pos_emb := tp; text_transformer := tt;
          to_text_latent := tl; speech_emb := se; speech_pos_emb := sp;
          speech_transformer := st; to_speech_latent := sl;
          temperature := tm |})%st.

(** What [forward] returns: the scores of the pairs, or the loss. *)
Inductive output : Type :=
| Scores (sim : list A)
| Loss (loss : A).

(** Lines 68 to 72: both inputs are embedded and the positional rows are
    added in place.  [speech_emb.shape[1]] is [speech_tokens.shape[1]], the
    lookup keeps the axes of its indices. *)
Definition embed (self : VoiceCLIP) (text speech_tokens : IdTensor)
  : M heap (ref * ref) :=
  (text_emb_r <- Embedding_forward_2d TextEmb (text_emb self) (data text) ;;
   text_pos <- Embedding_forward_1d TextPosEmb (text_pos_emb self)
                 (arange (size1 text)) ;;
   iadd text_emb_r text_pos ;;;
   speech_emb_r <- Embedding_forward_2d SpeechEmb (speech_emb self)
                     (data speech_tokens) ;;
   speech_pos <- Embedding_forward_1d SpeechPosEmb (speech_pos_emb self)
                   (arange (size1 speech_tokens)) ;;
   iadd speech_emb_r speech_pos ;;;
   ret (text_emb_r, speech_emb_r))%st.

(** Lines 77 to 80; [exists(text_mask)] is the test for [Some]. *)
Definition pool (enc_text : tensor3 A) (text_mask : option (list (list bool)))
  : result (matrix A) :=
  match text_mask with
  | Some mask => masked_mean enc_text mask 1
  | None => Ok (mean_dim1 enc_text)
  end.

(** Lines 74 to 87: encoders, pooling, projection, normalization.  Every
    operation from here on returns a new tensor and none is updated in
    place, so their results are values; the store is only read, for the two
    embedded batches and for the weights. *)
Definition latents (self : VoiceCLIP) (text_emb_r speech_emb_r : ref)
  (text_mask : option (list (list bool))) : M heap (matrix A * matrix A) :=
  (x <- load_cube text_emb_r ;;
   enc_text <- lift (text_transformer self x text_mask) ;;
   y <- load_cube speech_emb_r ;;
   enc_speech <- lift (speech_transformer self y None) ;;
   text_latents <- lift (pool enc_text text_mask) ;;
   let speech_latents := mean_dim1 enc_speech in
   wt <- load_mat (to_text_latent self) ;;
   text_latents <- lift (linear wt text_latents) ;;
   ws <- load_mat (to_speech_latent self) ;;
   speech_latents <- lift (linear ws speech_latents) ;;
   ret (normalize text_latents, normalize speech_latents))%st.

(** Lines 91 to 93. *)
Definition scores (temp : A) (text_latents speech_latents : matrix A)
  : result (list A) :=
  (sim <- einsum_nd_nd_n text_latents speech_latents ;;
   Ok (scale temp sim))%res.

(** Lines 95 to 98, for [b = text.shape[0]]. *)
Definition contrastive_loss (temp : A) (b : nat)
  (text_latents speech_latents : matrix A) : result A :=
  (sim <- einsum_id_jd_ij text_latents speech_latents ;;
   let sim := map (scale temp) sim in
   let labels := seq 0 b in
   l1 <- cross_entropy sim labels ;;
   l2 <- cross_entropy (transpose sim) labels ;;
   Ok (sdiv (sadd l1 l2) (of_count 2)))%res.

(** Lines 68 to 87 of [forward]: from the token ids to the two batches of
    normalized latents. *)
Definition forward_latents (self : VoiceCLIP) (text speech_tokens : IdTensor)
  (text_mask : option (list (list bool))) : M heap (matrix A * matrix A) :=
  (embs <- embed self text speech_tokens ;;
   latents self (fst embs) (snd embs) text_mask)%st.

(** [VoiceCLIP.forward] *)
Definition forward (self : VoiceCLIP) (text speech_tokens : IdTensor)
  (text_mask : option (list (list bool))) (return_loss : bool)
  : M heap output :=
  (let b := size0 text in
   lat <- forward_latents self text speech_tokens text_mask ;;
   t <- load_scalar (temperature self) ;;
   let temp := sexp t in
   if negb return_loss then
     sim <- lift (scores temp (fst lat) (snd lat)) ;;
     ret (Scores sim)
   else
     loss <- lift (contrastive_loss temp b (fst lat) (snd lat)) ;;
     ret (Loss loss))%st.

(** ** The same computation as a function of the weight values

    [forward] reads seven objects of the store.  [Weights] holds their
    values, [holds] says that the store has them where the model refers to,
    and [forward_fun] is [forward] with every tensor a value. *)

Record Weights : Type := {
  W_text_emb : matrix A;
  W_text_pos_emb : matrix A;
  W_to_text_latent : matrix A;
  W_speech_emb : matrix A;
  W_speech_pos_emb : matrix A;
  W_to_speech_latent : matrix A;
  W_temperature : A
}.

Definition holds (self : VoiceCLIP) (h : heap) (w : Weights) : Prop :=
  nth_error h (text_emb self) = Some (Mat (W_text_emb w)) /\
  nth_error h (text_pos_emb self) = Some (Mat (W_text_pos_emb w)) /\
  nth_error h (to_text_latent self) = Some (Mat (W_to_text_latent w)) /\
  nth_error h (speech_emb self) = Some (Mat (W_speech_emb w)) /\
  nth_error h (speech_pos_emb self) = Some (Mat (W_speech_pos_emb w)) /\
  nth_error h (to_speech_latent self) = Some (Mat (W_to_speech_latent w)) /\
  nth_error h (temperature self) = Some (Scalar0 (W_temperature w)).

(** One modality of lines 68 to 72: table lookup, positional lookup, sum. *)
Definition embed_one_fun (s s' : site) (w p : matrix A) (ids : list (list Z))
  (n : nat) : result (tensor3 A) :=
  (te <- embedding_2d s w ids ;;
   tp <- embedding_1d s' p (arange n) ;;
   add_pos te tp)%res.

Definition embed_text_fun (w : Weights) (text : IdTensor) : result (tensor3 A) :=
  embed_one_fun TextEmb TextPosEmb (W_text_emb w) (W_text_pos_emb w)
    (data text) (size1 text).

Definition embed_speech_fun (w : Weights) (speech_tokens : IdTensor)
  : result (tensor3 A) :=
  embed_one_fun SpeechEmb SpeechPosEmb (W_speech_emb w) (W_speech_pos_emb w)
    (data speech_tokens) (size1 speech_tokens).

Definition latents_fun (self : VoiceCLIP) (w : Weights) (x y : tensor3 A)
  (text_mask : option (list (list bool))) : result (matrix A * matrix A) :=
  (enc_text <- text_transformer self x text_mask ;;
   enc_speech <- speech_transformer self y None ;;
   pooled <- pool enc_text text_mask ;;
   text_latents <- linear (W_to_text_latent w) pooled ;;
   speech_latents <- linear (W_to_speech_latent w) (mean_dim1 enc_speech) ;;
   Ok (normalize text_latents, normalize speech_latents))%res.

(** Lines 68 to 85: the two batches of projections, before normalization. *)
Definition projections_fun (self : VoiceCLIP) (w : Weights)
  (text speech_tokens : IdTensor) (text_mask : option (list (list bool)))
  : result (matrix A * matrix A) :=
  (x <- embed_text_fun w text ;;
   y <- embed_speech_fun w speech_tokens ;;
   enc_text <- text_transformer self x text_mask ;;
   enc_speech <- speech_transformer self y None ;;
   pooled <- pool enc_text text_mask ;;
   text_latents <- linear (W_to_text_latent w) pooled ;;
   speech_latents <- linear (W_to_speech_latent w) (mean_dim1 enc_speech) ;;
   Ok (text_latents, speech_latents))%res.

Definition forward_latents_fun (self : VoiceCLIP) (w : Weights)
  (text speech_tokens : IdTensor) (text_mask : option (list (list bool)))
  : result (matrix A * matrix A) :=
  (x <- embed_text_fun w text ;;
   y <- embed_speech_fun w speech_tokens ;;
   latents_fun self w x y text_mask)%res.

Definition head_fun (temp : A) (b : nat) (lat : matrix A * matrix A)
  (return_loss : bool) : result output :=
  if negb return_loss then
    (sim <- scores temp (fst lat) (snd lat) ;; Ok (Scores sim))%res
  else
    (loss <- contrastive_loss temp b (fst lat) (snd lat) ;; Ok (Loss loss))%res.

Definition forward_fun (self : VoiceCLIP) (w : Weights)
  (text speech_tokens : IdTensor) (text_mask : option (list (list bool)))
  (return_loss : bool) : result output :=
  (lat <- forward_latents_fun self w text speech_tokens text_mask ;;
   head_fun (sexp (W_temperature w)) (size0 text) lat return_loss)%res.

(** ** The head in the words of the specification

    The similarity of text [i] and speech [j] is the scaled dot product of
    their latents.  A directional loss is the mean over [i] of the
    cross-entropy of row [i] with class [i], that is of minus the
    log-softmax of row [i] at [i]; the loss is the mean of the
    text-to-speech and the speech-to-text direction.  A vector is normalized
    by dividing it by its Euclidean norm, or by [eps] when the norm is
    smaller. *)

Definition spec_similarity (temp : A) (text_latents speech_latents : matrix A)
  (i j : nat) : A :=
  smul (dot (nth i text_latents []) (nth j speech_latents [])) temp.

Definition spec_class_ce (b : nat) (logit : nat -> nat -> A) : A :=
  sdiv (rsum (map (fun i =>
                     sneg (nth i (log_softmax (map (logit i) (seq 0 b))) szero))
                  (seq 0 b)))
       (of_count b).

Definition spec_symmetric_ce (temp : A) (b : nat)
  (text_latents speech_latents : matrix A) : A :=
  let sim := spec_similarity temp text_latents speech_latents in
  sdiv (sadd (spec_class_ce b sim) (spec_class_ce b (fun j i => sim i j)))
       (of_count 2).

Definition spec_l2_normalized (v : list A) : list A :=
  let n := ssqrt (fold_left sadd (map (fun a => smul a a) v) szero) in
  map (fun a => sdiv a (smax n seps)) v.

(** The [b] by [b] matrix with entry [f i j] in row [i], column [j]. *)
Definition grid (b : nat) (f : nat -> nat -> A) : matrix A :=
  map (fun i => map (f i) (seq 0 b)) (seq 0 b).

(** ** Shapes and valid inputs *)

(** The weights have the shapes [__init__] gives them. *)
Definition model_ok (cfg : Config) (w : Weights) : Prop :=
  shape2 (W_text_emb w) (num_text_tokens cfg) (dim_text cfg) /\
  shape2 (W_text_pos_emb w) (text_seq_len cfg) (dim_text cfg) /\
  shape2 (W_to_text_latent w) (dim_latent cfg) (dim_text cfg) /\
  shape2 (W_speech_emb w) (num_speech_tokens cfg) (dim_speech cfg) /\
  shape2 (W_speech_pos_emb w) (num_speech_tokens cfg) (dim_speech cfg) /\
  shape2 (W_to_speech_latent w) (dim_latent cfg) (dim_speech cfg).

(** Modelled from the spec: the contract of the external [Transformer]
    encoder, whose code is not in this module ("input b x L x d, optional
    per-position boolean mask (b x L); output b x L x d, same shape";
    "depth, head count, and dimension are configuration parameters fixed at
    construction").  An encoder built with [dim = d] keeps the shape of the
    tensors of width [d]; nothing is asked of it on another width. *)
Definition encoder_ok (enc : encoder) (d : nat) : Prop :=
  forall x mask b L,
    shape3 x b L d -> mask_fits mask b L ->
    exists y, enc x mask = Ok y /\ shape3 y b L d.

(** The weight values [init] puts in the store. *)
Definition init_weights (cfg : Config) (rnd : Init) : Weights := {|
  W_text_emb := table (num_text_tokens cfg) (dim_text cfg) (w_text_emb rnd);
  W_text_pos_emb := table (text_seq_len cfg) (dim_text cfg) (w_text_pos_emb rnd);
  W_to_text_latent :=
    table (dim_latent cfg) (dim_text cfg) (w_to_text_latent rnd);
  W_speech_emb :=
    table (num_speech_tokens cfg) (dim_speech cfg) (w_speech_emb rnd);
  W_speech_pos_emb :=
    table (num_speech_tokens cfg) (dim_speech cfg) (w_speech_pos_emb rnd);
  W_to_speech_latent :=
    table (dim_latent cfg) (dim_speech cfg) (w_to_speech_latent rnd);
  W_temperature := sone
|}.

(** An encoder that returns its input, and one that does so on the tensors
    of width [d] and raises on the others. *)
Definition id_encoder : encoder := fun x _ => Ok x.

Definition strict_encoder (d : nat) : encoder :=
  fun x _ =>
    if forallb (forallb (fun vec => Nat.eqb (length vec) d)) x then Ok x
    else Error ShapeError.

End Model.

Arguments tensor : clear implicits.
Arguments heap : clear implicits.
Arguments encoder : clear implicits.
Arguments VoiceCLIP : clear implicits.
Arguments Init : clear implicits.
Arguments output : clear implicits.
Arguments Weights : clear implicits.

(** ** The loss on the reals, in the words of the specification

    On the reals the cross-entropy of row [i] with class [i] is the negative
    log of the softmax probability that row [i] gives to class [i]. *)

Definition spec_directional_ce (b : nat) (logit : nat -> nat -> R) : R :=
  rsum (map (fun i =>
               - ln (exp (logit i i) /
                     rsum (map (fun j => exp (logit i j)) (seq 0 b))))
            (seq 0 b))
  / INR b.

Definition spec_loss (temp : R) (b : nat) (text_latents speech_latents : matrix R)
  : R :=
  let sim := spec_similarity temp text_latents speech_latents in
  (spec_directional_ce b sim + spec_directional_ce b (fun j i => sim i j)) / 2.

(** ** Valid inputs *)

Definition in_range (n : nat) (i : Z) : bool :=
  ((0 <=? i)%Z && (i <? Z.of_nat n)%Z)%bool.

(** Every id of the batch is in [0, n). *)
Definition ids_in_range (n : nat) (t : IdTensor) : bool :=
  forallb (forallb (in_range n)) (data t).

(** The rows of an id tensor have the length its shape says. *)
Definition wf_ids (t : IdTensor) : Prop :=
  Forall (fun r => length r = size1 t) (data t).

(** Every example keeps at least one position. *)
Definition mask_nonempty (mask : option (list (list bool))) : Prop :=
  match mask with
  | None => True
  | Some m => Forall (fun mrow => In true mrow) m
  end.

(** A batch whose shapes and ids [forward] accepts: ids in their vocabulary,
    sequences that are not empty and no longer than the positional tables,
    one speech row per text row, a mask that fits the text. *)
Definition input_fits (cfg : Config) (text speech_tokens : IdTensor)
  (text_mask : option (list (list bool))) : Prop :=
  wf_ids text /\ wf_ids speech_tokens /\
  ids_in_range (num_text_tokens cfg) text = true /\
  ids_in_range (num_speech_tokens cfg) speech_tokens = true /\
  (1 <= size1 text <= text_seq_len cfg)%nat /\
  (1 <= size1 speech_tokens <= num_speech_tokens cfg)%nat /\
  size0 speech_tokens = size0 text /\
  mask_fits text_mask (size0 text) (size1 text).

(** A batch [forward] is meant for: at least one example, ids in their
    vocabulary, sequences that are not empty and no longer than the
    positional tables, one speech row per text row, a mask that fits the text
    and keeps a position of every example.  On such a batch no mean divides
    by zero. *)
Definition valid_input (cfg : Config) (text speech_tokens : IdTensor)
  (text_mask : option (list (list bool))) : Prop :=
  (1 <= size0 text)%nat /\
  wf_ids text /\ wf_ids speech_tokens /\
  ids_in_range (num_text_tokens cfg) text = true /\
  ids_in_range (num_speech_tokens cfg) speech_tokens = true /\
  (1 <= size1 text <= text_seq_len cfg)%nat /\
  (1 <= size1 speech_tokens <= num_speech_tokens cfg)%nat /\
  size0 speech_tokens = size0 text /\
  mask_fits text_mask (size0 text) (size1 text) /\
  mask_nonempty text_mask.

(** The lookup at which a batch with an out-of-range id stops, for a
    well-shaped model: the text table is read first, then the text
    positions, then the speech table. *)
Definition first_fault (cfg : Config) (text : IdTensor) : site :=
  if negb (ids_in_range (num_text_tokens cfg) text) then TextEmb
  else if Nat.ltb (text_seq_len cfg) (size1 text) then TextPosEmb
  else SpeechEmb.

(** ** A small model for the examples *)

Definition tiny_config : Config := {|
  dim_text := 1;
  dim_speech := 1;
  dim_latent := 1;
  num_text_tokens := 2;
  text_enc_depth := 1;
  text_seq_len := 2;
  text_heads := 1;
  num_speech_tokens := 3;
  speech_enc_depth := 1;
  speech_heads := 1;
  speech_seq_len := 1
|}.

(** Text rows [1] and [-1], speech rows [1], [2], [3], positional rows [0],
    projections [1]. *)
Definition tiny_init : Init R := {|
  w_text_emb := fun i _ => match i with O => 1 | _ => -1 end;
  w_text_pos_emb := fun _ _ => 0;
  Transformer_text := fun _ _ _ _ => id_encoder;
  w_to_text_latent := fun _ _ => 1;
  w_speech_emb := fun i _ => INR (S i);
  w_speech_pos_emb := fun _ _ => 0;
  Transformer_speech := fun _ _ _ _ => id_encoder;
  w_to_speech_latent := fun _ _ => 1
|}.

Definition tiny_model {A : Type} : VoiceCLIP A := {|
  text_emb := 0%nat; text_pos_emb := 1%nat; text_transformer := id_encoder;
  to_text_latent := 2%nat; speech_emb := 3%nat; speech_pos_emb := 4%nat;
  speech_transformer := id_encoder; to_speech_latent := 5%nat;
  temperature := 6%nat
|}.

Definition tiny_weights : Weights R := {|
  W_text_emb := [[1]; [-1]];
  W_text_pos_emb := [[0]; [0]];
  W_to_text_latent := [[1]];
  W_speech_emb := [[INR 1]; [INR 2]; [INR 3]];
  W_speech_pos_emb := [[0]; [0]; [0]];
  W_to_speech_latent := [[1]];
  W_temperature := 1
|}.

(** The store [__init__] leaves for given weights. *)
Definition heap_of {A : Type} (w : Weights A) : heap A :=
  [Mat (W_text_emb w); Mat (W_text_pos_emb w);
   Mat (W_to_text_latent w); Mat (W_speech_emb w);
   Mat (W_speech_pos_emb w); Mat (W_to_speech_latent w);
   Scalar0 (W_temperature w)].

Definition tiny_heap : heap R := heap_of tiny_weights.

(** The same weights in binary32, with temperature [t]. *)
Definition f32_weights (t : float32) : Weights float32 := {|
  W_text_emb := [[f32_one]; [SFopp f32_one]];
  W_text_pos_emb := [[S754_zero false]; [S754_zero false]];
  W_to_text_latent := [[f32_one]];
  W_speech_emb := [[f32_one]; [f32_two]; [f32_three]];
  W_speech_pos_emb := [[S754_zero false]; [S754_zero false]; [S754_zero false]];
  W_to_speech_latent := [[f32_one]];
  W_temperature := t
|}.

(** Text rows [1e30] and [-1e30]: their squares overflow binary32. *)
Definition f32_huge_weights : Weights float32 := {|
  W_text_emb := [[f32_1e30]; [SFopp f32_1e30]];
  W_text_pos_emb := [[S754_zero false]; [S754_zero false]];
  W_to_text_latent := [[f32_one]];
  W_speech_emb := [[f32_one]; [f32_two]; [f32_three]];
  W_speech_pos_emb := [[S754_zero false]; [S754_zero false]; [S754_zero false]];
  W_to_speech_latent := [[f32_one]];
  W_temperature := f32_one
|}.

(** One example of two positions whose rows cancel, and a speech example. *)
Definition tiny_text : IdTensor := {| size1 := 2; data := [[0; 1]]%Z |}.
Definition tiny_speech : IdTensor := {| size1 := 1; data := [[2]]%Z |}.

(** A batch of one pair and a batch of two pairs. *)
Definition one_text : IdTensor := {| size1 := 1; data := [[0]]%Z |}.
Definition one_speech : IdTensor := {| size1 := 1; data := [[1]]%Z |}.
Definition pair_text : IdTensor := {| size1 := 1; data := [[0]; [1]]%Z |}.
Definition pair_speech : IdTensor := {| size1 := 1; data := [[0]; [1]]%Z |}.

(** A text longer than the text positional table, and a speech id outside
    the speech vocabulary. *)
Definition long_text : IdTensor := {| size1 := 3; data := [[0; 1; 0]]%Z |}.
Definition bad_speech : IdTensor := {| size1 := 1; data := [[7]]%Z |}.

(** ** Notions used by the further properties *)

(** The rows of one example that its mask keeps. *)
Definition kept_rows {A} (rows : list (list A)) (mrow : list bool)
  : list (list A) :=
  map fst (filter snd (combine rows mrow)).

(** [valid_input] without the agreement of the two batch sizes: what each
    side needs to get through its encoder, pooling and projection. *)
Definition valid_sides (cfg : Config) (text speech_tokens : IdTensor)
  (text_mask : option (list (list bool))) : Prop :=
  wf_ids text /\ wf_ids speech_tokens /\
  ids_in_range (num_text_tokens cfg) text = true /\
  ids_in_range (num_speech_tokens cfg) speech_tokens = true /\
  (1 <= size1 text <= text_seq_len cfg)%nat /\
  (1 <= size1 speech_tokens <= num_speech_tokens cfg)%nat /\
  mask_fits text_mask (size0 text) (size1 text) /\
  mask_nonempty text_mask.

(** The batch of the module's own smoke test ([__main__]): [b] rows of [L]
    ids, every id below [bound]. *)
Definition ids_below (bound : Z) (b L : nat) (t : IdTensor) : Prop :=
  size1 t = L /\ length (data t) = b /\
  Forall (fun r => length r = L /\ Forall (fun i => (0 <= i < bound)%Z) r)
         (data t).

(** A batch of [b] rows of [L] ids, all 0. *)
Definition zero_ids (b L : nat) : IdTensor :=
  {| size1 := L; data := repeat (repeat 0%Z L) b |}.

(** The first of the four lookups of lines 68 to 72 that a batch cannot
    pass, in the order the lines run them; [None] when it passes all. *)
Definition first_index_fault (cfg : Config) (text speech_tokens : IdTensor)
  : option site :=
  if negb (ids_in_range (num_text_tokens cfg) text) then Some TextEmb
  else if Nat.ltb (text_seq_len cfg) (size1 text) then Some TextPosEmb
  else if negb (ids_in_range (num_speech_tokens cfg) speech_tokens)
       then Some SpeechEmb
  else if Nat.ltb (num_speech_tokens cfg) (size1 speech_tokens)
       then Some SpeechPosEmb
  else None.

(** * Properties *)

(** ** Exceptions and broadcasting *)

Lemma mapM_pure {A B} (f : A -> B) (xs : list A) :
  mapM (fun x => Ok (f x)) xs = Ok (map f xs).
Proof.
  induction xs as [|x xs IH]; simpl; [reflexivity|].
  rewrite IH. reflexivity.
Qed.

Lemma mapM_ext_in {A B} (f g : A -> result B) (xs : list A) :
  (forall x, In x xs -> f x = g x) -> mapM f xs = mapM g xs.
Proof.
  induction xs as [|x xs IH]; simpl; intros Hfg; [reflexivity|].
  rewrite (Hfg x) by (left; reflexivity).
  rewrite IH by (intros y Hy; apply Hfg; right; exact Hy).
  reflexivity.
Qed.

Lemma mapM_length {A B} (f : A -> result B) (xs : list A) (ys : list B) :
  mapM f xs = Ok ys -> length ys = length xs.
Proof.
  revert ys; induction xs as [|x xs IH]; simpl; intros ys Hm.
  - inversion Hm; reflexivity.
  - destruct (f x) as [y|e]; simpl in Hm; [|discriminate].
    destruct (mapM f xs) as [ys'|e]; simpl in Hm; [|discriminate].
    inversion Hm; subst; simpl. f_equal. apply IH. reflexivity.
Qed.

(** [mapM] succeeds when [f] does on every element, and the results inherit
    what [f] guarantees. *)
Lemma mapM_Forall {A B} (f : A -> result B) (P : A -> Prop) (Q : B -> Prop)
  (xs : list A) :
  (forall x, P x -> exists y, f x = Ok y /\ Q y) ->
  Forall P xs ->
  exists ys, mapM f xs = Ok ys /\ Forall Q ys /\ length ys = length xs.
Proof.
  intros Hf HP; induction HP as [|x xs Hx _ IH]; simpl.
  - exists []; repeat split; constructor.
  - destruct (Hf x Hx) as [y [Hy HQ]]. destruct IH as [ys [Hys [HQs Hlen]]].
    rewrite Hy, Hys; simpl. exists (y :: ys); repeat split.
    + constructor; assumption.
    + simpl; f_equal; exact Hlen.
Qed.

(** [mapM] stops with the exception of the first element that raises, when
    the elements before it do not. *)
Lemma mapM_first_error {A B} (f : A -> result B) (e : error) (xs : list A) :
  (forall x, In x xs -> (exists y, f x = Ok y) \/ f x = Error e) ->
  (exists x, In x xs /\ f x = Error e) ->
  mapM f xs = Error e.
Proof.
  induction xs as [|x xs IH]; simpl; intros Hall [z [Hin Hz]]; [contradiction|].
  destruct (Hall x (or_introl eq_refl)) as [[y Hy]|Hx].
  - rewrite Hy; simpl. rewrite IH; [reflexivity| |].
    + intros w Hw; apply Hall; right; exact Hw.
    + destruct Hin as [->|Hin]; [congruence|]. exists z; split; assumption.
  - rewrite Hx; reflexivity.
Qed.

Lemma bzip_same_length {A B C} (f : A -> B -> result C) xs ys :
  length xs = length ys ->
  bzip f xs ys = mapM (fun p => f (fst p) (snd p)) (combine xs ys).
Proof.
  intros Hlen; unfold bzip. rewrite Hlen, Nat.eqb_refl. reflexivity.
Qed.

Lemma xzip_same_length {A B} (f : A -> B -> result A) xs ys :
  length ys = length xs ->
  xzip f xs ys = mapM (fun p => f (fst p) (snd p)) (combine xs ys).
Proof.
  intros Hlen; unfold xzip. rewrite Hlen, Nat.eqb_refl. reflexivity.
Qed.

(** Dividing a row by a one-element row divides every entry by that
    element. *)
Lemma bzip_by_singleton {A B C} (f : A -> B -> C) (xs : list A) (y : B) :
  bzip (fun a c => Ok (f a c)) xs [y] = Ok (map (fun a => f a y) xs).
Proof.
  unfold bzip. destruct xs as [|x [|x' xs]]; simpl; try reflexivity.
  rewrite mapM_pure. reflexivity.
Qed.

(** ** Pooling *)

Section PoolingFacts.
Context {A : Type} `{Scalar A}.

(** Filling under a mask that holds nowhere changes nothing. *)
Lemma fill_row_nowhere (rows : list (list A)) (mrow : list bool) (v : A) :
  length mrow = length rows ->
  Forall (fun x => x = true) mrow ->
  bzip (fun (vec : list A) (hit : bool) =>
          Ok (if hit then map (fun _ => v) vec else vec))
       rows (map negb mrow) = Ok rows.
Proof.
  intros Hlen Htrue.
  rewrite bzip_same_length by (rewrite length_map; symmetry; exact Hlen).
  revert mrow Hlen Htrue; induction rows as [|r rows IH]; intros [|m mrow] Hlen Htrue;
    simpl in *; try discriminate; [reflexivity|].
  inversion Htrue as [|? ? Hm Hrest]; subst; simpl.
  rewrite IH by (auto; lia). reflexivity.
Qed.

Lemma masked_fill_nowhere (t : tensor3 A) (mask : list (list bool)) (v : A) :
  Forall2 (fun rows mrow => length mrow = length rows) t mask ->
  Forall (Forall (fun x => x = true)) mask ->
  masked_fill t (map (map negb) mask) v = Ok t.
Proof.
  intros Hshape Htrue; unfold masked_fill.
  rewrite bzip_same_length
    by (rewrite length_map; eapply Forall2_length; exact Hshape).
  induction Hshape as [|rows mrow t mask Hlen _ IH]; simpl; [reflexivity|].
  inversion Htrue as [|? ? Hm Hrest]; subst.
  rewrite fill_row_nowhere by assumption; simpl.
  rewrite IH by assumption. reflexivity.
Qed.

Lemma count_all_true (mrow : list bool) :
  Forall (fun x => x = true) mrow ->
  length (filter (fun x => x) mrow) = length mrow.
Proof.
  induction 1 as [|m mrow Hm _ IH]; simpl; [reflexivity|].
  subst; simpl. f_equal; exact IH.
Qed.

Lemma div_counts_full (t : tensor3 A) (mask : list (list bool)) :
  Forall2 (fun rows mrow => length mrow = length rows) t mask ->
  Forall (Forall (fun x => x = true)) mask ->
  div_counts (sum_dim1 t) (count_true mask) = Ok (mean_dim1 t).
Proof.
  intros Hshape Htrue; unfold div_counts, sum_dim1, count_true, mean_dim1.
  rewrite bzip_same_length
    by (rewrite !length_map; eapply Forall2_length; exact Hshape).
  induction Hshape as [|rows mrow t mask Hlen _ IH]; simpl; [reflexivity|].
  inversion Htrue as [|? ? Hm Hrest]; subst.
  rewrite bzip_by_singleton; simpl.
  rewrite IH by assumption.
  rewrite count_all_true, Hlen by assumption. reflexivity.
Qed.

End PoolingFacts.

(** C5.  For every tensor and every mask of its batch and sequence extents
    that is [true] everywhere, [masked_mean] returns what the plain mean over
    the sequence axis returns.  The statement is for any element arithmetic,
    so it holds on the reals and, entry for entry, on binary32.  In
    [forward], pooling the encoded text under such a mask is pooling it
    with no mask. *)
Theorem masked_mean_all_true :
  (forall (A : Type) (S : Scalar A) (t : tensor3 A) (mask : list (list bool)),
      Forall2 (fun rows mrow => length mrow = length rows) t mask ->
      Forall (Forall (fun x => x = true)) mask ->
      masked_mean t mask 1 = Ok (mean_dim1 t)) /\
  (forall (enc_text : tensor3 R) (mask : list (list bool)),
      Forall2 (fun rows mrow => length mrow = length rows) enc_text mask ->
      Forall (Forall (fun x => x = true)) mask ->
      pool enc_text (Some mask) = pool enc_text None).
Proof.
  assert (Hgen : forall (A : Type) (S : Scalar A) (t : tensor3 A) mask,
             Forall2 (fun rows mrow => length mrow = length rows) t mask ->
             Forall (Forall (fun x => x = true)) mask ->
             masked_mean t mask 1 = Ok (mean_dim1 t)).
  { intros A S t mask Hshape Htrue; unfold masked_mean.
    rewrite masked_fill_nowhere by assumption; simpl.
    apply div_counts_full; assumption. }
  split; [exact Hgen|].
  intros enc_text mask Hshape Htrue. unfold pool.
  apply Hgen; assumption.
Qed.

Lemma masked_mean_all_true_witness :
  masked_mean [[[1; 2]; [3; 4]]] [[true; true]] 1
  = Ok (mean_dim1 [[[1; 2]; [3; 4]]]) /\
  masked_mean [[[S754_finite false 8388608 (-23)]; [S754_infinity false]]]
              [[true; true]] 1
  = Ok (mean_dim1 [[[S754_finite false 8388608 (-23)]; [S754_infinity false]]]) /\
  pool [[[1; 2]; [3; 4]]] (Some [[true; true]]) = pool [[[1; 2]; [3; 4]]] None.
Proof.
  destruct masked_mean_all_true as [Hgen Hpool].
  split; [|split].
  - apply (Hgen R R_Scalar [[[1; 2]; [3; 4]]] [[true; true]]);
      repeat constructor.
  - apply (Hgen float32 float32_Scalar
             [[[S754_finite false 8388608 (-23)]; [S754_infinity false]]]
             [[true; true]]); repeat constructor.
  - apply (Hpool [[[1; 2]; [3; 4]]] [[true; true]]); repeat constructor.
Defined.

(** ** The shape of a masked mean *)

Section MaskedMeanAligned.
Context {A : Type} `{Scalar A}.

Lemma combine_map_r {X Y Z} (g : Y -> Z) (xs : list X) (ys : list Y) :
  combine xs (map g ys) = map (fun p => (fst p, g (snd p))) (combine xs ys).
Proof.
  revert ys; induction xs as [|x xs IH]; intros [|y ys]; simpl; try reflexivity.
  rewrite IH. reflexivity.
Qed.

Lemma fill_row_aligned (rows : list (list A)) (mrow : list bool) :
  length mrow = length rows ->
  bzip (fun (vec : list A) (hit : bool) =>
          Ok (if hit then map (fun _ => szero) vec else vec))
       rows (map negb mrow) = Ok (fill_rows rows mrow).
Proof.
  intros Hlen.
  rewrite bzip_same_length by (rewrite length_map; symmetry; exact Hlen).
  rewrite (mapM_pure (fun p : list A * bool =>
             if snd p then map (fun _ => szero) (fst p) else fst p)).
  unfold fill_rows, zip_with. rewrite combine_map_r, map_map. reflexivity.
Qed.

Lemma masked_fill_aligned (t : tensor3 A) (mask : list (list bool)) :
  Forall2 (fun rows mrow => length mrow = length rows) t mask ->
  masked_fill t (map (map negb) mask) szero = Ok (zip_with fill_rows t mask).
Proof.
  intros Hshape; unfold masked_fill.
  rewrite bzip_same_length
    by (rewrite length_map; eapply Forall2_length; exact Hshape).
  unfold zip_with.
  induction Hshape as [|rows mrow t mask Hlen _ IH]; simpl; [reflexivity|].
  rewrite fill_row_aligned by assumption; simpl.
  rewrite IH. reflexivity.
Qed.

Lemma masked_mean_aligned (t : tensor3 A) (mask : list (list bool)) (dim : nat) :
  Forall2 (fun rows mrow => length mrow = length rows) t mask ->
  masked_mean t mask dim = Ok (zip_with pool_rows t mask).
Proof.
  intros Hshape; unfold masked_mean.
  rewrite masked_fill_aligned by assumption; simpl.
  unfold div_counts, sum_dim1, count_true.
  rewrite bzip_same_length.
  2:{ rewrite !length_map. unfold zip_with. rewrite length_map, length_combine.
      apply Forall2_length in Hshape. lia. }
  unfold zip_with.
  induction Hshape as [|rows mrow t mask Hlen _ IH]; simpl; [reflexivity|].
  rewrite bzip_by_singleton; simpl.
  rewrite IH. reflexivity.
Qed.

Lemma nth_error_zip_with {X Y Z} (f : X -> Y -> Z) xs ys i x y :
  nth_error xs i = Some x -> nth_error ys i = Some y ->
  nth_error (zip_with f xs ys) i = Some (f x y).
Proof.
  unfold zip_with.
  revert ys i; induction xs as [|x' xs IH]; intros [|y' ys] [|i] Hx Hy;
    simpl in *; try discriminate.
  - inversion Hx; inversion Hy; subst; reflexivity.
  - apply IH; assumption.
Qed.

Lemma length_zip_with {X Y Z} (f : X -> Y -> Z) xs ys :
  length xs = length ys -> length (zip_with f xs ys) = length xs.
Proof.
  intros Hlen; unfold zip_with. rewrite length_map, length_combine. lia.
Qed.

End MaskedMeanAligned.

(** ** Pooling on binary32 *)

Lemma f32_zero_plus_zero : sadd (szero : float32) szero = szero.
Proof. reflexivity. Qed.

Lemma f32_zero_over_no_count : sdiv (szero : float32) (of_count 0) = f32_nan.
Proof. reflexivity. Qed.

Lemma vadd_zeros (n : nat) :
  vadd (repeat (szero : float32) n) (repeat szero n) = repeat szero n.
Proof.
  unfold vadd, zip_with. induction n as [|n IH]; simpl; [reflexivity|].
  f_equal; exact IH.
Qed.

Lemma sum_of_zero_rows (d : nat) (rows : list (list float32)) :
  Forall (fun vec => vec = repeat szero d) rows ->
  fold_left vadd rows (repeat szero d) = repeat szero d.
Proof.
  induction 1 as [|vec rows Hvec _ IH]; simpl; [reflexivity|].
  subst vec. rewrite vadd_zeros. exact IH.
Qed.

Lemma map_const_repeat {X Y} (y : Y) (xs : list X) :
  map (fun _ => y) xs = repeat y (length xs).
Proof. induction xs as [|x xs IH]; simpl; [reflexivity|]. rewrite IH; reflexivity. Qed.

Lemma map_const_repeat' {X Y} (f : X -> Y) (y : Y) (xs : list X) :
  (forall x, In x xs -> f x = y) -> map f xs = repeat y (length xs).
Proof.
  induction xs as [|x xs IH]; simpl; intros Hf; [reflexivity|].
  rewrite Hf by (left; reflexivity). rewrite IH; [reflexivity|].
  intros z Hz; apply Hf; right; exact Hz.
Qed.

Lemma fill_rows_all_false (d : nat) (rows : list (list float32))
  (mrow : list bool) :
  Forall (fun vec => length vec = d) rows ->
  Forall (fun x => x = false) mrow ->
  Forall (fun vec => vec = repeat szero d) (fill_rows rows mrow).
Proof.
  intros Hrect; unfold fill_rows, zip_with.
  revert mrow; induction Hrect as [|vec rows' Hvec _ IH];
    intros [|m mrow] Hfalse; simpl; try constructor.
  - inversion Hfalse; subst; simpl. rewrite map_const_repeat. reflexivity.
  - inversion Hfalse; subst. apply IH. assumption.
Qed.

(** An example whose mask keeps nothing is pooled to NaN in every entry. *)
Lemma pool_rows_all_false (rows : list (list float32)) (mrow : list bool) :
  length mrow = length rows ->
  Forall (fun x => x = false) mrow ->
  Forall (fun vec => length vec = width rows) rows ->
  pool_rows rows mrow = repeat f32_nan (width rows).
Proof.
  intros Hlen Hfalse Hrect.
  assert (Hfill := @fill_rows_all_false _ _ _ Hrect Hfalse).
  assert (Hw : width (fill_rows rows mrow) = width rows).
  { destruct rows as [|vec rows]; destruct mrow as [|m mrow];
      simpl in *; try discriminate; [reflexivity|].
    inversion Hfalse; subst; simpl. unfold width; simpl. apply length_map. }
  assert (Hcount : length (filter (fun x => x) mrow) = 0%nat).
  { clear Hlen Hfill Hw. induction Hfalse as [|m mrow Hm _ IH]; simpl; [reflexivity|].
    subst; simpl. exact IH. }
  unfold pool_rows. rewrite Hw, Hcount, (@sum_of_zero_rows _ _ Hfill).
  rewrite map_const_repeat' with (y := f32_nan).
  - rewrite repeat_length. reflexivity.
  - intros x Hx. apply repeat_spec in Hx. subst x. apply f32_zero_over_no_count.
Qed.

Example masked_mean_f32_keeps_first :
  masked_mean [[[f32_one; f32_two]; [f32_three; f32_four]]] [[true; false]] 1
  = Ok [[f32_one; f32_two]].
Proof. vm_compute. reflexivity. Qed.

Example masked_mean_f32_mean_of_two :
  masked_mean [[[f32_one; f32_two]; [f32_three; f32_four]]] [[true; true]] 1
  = Ok [[f32_two; f32_three]].
Proof. vm_compute. reflexivity. Qed.

Example masked_mean_f32_broadcast_mask :
  masked_mean [[[f32_one]; [f32_three]]; [[f32_two]; [f32_four]]]
              [[true; true]] 1
  = Ok [[f32_two]; [f32_three]].
Proof. vm_compute. reflexivity. Qed.

Example masked_mean_f32_wrong_length :
  masked_mean [[[f32_one]; [f32_three]]] [[true; true; true]] 1
  = Error ShapeError.
Proof. vm_compute. reflexivity. Qed.

Example masked_mean_f32_one_empty_mask :
  masked_mean [[[f32_one; f32_two]; [f32_three; f32_four]];
               [[f32_one; f32_two]; [f32_three; f32_four]]]
              [[false; false]; [false; true]] 1
  = Ok [[f32_nan; f32_nan]; [f32_three; f32_four]].
Proof. vm_compute. reflexivity. Qed.

(** C6.  On binary32, for a mask of the tensor's batch and sequence extents,
    [masked_mean] raises nothing: it returns a matrix, and the row of every
    example whose mask is [false] everywhere is NaN in each entry, the value
    of the division of the zero sum by the zero count. *)
Theorem masked_mean_all_false_is_nan :
  forall (t : tensor3 float32) (mask : list (list bool)),
    Forall2 (fun rows mrow => length mrow = length rows) t mask ->
    exists out,
      masked_mean t mask 1 = Ok out /\
      length out = length t /\
      forall i rows mrow,
        nth_error t i = Some rows ->
        nth_error mask i = Some mrow ->
        Forall (fun vec => length vec = width rows) rows ->
        Forall (fun x => x = false) mrow ->
        nth_error out i = Some (repeat f32_nan (width rows)).
Proof.
  intros t mask Hshape.
  exists (zip_with pool_rows t mask). split; [|split].
  - apply masked_mean_aligned; exact Hshape.
  - apply length_zip_with. eapply Forall2_length; exact Hshape.
  - intros i rows mrow Ht Hm Hrect Hfalse.
    rewrite (nth_error_zip_with _ _ _ _ Ht Hm). f_equal.
    apply pool_rows_all_false; try assumption.
    clear Hrect Hfalse. revert i Ht Hm.
    induction Hshape as [|rows' mrow' t mask Hlen _ IH]; intros [|i] Ht Hm;
      simpl in *; try discriminate.
    + inversion Ht; inversion Hm; subst; exact Hlen.
    + eapply IH; eassumption.
Qed.

Lemma masked_mean_all_false_is_nan_witness :
  exists out,
    masked_mean [[[S754_finite false 8388608 (-23); S754_infinity true]]]
                [[false]] 1 = Ok out /\
    nth_error out 0 = Some [f32_nan; f32_nan].
Proof.
  destruct (@masked_mean_all_false_is_nan
              [[[S754_finite false 8388608 (-23); S754_infinity true]]]
              [[false]])
    as [out [Hout [_ Hrow]]].
  - repeat constructor.
  - exists out; split; [exact Hout|].
    apply (Hrow 0%nat [[S754_finite false 8388608 (-23); S754_infinity true]]
                [false]).
    + reflexivity.
    + reflexivity.
    + repeat constructor.
    + repeat constructor.
Defined.

(** ** Running on the store *)

Unset Implicit Arguments.

Lemma bind_ok {H B C} (m : M H B) (k : B -> M H C) h a h' :
  m h = (Ok a, h') -> bind m k h = k a h'.
Proof. intros Hm; unfold bind; rewrite Hm; reflexivity. Qed.

Lemma bind_error {H B C} (m : M H B) (k : B -> M H C) h e h' :
  m h = (Error e, h') -> bind m k h = (Error e, h').
Proof. intros Hm; unfold bind; rewrite Hm; reflexivity. Qed.

Section Store.
Context {A : Type} `{Scalar A}.

Lemma load_mat_at h r (m : matrix A) :
  nth_error h r = Some (Mat m) -> load_mat r h = (Ok m, h).
Proof. intros Hr; unfold load_mat, bind, load; rewrite Hr; reflexivity. Qed.

Lemma load_cube_at h r (t : tensor3 A) :
  nth_error h r = Some (Cube t) -> load_cube r h = (Ok t, h).
Proof. intros Hr; unfold load_cube, bind, load; rewrite Hr; reflexivity. Qed.

Lemma load_scalar_at h r (x : A) :
  nth_error h r = Some (Scalar0 x) -> load_scalar r h = (Ok x, h).
Proof. intros Hr; unfold load_scalar, bind, load; rewrite Hr; reflexivity. Qed.

Lemma nth_error_old (h extra : heap A) r v :
  nth_error h r = Some v -> nth_error (h ++ extra) r = Some v.
Proof.
  intros Hr. rewrite nth_error_app1; [exact Hr|].
  apply nth_error_Some. congruence.
Qed.

Lemma nth_error_new (h extra : heap A) k :
  nth_error (h ++ extra) (length h + k) = nth_error extra k.
Proof.
  rewrite nth_error_app2 by lia. f_equal. lia.
Qed.

Lemma set_nth_new (h extra : heap A) k v :
  set_nth (length h + k) v (h ++ extra) = h ++ set_nth k v extra.
Proof.
  induction h as [|c h IH]; simpl; [reflexivity|].
  rewrite IH. reflexivity.
Qed.

Lemma Embedding_forward_2d_run s r (w : matrix A) ids h :
  nth_error h r = Some (Mat w) ->
  Embedding_forward_2d s r ids h =
  match embedding_2d s w ids with
  | Ok t => (Ok (length h), h ++ [Cube t])
  | Error e => (Error e, h)
  end.
Proof.
  intros Hr; unfold Embedding_forward_2d.
  rewrite (bind_ok _ _ _ _ _ (load_mat_at _ _ _ Hr)).
  unfold bind, lift, alloc. destruct (embedding_2d s w ids); reflexivity.
Qed.

Lemma Embedding_forward_1d_run s r (w : matrix A) ids h :
  nth_error h r = Some (Mat w) ->
  Embedding_forward_1d s r ids h =
  match embedding_1d s w ids with
  | Ok t => (Ok (length h), h ++ [Mat t])
  | Error e => (Error e, h)
  end.
Proof.
  intros Hr; unfold Embedding_forward_1d.
  rewrite (bind_ok _ _ _ _ _ (load_mat_at _ _ _ Hr)).
  unfold bind, lift, alloc. destruct (embedding_1d s w ids); reflexivity.
Qed.

(** [x += p] on the two objects a lookup pair has just created: only the
    first of them changes. *)
Lemma iadd_fresh (h : heap A) (a : tensor3 A) (q : matrix A) :
  iadd (length h) (length h + 1) (h ++ [Cube a; Mat q]) =
  match add_pos a q with
  | Ok r => (Ok tt, h ++ [Cube r; Mat q])
  | Error e => (Error e, h ++ [Cube a; Mat q])
  end.
Proof.
  unfold iadd.
  erewrite bind_ok.
  2:{ apply load_cube_at.
      replace (length h) with (length h + 0)%nat at 1 by lia.
      rewrite nth_error_new. reflexivity. }
  erewrite bind_ok.
  2:{ apply load_mat_at. rewrite nth_error_new. reflexivity. }
  unfold bind, lift, store. destruct (add_pos a q) as [r|e]; [|reflexivity].
  replace (Nat.ltb (length h) (length (h ++ [Cube a; Mat q]))) with true.
  2:{ symmetry; apply Nat.ltb_lt. rewrite length_app; simpl; lia. }
  replace (length h) with (length h + 0)%nat at 1 by lia.
  rewrite set_nth_new. reflexivity.
Qed.

(** One modality of lines 68 to 72: the table lookup, the positional lookup
    and the in-place sum leave the old objects alone and put the embedded
    batch in a new one. *)
Lemma embed_one_run (s s' : site) (rw rp : ref) (w p : matrix A)
  (ids : list (list Z)) (n : nat) (h : heap A) :
  nth_error h rw = Some (Mat w) ->
  nth_error h rp = Some (Mat p) ->
  exists extra,
    (x <- Embedding_forward_2d s rw ids ;;
     pos <- Embedding_forward_1d s' rp (arange n) ;;
     iadd x pos ;;;
     ret x)%st h
    = (match embed_one_fun s s' w p ids n with
       | Ok _ => Ok (length h)
       | Error e => Error e
       end, h ++ extra) /\
    forall t, embed_one_fun s s' w p ids n = Ok t ->
              nth_error (h ++ extra) (length h) = Some (Cube t).
Proof.
  intros Hw Hp. unfold embed_one_fun.
  destruct (embedding_2d s w ids) as [te|e] eqn:Hte.
  2:{ exists []. rewrite app_nil_r. split; [|discriminate].
      erewrite bind_error; [reflexivity|].
      rewrite (Embedding_forward_2d_run _ _ _ _ _ Hw), Hte. reflexivity. }
  erewrite bind_ok
    by (rewrite (Embedding_forward_2d_run _ _ _ _ _ Hw), Hte; reflexivity).
  assert (Hp' := nth_error_old _ [Cube te] _ _ Hp).
  destruct (embedding_1d s' p (arange n)) as [tp|e] eqn:Htp.
  2:{ exists [Cube te]. split; [|discriminate].
      erewrite bind_error; [reflexivity|].
      rewrite (Embedding_forward_1d_run _ _ _ _ _ Hp'), Htp. reflexivity. }
  erewrite bind_ok
    by (rewrite (Embedding_forward_1d_run _ _ _ _ _ Hp'), Htp; reflexivity).
  rewrite length_app, <- app_assoc; simpl app. simpl length.
  simpl rbind.
  destruct (add_pos te tp) as [t|e] eqn:Ht.
  - exists [Cube t; Mat tp]. split.
    + erewrite bind_ok by (rewrite iadd_fresh, Ht; reflexivity). reflexivity.
    + intros t' Heq; inversion Heq; subst.
      rewrite <- (Nat.add_0_r (length h)).
      rewrite nth_error_new. reflexivity.
  - exists [Cube te; Mat tp]. split; [|discriminate].
    erewrite bind_error by (rewrite iadd_fresh, Ht; reflexivity). reflexivity.
Qed.

Lemma holds_old (self : VoiceCLIP A) h w extra : holds self h w -> holds self (h ++ extra) w.
Proof.
  unfold holds; intros (H1 & H2 & H3 & H4 & H5 & H6 & H7);
    repeat split; apply nth_error_old; assumption.
Qed.

(** Lines 68 to 72 are the text modality followed by the speech modality. *)
Lemma embed_split (self : VoiceCLIP A) text speech_tokens h :
  embed self text speech_tokens h =
  (x <- (x <- Embedding_forward_2d TextEmb (text_emb self) (data text) ;;
         pos <- Embedding_forward_1d TextPosEmb (text_pos_emb self)
                  (arange (size1 text)) ;;
         iadd x pos ;;;
         ret x) ;;
   y <- (y <- Embedding_forward_2d SpeechEmb (speech_emb self)
                (data speech_tokens) ;;
         pos <- Embedding_forward_1d SpeechPosEmb (speech_pos_emb self)
                  (arange (size1 speech_tokens)) ;;
         iadd y pos ;;;
         ret y) ;;
   ret (x, y))%st h.
Proof.
  unfold embed, bind, ret.
  destruct (Embedding_forward_2d TextEmb _ _ h) as [[x|e] h1]; [|reflexivity].
  destruct (Embedding_forward_1d TextPosEmb _ _ h1) as [[p|e] h2]; [|reflexivity].
  destruct (iadd x p h2) as [[[]|e] h3]; [|reflexivity].
  destruct (Embedding_forward_2d SpeechEmb _ _ h3) as [[y|e] h4]; [|reflexivity].
  destruct (Embedding_forward_1d SpeechPosEmb _ _ h4) as [[q|e] h5]; [|reflexivity].
  destruct (iadd y q h5) as [[[]|e] h6]; reflexivity.
Qed.

Lemma embed_run self w text speech_tokens h :
  holds self h w ->
  exists extra,
    (forall e, embed_text_fun w text = Error e ->
               embed self text speech_tokens h = (Error e, h ++ extra)) /\
    (forall x e, embed_text_fun w text = Ok x ->
                 embed_speech_fun w speech_tokens = Error e ->
                 embed self text speech_tokens h = (Error e, h ++ extra)) /\
    (forall x y, embed_text_fun w text = Ok x ->
                 embed_speech_fun w speech_tokens = Ok y ->
                 exists rx ry,
                   embed self text speech_tokens h = (Ok (rx, ry), h ++ extra) /\
                   nth_error (h ++ extra) rx = Some (Cube x) /\
                   nth_error (h ++ extra) ry = Some (Cube y)).
Proof.
  intros Hh. assert (Hh0 := Hh).
  destruct Hh as (Hte & Htp & _ & Hse & Hsp & _).
  destruct (embed_one_run TextEmb TextPosEmb _ _ _ _ (data text) (size1 text)
              h Hte Htp) as [ex1 [Hrun1 Hcell1]].
  change (embed_one_fun TextEmb TextPosEmb (W_text_emb w) (W_text_pos_emb w)
            (data text) (size1 text))
    with (embed_text_fun w text) in Hrun1, Hcell1.
  destruct (embed_text_fun w text) as [x|e] eqn:Hx.
  2:{ exists ex1. repeat split; try discriminate.
      intros e' He'; inversion He'; subst.
      rewrite embed_split. erewrite bind_error by exact Hrun1. reflexivity. }
  assert (Hh1 := holds_old _ _ _ ex1 Hh0).
  destruct Hh1 as (_ & _ & _ & Hse1 & Hsp1 & _).
  destruct (embed_one_run SpeechEmb SpeechPosEmb _ _ _ _ (data speech_tokens)
              (size1 speech_tokens) (h ++ ex1) Hse1 Hsp1) as [ex2 [Hrun2 Hcell2]].
  change (embed_one_fun SpeechEmb SpeechPosEmb (W_speech_emb w)
            (W_speech_pos_emb w) (data speech_tokens) (size1 speech_tokens))
    with (embed_speech_fun w speech_tokens) in Hrun2, Hcell2.
  exists (ex1 ++ ex2). rewrite app_assoc.
  repeat split; try discriminate.
  - intros x' e' Hx' He'. rewrite He' in Hrun2.
    rewrite embed_split. erewrite bind_ok by exact Hrun1.
    erewrite bind_error by exact Hrun2. reflexivity.
  - intros x' y Hx' Hy. inversion Hx'; subst x'. rewrite Hy in Hrun2.
    exists (length h), (length (h ++ ex1)). split; [|split].
    + rewrite embed_split. erewrite bind_ok by exact Hrun1.
      erewrite bind_ok by exact Hrun2. reflexivity.
    + apply nth_error_old. apply Hcell1. reflexivity.
    + apply Hcell2. exact Hy.
Qed.

(** Lines 74 to 87 read the store and leave it as it is. *)
Lemma latents_run self w h rx ry x y text_mask :
  holds self h w ->
  nth_error h rx = Some (Cube x) ->
  nth_error h ry = Some (Cube y) ->
  latents self rx ry text_mask h = (latents_fun self w x y text_mask, h).
Proof.
  intros (_ & _ & Htl & _ & _ & Hsl & _) Hx Hy.
  unfold latents, latents_fun.
  erewrite bind_ok by (apply load_cube_at; exact Hx).
  unfold bind at 1, lift at 1.
  destruct (text_transformer self x text_mask) as [enc_text|e];
    cbn [rbind]; [|reflexivity].
  erewrite bind_ok by (apply load_cube_at; exact Hy).
  unfold bind at 1, lift at 1.
  destruct (speech_transformer self y None) as [enc_speech|e];
    cbn [rbind]; [|reflexivity].
  unfold bind at 1, lift at 1.
  destruct (pool enc_text text_mask) as [pooled|e]; cbn [rbind]; [|reflexivity].
  erewrite bind_ok by (apply load_mat_at; exact Htl).
  unfold bind at 1, lift at 1.
  destruct (linear (W_to_text_latent w) pooled) as [tl|e];
    cbn [rbind]; [|reflexivity].
  erewrite bind_ok by (apply load_mat_at; exact Hsl).
  unfold bind at 1, lift at 1.
  destruct (linear (W_to_speech_latent w) (mean_dim1 enc_speech)) as [sl|e];
    reflexivity.
Qed.

Lemma forward_latents_run self w text speech_tokens text_mask h :
  holds self h w ->
  exists extra,
    forward_latents self text speech_tokens text_mask h =
    (forward_latents_fun self w text speech_tokens text_mask, h ++ extra).
Proof.
  intros Hh.
  destruct (embed_run self w text speech_tokens h Hh)
    as [extra (Herr1 & Herr2 & Hok)].
  exists extra. unfold forward_latents, forward_latents_fun.
  destruct (embed_text_fun w text) as [x|e] eqn:Hx.
  2:{ erewrite bind_error by (apply Herr1; reflexivity). reflexivity. }
  destruct (embed_speech_fun w speech_tokens) as [y|e] eqn:Hy.
  2:{ erewrite bind_error by (eapply Herr2; reflexivity). reflexivity. }
  destruct (Hok x y eq_refl eq_refl) as (rx & ry & Hrun & Hcx & Hcy).
  erewrite bind_ok by exact Hrun. simpl fst; simpl snd.
  apply latents_run; [apply holds_old; exact Hh | exact Hcx | exact Hcy].
Qed.

(** [forward] computes [forward_fun] of the weights it finds, and what it
    leaves in the store is the store it started from followed by the
    tensors it made. *)
Lemma forward_run self w text speech_tokens text_mask return_loss h :
  holds self h w ->
  exists extra,
    forward self text speech_tokens text_mask return_loss h =
    (forward_fun self w text speech_tokens text_mask return_loss, h ++ extra).
Proof.
  intros Hh.
  destruct (forward_latents_run self w text speech_tokens text_mask h Hh)
    as [extra Hlat].
  exists extra. unfold forward, forward_fun.
  destruct (forward_latents_fun self w text speech_tokens text_mask)
    as [lat|e] eqn:Hl.
  2:{ erewrite bind_error by exact Hlat. reflexivity. }
  erewrite bind_ok by exact Hlat.
  assert (Ht : nth_error (h ++ extra) (temperature self)
               = Some (Scalar0 (W_temperature w))).
  { apply nth_error_old. apply Hh. }
  erewrite bind_ok by (apply load_scalar_at; exact Ht).
  simpl rbind. unfold head_fun.
  destruct return_loss; simpl negb; cbv iota; unfold bind, lift, ret.
  - destruct (contrastive_loss _ _ _ _); reflexivity.
  - destruct (scores _ _ _); reflexivity.
Qed.

(** ** Weights are not written *)

(** C9.  A forward call on a store that holds the model's weights changes no
    object that existed before the call, so the model still holds the same
    weights after it; what it returns is [forward_fun] of the inputs and of
    those weights; and the same call made again on the store the first one
    left returns the same. *)
Theorem forward_leaves_weights :
  forall self w text speech_tokens text_mask return_loss h r h',
    holds self h w ->
    forward self text speech_tokens text_mask return_loss h = (r, h') ->
    (forall l, (l < length h)%nat -> nth_error h' l = nth_error h l) /\
    holds self h' w /\
    r = forward_fun self w text speech_tokens text_mask return_loss /\
    fst (forward self text speech_tokens text_mask return_loss h') = r.
Proof.
  intros self w text speech_tokens text_mask return_loss h r h' Hh Hrun.
  destruct (forward_run self w text speech_tokens text_mask return_loss h Hh)
    as [extra Hfirst].
  rewrite Hfirst in Hrun; inversion Hrun; subst r h'; clear Hrun.
  assert (Hh' := holds_old self h w extra Hh).
  repeat split; try apply Hh'.
  - intros l Hl. apply nth_error_app1. exact Hl.
  - destruct (forward_run self w text speech_tokens text_mask return_loss
                (h ++ extra) Hh') as [extra' Hsecond].
    rewrite Hsecond. reflexivity.
Qed.

End Store.

Lemma forward_leaves_weights_witness :
  holds tiny_model tiny_heap tiny_weights /\
  holds tiny_model
        (snd (forward tiny_model tiny_text tiny_speech None true tiny_heap))
        tiny_weights /\
  fst (forward tiny_model tiny_text tiny_speech None true
         (snd (forward tiny_model tiny_text tiny_speech None true tiny_heap)))
  = fst (forward tiny_model tiny_text tiny_speech None true tiny_heap).
Proof.
  assert (Hh : holds tiny_model tiny_heap tiny_weights)
    by (repeat split; reflexivity).
  split; [exact Hh|].
  destruct (forward tiny_model tiny_text tiny_speech None true tiny_heap)
    as [r h'] eqn:Hrun.
  destruct (forward_leaves_weights tiny_model tiny_weights tiny_text
              tiny_speech None true tiny_heap r h' Hh Hrun)
    as (_ & Hh' & _ & Hagain).
  split; [exact Hh' | exact Hagain].
Defined.
(** ** Construction *)

Section Construction.
Context {A : Type} `{Scalar A}.

Lemma table_shape n d (w : nat -> nat -> A) : shape2 (table n d w) n d.
Proof.
  unfold shape2, table; split.
  - rewrite length_map, length_seq. reflexivity.
  - apply Forall_forall. intros r Hr. apply in_map_iff in Hr.
    destruct Hr as [i [<- _]]. rewrite length_map, length_seq. reflexivity.
Qed.

Lemma init_weights_ok cfg (rnd : Init A) : model_ok cfg (init_weights cfg rnd).
Proof. unfold model_ok, init_weights; simpl; repeat split; apply table_shape. Qed.

(** [__init__] creates seven objects, in the order of its assignments. *)
Lemma init_run cfg rnd h0 :
  exists self,
    init cfg rnd h0 =
    (Ok self,
     h0 ++ [Mat (W_text_emb (init_weights cfg rnd));
            Mat (W_text_pos_emb (init_weights cfg rnd));
            Mat (W_to_text_latent (init_weights cfg rnd));
            Mat (W_speech_emb (init_weights cfg rnd));
            Mat (W_speech_pos_emb (init_weights cfg rnd));
            Mat (W_to_speech_latent (init_weights cfg rnd));
            Scalar0 (W_temperature (init_weights cfg rnd))]) /\
    text_emb self = (length h0 + 0)%nat /\
    text_pos_emb self = (length h0 + 1)%nat /\
    to_text_latent self = (length h0 + 2)%nat /\
    speech_emb self = (length h0 + 3)%nat /\
    speech_pos_emb self = (length h0 + 4)%nat /\
    to_speech_latent self = (length h0 + 5)%nat /\
    temperature self = (length h0 + 6)%nat /\
    text_transformer self =
      Transformer_text rnd (text_seq_len cfg) (dim_text cfg)
        (text_enc_depth cfg) (text_heads cfg) /\
    speech_transformer self =
      Transformer_speech rnd (speech_seq_len cfg) (dim_speech cfg)
        (speech_enc_depth cfg) (speech_heads cfg).
Proof.
  eexists. split.
  - unfold init, nn_Embedding, nn_Linear, nn_Parameter, bind, alloc, ret.
    repeat rewrite <- app_assoc. simpl app. reflexivity.
  - simpl. repeat rewrite length_app. simpl length.
    repeat split; lia.
Qed.

Lemma init_holds cfg rnd h0 self h :
  init cfg rnd h0 = (Ok self, h) -> holds self h (init_weights cfg rnd).
Proof.
  intros Hinit.
  destruct (init_run cfg rnd h0)
    as (self' & Hrun & H0 & H1 & H2 & H3 & H4 & H5 & H6 & _).
  rewrite Hrun in Hinit; inversion Hinit; subst self' h; clear Hinit.
  unfold holds. rewrite H0, H1, H2, H3, H4, H5, H6.
  rewrite !nth_error_new. repeat split; reflexivity.
Qed.

(** C4.  [__init__] gives the speech positional table one row per speech
    token ([num_speech_tokens] rows, whatever [speech_seq_len] is), and the
    text positional table one row per text position ([text_seq_len] rows).
    With the default arguments that is 8192 rows for speech, where the
    speech sequence length is 250, and 200 rows for text. *)
Theorem init_positional_table_sizes :
  forall cfg rnd h0,
    exists self h tp sp,
      init cfg rnd h0 = (Ok self, h) /\
      nth_error h (text_pos_emb self) = Some (Mat tp) /\
      nth_error h (speech_pos_emb self) = Some (Mat sp) /\
      length tp = text_seq_len cfg /\
      length sp = num_speech_tokens cfg /\
      (num_speech_tokens cfg <> speech_seq_len cfg ->
       length sp <> speech_seq_len cfg) /\
      (cfg = default_config ->
       length sp = 8192%nat /\ speech_seq_len cfg = 250%nat /\
       length tp = 200%nat).
Proof.
  intros cfg rnd h0.
  destruct (init_run cfg rnd h0) as (self & Hrun & Hrefs).
  assert (Hh := init_holds cfg rnd h0 self _ Hrun).
  destruct Hh as (_ & Htp & _ & _ & Hsp & _).
  destruct (init_weights_ok cfg rnd) as (_ & [Hltp _] & _ & _ & [Hlsp _] & _).
  eexists self, _, _, _. split; [exact Hrun|].
  split; [exact Htp|]. split; [exact Hsp|].
  split; [exact Hltp|]. split; [exact Hlsp|]. split.
  - intros Hne. rewrite Hlsp. exact Hne.
  - intros ->. rewrite Hlsp, Hltp. repeat split; reflexivity.
Qed.

End Construction.

Lemma init_positional_table_sizes_witness :
  exists self h sp,
    init default_config tiny_init [] = (Ok self, h) /\
    nth_error h (speech_pos_emb self) = Some (Mat sp) /\
    length sp = 8192%nat /\
    length sp <> speech_seq_len default_config.
Proof.
  destruct (init_positional_table_sizes default_config tiny_init [])
    as (self & h & tp & sp & Hrun & _ & Hsp & _ & _ & Hne & Hdef).
  exists self, h, sp. split; [exact Hrun|]. split; [exact Hsp|]. split.
  - apply Hdef. reflexivity.
  - apply Hne. unfold default_config; simpl.
    intros Heq. apply (f_equal (Nat.leb 251)) in Heq. vm_compute in Heq.
    discriminate.
Defined.
(** ** Lookups *)

Section Lookups.
Context {A : Type} `{Scalar A}.

Lemma lookup_in_range s (w : matrix A) i :
  in_range (length w) i = true -> exists row, lookup s w i = Ok row /\ In row w.
Proof.
  unfold in_range, lookup; intros Hi. rewrite Hi.
  apply andb_prop in Hi; destruct Hi as [Hlo Hhi].
  apply Z.leb_le in Hlo; apply Z.ltb_lt in Hhi.
  destruct (nth_error w (Z.to_nat i)) as [row|] eqn:Hrow.
  - exists row; split; [reflexivity|]. eapply nth_error_In; exact Hrow.
  - apply nth_error_None in Hrow. lia.
Qed.

Lemma lookup_out_of_range s (w : matrix A) i :
  in_range (length w) i = false -> lookup s w i = Error (IndexError s).
Proof. unfold in_range, lookup; intros Hi; rewrite Hi; reflexivity. Qed.

Lemma lookup_position s (w : matrix A) k :
  lookup s w (Z.of_nat k) =
  match nth_error w k with
  | Some row => Ok row
  | None => Error (IndexError s)
  end.
Proof.
  unfold lookup. rewrite Nat2Z.id.
  destruct (nth_error w k) as [row|] eqn:Hrow.
  - assert (Hk : (k < length w)%nat) by (apply nth_error_Some; congruence).
    replace ((0 <=? Z.of_nat k)%Z && (Z.of_nat k <? Z.of_nat (length w))%Z)%bool
      with true; [reflexivity|].
    symmetry; apply andb_true_intro; split;
      [apply Z.leb_le | apply Z.ltb_lt]; lia.
  - destruct ((0 <=? Z.of_nat k)%Z && (Z.of_nat k <? Z.of_nat (length w))%Z)%bool;
      reflexivity.
Qed.

(** The positional lookup of [n] rows starting at row [k]. *)
Lemma positions_ok s (w : matrix A) n : forall k,
  (k + n <= length w)%nat ->
  mapM (lookup s w) (map Z.of_nat (seq k n)) = Ok (firstn n (skipn k w)).
Proof.
  induction n as [|n IH]; intros k Hk; simpl; [reflexivity|].
  rewrite lookup_position.
  destruct (nth_error w k) as [row|] eqn:Hrow.
  2:{ apply nth_error_None in Hrow. lia. }
  simpl. rewrite IH by lia. simpl.
  assert (Hsplit : skipn k w = row :: skipn (S k) w).
  { clear IH Hk. revert k Hrow; induction w as [|r w IHw]; intros [|k] Hrow;
      simpl in *; try discriminate.
    - inversion Hrow; reflexivity.
    - apply IHw; exact Hrow. }
  rewrite Hsplit. reflexivity.
Qed.

Lemma positions_error s (w : matrix A) n : forall k,
  (k <= length w < k + n)%nat ->
  mapM (lookup s w) (map Z.of_nat (seq k n)) = Error (IndexError s).
Proof.
  induction n as [|n IH]; intros k Hk; simpl; [lia|].
  rewrite lookup_position.
  destruct (nth_error w k) as [row|] eqn:Hrow; [|reflexivity].
  assert (Hlt : (k < length w)%nat) by (apply nth_error_Some; congruence).
  simpl. rewrite IH by lia. reflexivity.
Qed.

(** A positional lookup succeeds exactly when the sequence is no longer than
    the table. *)
Lemma positional_lookup s (w : matrix A) n :
  embedding_1d s w (arange n) =
  if Nat.leb n (length w) then Ok (firstn n w) else Error (IndexError s).
Proof.
  unfold embedding_1d, arange.
  destruct (Nat.leb n (length w)) eqn:Hn.
  - apply Nat.leb_le in Hn. rewrite positions_ok by lia. reflexivity.
  - apply Nat.leb_gt in Hn. apply positions_error. lia.
Qed.

(** A content lookup succeeds when every id is in the vocabulary, with one
    table row per id. *)
Lemma content_lookup_ok s (w : matrix A) d (ids : list (list Z)) :
  Forall (fun r => length r = d) w ->
  forallb (forallb (in_range (length w))) ids = true ->
  exists t, embedding_2d s w ids = Ok t /\
            length t = length ids /\
            Forall2 (fun rows r => shape2 rows (length r) d) t ids.
Proof.
  intros Hw. induction ids as [|r ids IH]; simpl; intros Hids.
  - exists []; repeat split; constructor.
  - apply andb_prop in Hids; destruct Hids as [Hr Hids].
    destruct (IH Hids) as (t & Ht & Hlen & Hshape).
    assert (Hrow : exists rows, embedding_1d s w r = Ok rows /\
                                shape2 rows (length r) d).
    { clear - Hw Hr. unfold embedding_1d.
      induction r as [|i r IHr]; simpl in *.
      - exists []; repeat split; constructor.
      - apply andb_prop in Hr; destruct Hr as [Hi Hr].
        destruct (lookup_in_range s w i Hi) as (row & Hrow & Hin).
        destruct (IHr Hr) as (rows & Hrows & Hl & Hd).
        rewrite Hrow, Hrows; simpl. exists (row :: rows); repeat split.
        + simpl; f_equal; exact Hl.
        + constructor; [|exact Hd].
          rewrite Forall_forall in Hw. apply Hw; exact Hin. }
    destruct Hrow as (rows & Hrows & Hsh).
    unfold embedding_2d in *; simpl. rewrite Hrows; simpl. rewrite Ht; simpl.
    exists (rows :: t); repeat split.
    + simpl; f_equal; exact Hlen.
    + constructor; assumption.
Qed.

(** A content lookup raises at its own site when some id is outside the
    vocabulary. *)
Lemma content_lookup_error s (w : matrix A) (ids : list (list Z)) :
  forallb (forallb (in_range (length w))) ids = false ->
  embedding_2d s w ids = Error (IndexError s).
Proof.
  intros Hids. unfold embedding_2d.
  assert (Hrow : forall r,
             (exists rows, embedding_1d s w r = Ok rows) \/
             embedding_1d s w r = Error (IndexError s)).
  { intros r. unfold embedding_1d. induction r as [|i r IHr]; simpl.
    - left; eexists; reflexivity.
    - destruct (in_range (length w) i) eqn:Hi.
      + destruct (lookup_in_range s w i Hi) as (row & Hrow & _).
        rewrite Hrow; simpl.
        destruct IHr as [[rows Hrows]|Herr]; rewrite ?Hrows, ?Herr; simpl.
        * left; eexists; reflexivity.
        * right; reflexivity.
      + rewrite (lookup_out_of_range s w i Hi). right; reflexivity. }
  apply mapM_first_error.
  - intros r _. apply Hrow.
  - clear Hrow. induction ids as [|r ids IH]; simpl in Hids; [discriminate|].
    apply andb_false_iff in Hids. destruct Hids as [Hr|Hids].
    + exists r; split; [left; reflexivity|].
      unfold embedding_1d. clear IH.
      induction r as [|i r IHr]; simpl in Hr; [discriminate|].
      apply andb_false_iff in Hr. simpl.
      destruct (in_range (length w) i) eqn:Hi.
      * destruct Hr as [Hr|Hr]; [discriminate|].
        destruct (lookup_in_range s w i Hi) as (row & Hrow & _).
        rewrite Hrow; simpl. rewrite (IHr Hr). reflexivity.
      * rewrite (lookup_out_of_range s w i Hi). reflexivity.
    + destruct (IH Hids) as (r' & Hin & Herr).
      exists r'; split; [right; exact Hin | exact Herr].
Qed.

Lemma mapM_error_inv {X Y} (f : X -> result Y) (xs : list X) e :
  mapM f xs = Error e -> exists x, In x xs /\ f x = Error e.
Proof.
  induction xs as [|x xs IH]; simpl; intros Hm; [discriminate|].
  destruct (f x) as [y|e'] eqn:Hx; simpl in Hm.
  - destruct (mapM f xs) as [ys|e'] eqn:Hxs; simpl in Hm; [discriminate|].
    inversion Hm; subst. destruct (IH eq_refl) as (z & Hin & Hz).
    exists z; split; [right; exact Hin | exact Hz].
  - inversion Hm; subst. exists x; split; [left; reflexivity | exact Hx].
Qed.

Lemma xzip_error_inv {X Y} (f : X -> Y -> result X) xs ys e :
  xzip f xs ys = Error e ->
  e = ShapeError \/ exists x y, f x y = Error e.
Proof.
  unfold xzip. destruct (Nat.eqb (length ys) (length xs)).
  - intros Hm. apply mapM_error_inv in Hm. destruct Hm as ([x y] & _ & Hf).
    right; exists x, y; exact Hf.
  - destruct ys as [|y [|y' ys]]; intros Hm.
    + inversion Hm; left; reflexivity.
    + apply mapM_error_inv in Hm. destruct Hm as (x & _ & Hf).
      right; exists x, y; exact Hf.
    + inversion Hm; left; reflexivity.
Qed.

(** The in-place sum can only fail on shapes. *)
Lemma add_pos_error (x : tensor3 A) (p : matrix A) e :
  add_pos x p = Error e -> e = ShapeError.
Proof.
  unfold add_pos; intros Hm.
  apply mapM_error_inv in Hm. destruct Hm as (rows & _ & Hrows).
  apply xzip_error_inv in Hrows. destruct Hrows as [He|(r & q & Hrq)]; [exact He|].
  apply xzip_error_inv in Hrq. destruct Hrq as [He|(a & c & Hac)]; [exact He|].
  discriminate.
Qed.

Lemma embedding_1d_error s (w : matrix A) ids e :
  embedding_1d s w ids = Error e -> e = IndexError s.
Proof.
  unfold embedding_1d; intros Hm.
  apply mapM_error_inv in Hm. destruct Hm as (i & _ & Hi).
  unfold lookup in Hi.
  destruct ((0 <=? i)%Z && (i <? Z.of_nat (length w))%Z)%bool;
    [destruct (nth_error w (Z.to_nat i))|]; congruence.
Qed.

Lemma embedding_2d_error s (w : matrix A) ids e :
  embedding_2d s w ids = Error e -> e = IndexError s.
Proof.
  unfold embedding_2d; intros Hm.
  apply mapM_error_inv in Hm. destruct Hm as (r & _ & Hr).
  eapply embedding_1d_error; exact Hr.
Qed.

Lemma add_row_ok (r q : list A) d :
  length r = d -> length q = d ->
  exists r', xzip (fun a c => Ok (sadd a c)) r q = Ok r' /\ length r' = d.
Proof.
  intros Hr Hq. rewrite xzip_same_length by congruence.
  rewrite (mapM_pure (fun p : A * A => sadd (fst p) (snd p))).
  eexists; split; [reflexivity|].
  rewrite length_map, length_combine. lia.
Qed.

Lemma mapM_combine_Forall {X Y Z} (f : X -> Y -> result Z)
  (P : X -> Prop) (Q : Y -> Prop) (S : Z -> Prop) (xs : list X) (ys : list Y) :
  (forall x y, P x -> Q y -> exists z, f x y = Ok z /\ S z) ->
  Forall P xs -> Forall Q ys -> length xs = length ys ->
  exists zs, mapM (fun p => f (fst p) (snd p)) (combine xs ys) = Ok zs /\
             Forall S zs /\ length zs = length xs.
Proof.
  intros Hf HP; revert ys; induction HP as [|x xs Hx _ IH];
    intros [|y ys] HQ Hlen; simpl in *; try discriminate.
  - exists []; repeat split; constructor.
  - inversion HQ; subst.
    destruct (Hf x y) as (z & Hz & HS); try assumption.
    destruct (IH ys) as (zs & Hzs & HSs & Hl); try assumption; [lia|].
    rewrite Hz, Hzs; simpl. exists (z :: zs); repeat split.
    + constructor; assumption.
    + simpl; f_equal; exact Hl.
Qed.

(** On a [(b, L, d)] tensor and an [(L, d)] matrix the in-place sum is
    defined and keeps the shape. *)
Lemma add_pos_ok (x : tensor3 A) (p : matrix A) b L d :
  shape3 x b L d -> shape2 p L d ->
  exists y, add_pos x p = Ok y /\ shape3 y b L d.
Proof.
  intros [Hb Hx] [HpL Hpd]. unfold add_pos.
  destruct (@mapM_Forall _ _
              (fun rows => xzip (fun r q => xzip (fun a c => Ok (sadd a c)) r q)
                                rows p)
              (fun rows => shape2 rows L d)
              (fun rows => shape2 rows L d) x) as (y & Hy & Hsh & Hlen).
  - intros rows [HL Hd]. rewrite xzip_same_length by congruence.
    destruct (mapM_combine_Forall
                (fun r q => xzip (fun a c => Ok (sadd a c)) r q)
                (fun r => length r = d) (fun q => length q = d)
                (fun r => length r = d) rows p) as (rows' & Hr' & Hd' & Hl');
      try assumption; try congruence.
    + intros r q Hr Hq. apply add_row_ok; assumption.
    + exists rows'; split; [exact Hr'|]. split; [congruence | exact Hd'].
  - exact Hx.
  - exists y; split; [exact Hy|]. split; [congruence | exact Hsh].
Qed.

(** ** One modality of the embedding stage, by cases *)

Section EmbedOne.
Variables (s s' : site) (w p : matrix A) (N M d : nat).
Hypothesis (Hw : shape2 w N d) (Hp : shape2 p M d).

Lemma embed_one_bad_id ids n :
  forallb (forallb (in_range N)) ids = false ->
  embed_one_fun s s' w p ids n = Error (IndexError s).
Proof.
  intros Hids. unfold embed_one_fun.
  destruct Hw as [HN _]. rewrite <- HN in Hids.
  rewrite (content_lookup_error s w ids Hids). reflexivity.
Qed.

Lemma embed_one_too_long ids n :
  forallb (forallb (in_range N)) ids = true ->
  (M < n)%nat ->
  embed_one_fun s s' w p ids n = Error (IndexError s').
Proof.
  intros Hids Hn. unfold embed_one_fun.
  destruct Hw as [HN Hd]. rewrite <- HN in Hids.
  destruct (content_lookup_ok s w d ids Hd Hids) as (t & Ht & _).
  rewrite Ht; simpl. rewrite positional_lookup.
  destruct Hp as [HM _].
  replace (Nat.leb n (length p)) with false; [reflexivity|].
  symmetry; apply Nat.leb_gt; lia.
Qed.

Lemma firstn_shape n :
  (n <= M)%nat -> shape2 (firstn n p) n d.
Proof.
  intros Hn. destruct Hp as [HM Hd]. split.
  - rewrite length_firstn. lia.
  - apply Forall_forall. intros r Hr. rewrite Forall_forall in Hd.
    apply Hd. rewrite <- (firstn_skipn n p). apply in_or_app; left; exact Hr.
Qed.

Lemma embed_one_ok ids n :
  Forall (fun r => length r = n) ids ->
  forallb (forallb (in_range N)) ids = true ->
  (n <= M)%nat ->
  exists x, embed_one_fun s s' w p ids n = Ok x /\ shape3 x (length ids) n d.
Proof.
  intros Hwf Hids Hn. unfold embed_one_fun.
  destruct Hw as [HN Hd]. rewrite <- HN in Hids.
  destruct (content_lookup_ok s w d ids Hd Hids) as (t & Ht & Hlen & Hsh).
  rewrite Ht; simpl. rewrite positional_lookup.
  destruct Hp as [HM HPd].
  replace (Nat.leb n (length p)) with true
    by (symmetry; apply Nat.leb_le; lia).
  simpl. apply add_pos_ok; [|apply firstn_shape; exact Hn].
  split; [exact Hlen|].
  clear - Hsh Hwf. induction Hsh as [|rows r t ids Hrows _ IH]; [constructor|].
  inversion Hwf; subst. constructor; [|apply IH; assumption].
  exact Hrows.
Qed.

(** Whatever the ids and the length, this modality never raises at another
    lookup than its own two. *)
Lemma embed_one_errors ids n e :
  embed_one_fun s s' w p ids n = Error e ->
  e = IndexError s \/ e = IndexError s' \/ e = ShapeError.
Proof.
  unfold embed_one_fun; intros He.
  destruct (embedding_2d s w ids) as [te|e1] eqn:Hte; simpl in He.
  2:{ inversion He; subst. left. eapply embedding_2d_error; exact Hte. }
  destruct (embedding_1d s' p (arange n)) as [tp|e1] eqn:Htp; simpl in He.
  2:{ inversion He; subst. right; left. eapply embedding_1d_error; exact Htp. }
  right; right. eapply add_pos_error; exact He.
Qed.

(** When the sequence fits the positional table, the positional lookup is not
    where it raises. *)
Lemma embed_one_errors_fits ids n e :
  (n <= M)%nat ->
  embed_one_fun s s' w p ids n = Error e ->
  e = IndexError s \/ e = ShapeError.
Proof.
  unfold embed_one_fun; intros Hn He.
  destruct (embedding_2d s w ids) as [te|e1] eqn:Hte; simpl in He.
  2:{ inversion He; subst. left. eapply embedding_2d_error; exact Hte. }
  rewrite positional_lookup in He. destruct Hp as [HM _].
  replace (Nat.leb n (length p)) with true in He
    by (symmetry; apply Nat.leb_le; lia).
  simpl in He. right. eapply add_pos_error; exact He.
Qed.

End EmbedOne.

(** ** Out-of-range ids *)

(** C8, as amended.  On a model with the shapes [__init__] gives, a batch
    with a token id outside its vocabulary makes [forward] end with an
    out-of-range index error, whatever the encoders are: at the text content
    lookup when a text id is out of range; otherwise at the text positional
    lookup when the text is longer than [text_seq_len]; otherwise at the
    speech content lookup. *)
Theorem out_of_range_id_stops_forward :
  forall cfg self w h text speech_tokens text_mask return_loss,
    holds self h w ->
    model_ok cfg w ->
    wf_ids text ->
    ids_in_range (num_text_tokens cfg) text = false \/
    ids_in_range (num_speech_tokens cfg) speech_tokens = false ->
    fst (forward self text speech_tokens text_mask return_loss h)
    = Error (IndexError (first_fault cfg text)).
Proof.
  intros cfg self w h text speech_tokens text_mask return_loss
         Hh Hok Hwf Hbad.
  destruct (forward_run self w text speech_tokens text_mask return_loss h Hh)
    as [extra Hrun].
  rewrite Hrun; simpl fst; clear Hrun.
  destruct Hok as (Hte & Htp & _ & Hse & Hsp & _).
  unfold forward_fun, forward_latents_fun, first_fault, ids_in_range in *.
  destruct (forallb (forallb (in_range (num_text_tokens cfg))) (data text))
    eqn:Htext; simpl negb; cbv iota.
  - destruct Hbad as [Hbad|Hbad]; [discriminate|].
    destruct (Nat.ltb (text_seq_len cfg) (size1 text)) eqn:Hlen.
    + apply Nat.ltb_lt in Hlen. unfold embed_text_fun.
      rewrite (embed_one_too_long TextEmb TextPosEmb _ _ _ _ _ Hte Htp
                 (data text) (size1 text) Htext Hlen).
      reflexivity.
    + apply Nat.ltb_ge in Hlen. unfold embed_text_fun.
      destruct (embed_one_ok TextEmb TextPosEmb _ _ _ _ _ Hte Htp
                  (data text) (size1 text) Hwf Htext Hlen) as (x & Hx & _).
      rewrite Hx; simpl. unfold embed_speech_fun.
      rewrite (embed_one_bad_id SpeechEmb SpeechPosEmb _ _ _ _ Hse
                 (data speech_tokens) (size1 speech_tokens) Hbad).
      reflexivity.
  - unfold embed_text_fun.
    rewrite (embed_one_bad_id TextEmb TextPosEmb _ _ _ _ Hte
               (data text) (size1 text) Htext).
    reflexivity.
Qed.

End Lookups.

Lemma tiny_holds : holds tiny_model tiny_heap tiny_weights.
Proof. repeat split; reflexivity. Qed.

Lemma tiny_model_ok : model_ok tiny_config tiny_weights.
Proof. repeat split; repeat constructor. Qed.

Lemma out_of_range_id_stops_forward_witness :
  ids_in_range (num_speech_tokens tiny_config) bad_speech = false /\
  fst (forward tiny_model tiny_text bad_speech None false tiny_heap)
  = Error (IndexError SpeechEmb).
Proof.
  split; [reflexivity|].
  apply (out_of_range_id_stops_forward tiny_config tiny_model tiny_weights
           tiny_heap tiny_text bad_speech None false).
  - repeat split; reflexivity.
  - repeat split; repeat constructor.
  - repeat constructor.
  - right; reflexivity.
Defined.

(** C8, as stated, fails: with a speech id outside the speech vocabulary and
    a text of three ids for a text positional table of two rows, [forward]
    stops at the text positional lookup, not at a content lookup. *)
Lemma invalid_id_stops_at_text_positions :
  ids_in_range (num_speech_tokens tiny_config) bad_speech = false /\
  ids_in_range (num_text_tokens tiny_config) long_text = true /\
  fst (forward tiny_model long_text bad_speech None false tiny_heap)
  = Error (IndexError TextPosEmb) /\
  fst (forward tiny_model long_text bad_speech None false tiny_heap)
  <> Error (IndexError TextEmb) /\
  fst (forward tiny_model long_text bad_speech None false tiny_heap)
  <> Error (IndexError SpeechEmb).
Proof.
  assert (Hrun : fst (forward tiny_model long_text bad_speech None false
                        tiny_heap) = Error (IndexError TextPosEmb))
    by reflexivity.
  rewrite Hrun. repeat split; try reflexivity; discriminate.
Qed.

(** ** Positional bounds *)

Section PositionalBounds.
Context {A : Type} `{Scalar A}.

(** C10.  On the model [__init__] returns, in any later store that still has
    its objects: the text positional lookup of a sequence of length [L]
    raises when [L > text_seq_len], and then [forward] ends there for a text
    whose ids are in the vocabulary; the speech positional lookup returns
    when [L <= num_speech_tokens], also when [L > speech_seq_len], and then
    lines 68 to 72 do not raise at the speech positional lookup. *)
Theorem positional_bounds_differ :
  forall cfg rnd h0 self h,
    init cfg rnd h0 = (Ok self, h) ->
    forall extra L,
      ((text_seq_len cfg < L)%nat ->
       Embedding_forward_1d TextPosEmb (text_pos_emb self) (arange L)
         (h ++ extra)
       = (Error (IndexError TextPosEmb), h ++ extra)) /\
      ((text_seq_len cfg < L)%nat ->
       forall text speech_tokens text_mask return_loss,
         size1 text = L ->
         ids_in_range (num_text_tokens cfg) text = true ->
         fst (forward self text speech_tokens text_mask return_loss
                (h ++ extra))
         = Error (IndexError TextPosEmb)) /\
      ((L <= num_speech_tokens cfg)%nat ->
       exists rows,
         Embedding_forward_1d SpeechPosEmb (speech_pos_emb self) (arange L)
           (h ++ extra)
         = (Ok (length (h ++ extra)), (h ++ extra) ++ [Mat rows]) /\
         length rows = L) /\
      ((speech_seq_len cfg < L <= num_speech_tokens cfg)%nat ->
       forall text speech_tokens,
         size1 speech_tokens = L ->
         fst (embed self text speech_tokens (h ++ extra))
         <> Error (IndexError SpeechPosEmb)).
Proof.
  intros cfg rnd h0 self h Hinit extra L.
  assert (Hh : holds self (h ++ extra) (init_weights cfg rnd))
    by (apply holds_old; eapply init_holds; exact Hinit).
  assert (Hok := init_weights_ok cfg rnd).
  destruct Hok as (Hte & Htp & _ & Hse & Hsp & _).
  assert (Hh0 := Hh). destruct Hh0 as (_ & Hrtp & _ & _ & Hrsp & _).
  split; [|split; [|split]].
  - intros HL. rewrite (Embedding_forward_1d_run _ _ _ _ _ Hrtp).
    rewrite positional_lookup. destruct Htp as [Hrows _].
    replace (Nat.leb L (length (W_text_pos_emb (init_weights cfg rnd))))
      with false by (symmetry; apply Nat.leb_gt; lia).
    reflexivity.
  - intros HL text speech_tokens text_mask return_loss Hsize Hids.
    destruct (forward_run self _ text speech_tokens text_mask return_loss _ Hh)
      as [extra' Hrun].
    rewrite Hrun; simpl fst.
    unfold forward_fun, forward_latents_fun, embed_text_fun.
    rewrite (embed_one_too_long TextEmb TextPosEmb _ _ _ _ _ Hte Htp
               (data text) (size1 text) Hids) by lia.
    reflexivity.
  - intros HL. rewrite (Embedding_forward_1d_run _ _ _ _ _ Hrsp).
    rewrite positional_lookup. destruct Hsp as [Hrows _].
    replace (Nat.leb L (length (W_speech_pos_emb (init_weights cfg rnd))))
      with true by (symmetry; apply Nat.leb_le; lia).
    eexists; split; [reflexivity|].
    rewrite length_firstn. lia.
  - intros [_ HL] text speech_tokens Hsize.
    destruct (embed_run self _ text speech_tokens _ Hh)
      as [extra' (Herr1 & Herr2 & Hgood)].
    destruct (embed_text_fun (init_weights cfg rnd) text) as [x|e] eqn:Hx.
    + destruct (embed_speech_fun (init_weights cfg rnd) speech_tokens)
        as [y|e] eqn:Hy.
      * destruct (Hgood x y eq_refl eq_refl) as (rx & ry & Hrun & _).
        rewrite Hrun. discriminate.
      * rewrite (Herr2 x e eq_refl eq_refl); simpl fst.
        unfold embed_speech_fun in Hy.
        apply (embed_one_errors_fits SpeechEmb SpeechPosEmb _ _ _ _ Hsp) in Hy;
          [|lia].
        destruct Hy as [-> | ->]; discriminate.
    + rewrite (Herr1 e eq_refl); simpl fst.
      unfold embed_text_fun in Hx.
      apply embed_one_errors in Hx.
      destruct Hx as [-> | [-> | ->]]; discriminate.
Qed.

End PositionalBounds.

Lemma positional_bounds_differ_witness :
  init tiny_config tiny_init [] = (Ok tiny_model, tiny_heap) /\
  (speech_seq_len tiny_config < 2 <= num_speech_tokens tiny_config)%nat /\
  (text_seq_len tiny_config < 3)%nat /\
  fst (forward tiny_model long_text tiny_speech None false tiny_heap)
  = Error (IndexError TextPosEmb) /\
  fst (embed tiny_model tiny_text
         {| size1 := 2; data := [[0; 1]]%Z |} tiny_heap)
  <> Error (IndexError SpeechPosEmb).
Proof.
  assert (Hinit : init tiny_config tiny_init [] = (Ok tiny_model, tiny_heap))
    by reflexivity.
  split; [exact Hinit|].
  split; [simpl; lia|]. split; [simpl; lia|]. split.
  - destruct (positional_bounds_differ tiny_config tiny_init [] tiny_model
                tiny_heap Hinit [] 3%nat) as (_ & Hfwd & _).
    rewrite app_nil_r in Hfwd.
    apply Hfwd; [simpl; lia | reflexivity | reflexivity].
  - destruct (positional_bounds_differ tiny_config tiny_init [] tiny_model
                tiny_heap Hinit [] 2%nat) as (_ & _ & _ & Hemb).
    rewrite app_nil_r in Hemb.
    apply Hemb; [simpl; lia | reflexivity].
Defined.
(** ** Shapes through pooling and projection *)

Section Shapes.
Context {A : Type} `{Scalar A}.

Lemma fold_vadd_length (rows : list (list A)) : forall (acc : list A) d,
  length acc = d -> Forall (fun r => length r = d) rows ->
  length (fold_left vadd rows acc) = d.
Proof.
  induction rows as [|r rows IH]; intros acc d Hacc Hrows; simpl; [exact Hacc|].
  inversion Hrows; subst. apply IH; [|assumption].
  unfold vadd, zip_with. rewrite length_map, length_combine. lia.
Qed.

Lemma width_of_shape {X} (rows : list (list X)) L d :
  (1 <= L)%nat -> shape2 rows L d -> width rows = d.
Proof.
  intros HL [Hlen Hd]. destruct rows as [|r rows]; simpl in *; [lia|].
  inversion Hd; subst. reflexivity.
Qed.

(** The plain mean of a [(b, L, d)] tensor is a [(b, d)] matrix. *)
Lemma mean_dim1_shape (t : tensor3 A) b L d :
  (1 <= L)%nat -> shape3 t b L d -> shape2 (mean_dim1 t) b d.
Proof.
  intros HL [Hb Ht]. unfold mean_dim1. split; [rewrite length_map; exact Hb|].
  apply Forall_forall. intros v Hv. apply in_map_iff in Hv.
  destruct Hv as (rows & <- & Hin). rewrite Forall_forall in Ht.
  assert (Hrows := Ht rows Hin). rewrite length_map.
  apply fold_vadd_length; [|apply Hrows].
  rewrite repeat_length. eapply width_of_shape; eassumption.
Qed.

Lemma fill_rows_shape (rows : list (list A)) (mrow : list bool) L d :
  shape2 rows L d -> length mrow = L -> shape2 (fill_rows rows mrow) L d.
Proof.
  intros [Hlen Hd] Hm. unfold fill_rows, zip_with. split.
  - rewrite length_map, length_combine. lia.
  - clear Hlen Hm. revert mrow; induction Hd as [|r rows Hr _ IH];
      intros [|m mrow]; simpl; try constructor.
    + destruct m; simpl; [exact Hr | rewrite length_map; exact Hr].
    + apply IH.
Qed.

(** The masked mean of a [(b, L, d)] tensor under a [(b, L)] mask is defined
    and is a [(b, d)] matrix. *)
Lemma masked_mean_shape (t : tensor3 A) (mask : list (list bool)) b L d :
  (1 <= L)%nat -> shape3 t b L d -> shape2 mask b L ->
  exists m, masked_mean t mask 1 = Ok m /\ shape2 m b d.
Proof.
  intros HL [Hb Ht] [Hmb HmL].
  assert (Hal : Forall2 (fun rows mrow => length mrow = length rows) t mask).
  { clear HL. revert b mask Hb Hmb HmL. induction Ht as [|rows t Hrows _ IH];
      intros b [|mrow mask] Hb Hmb HmL; simpl in *; try (subst; discriminate);
      constructor.
    - inversion HmL; subst. destruct Hrows as [Hl _]. congruence.
    - inversion HmL; subst. eapply IH; [reflexivity | | assumption].
      simpl in Hmb. lia. }
  exists (zip_with pool_rows t mask). split; [apply masked_mean_aligned; exact Hal|].
  split.
  - rewrite length_zip_with; [exact Hb | eapply Forall2_length; exact Hal].
  - clear Hb Hmb. unfold zip_with.
    induction Hal as [|rows mrow t mask Hlen _ IH]; simpl; [constructor|].
    inversion Ht; subst. inversion HmL; subst.
    constructor; [|apply IH; assumption].
    unfold pool_rows. rewrite length_map.
    assert (Hsh : shape2 (fill_rows rows mrow) (length mrow) d)
      by (apply fill_rows_shape; [|reflexivity]; assumption).
    apply fold_vadd_length; [|apply Hsh].
    rewrite repeat_length. eapply width_of_shape; eassumption.
Qed.

(** A projection of a [(b, in)] matrix by an [(out, in)] weight is defined and
    is a [(b, out)] matrix. *)
Lemma linear_shape (W X : matrix A) b n_in n_out :
  shape2 W n_out n_in -> shape2 X b n_in ->
  exists Y, linear W X = Ok Y /\ shape2 Y b n_out.
Proof.
  intros [HWl HWd] [HXl HXd]. unfold linear.
  destruct (@mapM_Forall _ _
              (fun x => mapM (fun w0 =>
                                if Nat.eqb (length x) (length w0)
                                then Ok (dot x w0) else Error ShapeError) W)
              (fun x => length x = n_in)
              (fun y => length y = n_out) X) as (Y & HY & HYd & HYl).
  - intros x Hx.
    rewrite (mapM_ext_in _ (fun w0 => Ok (dot x w0))).
    + rewrite mapM_pure. eexists; split; [reflexivity|].
      rewrite length_map. exact HWl.
    + intros w0 Hw0. rewrite Forall_forall in HWd.
      rewrite Hx, (HWd w0 Hw0), Nat.eqb_refl. reflexivity.
  - exact HXd.
  - exists Y; split; [exact HY|]. split; [congruence | exact HYd].
Qed.

Lemma normalize_shape (X : matrix A) b d :
  shape2 X b d -> shape2 (normalize X) b d.
Proof.
  intros [Hl Hd]. unfold normalize. split; [rewrite length_map; exact Hl|].
  apply Forall_forall. intros v Hv. apply in_map_iff in Hv.
  destruct Hv as (u & <- & Hin). unfold normalize_row. rewrite length_map.
  rewrite Forall_forall in Hd. apply Hd; exact Hin.
Qed.

(** On a well-shaped model with encoders that keep shapes, a fitting batch
    goes through lines 68 to 85: both batches of projections are
    [(b, dim_latent)] matrices. *)
Lemma projections_ok cfg (self : VoiceCLIP A) w text speech_tokens text_mask :
  model_ok cfg w ->
  encoder_ok (text_transformer self) (dim_text cfg) ->
  encoder_ok (speech_transformer self) (dim_speech cfg) ->
  input_fits cfg text speech_tokens text_mask ->
  exists pt ps,
    projections_fun self w text speech_tokens text_mask = Ok (pt, ps) /\
    shape2 pt (size0 text) (dim_latent cfg) /\
    shape2 ps (size0 text) (dim_latent cfg).
Proof.
  intros (Hte & Htp & Htl & Hse & Hsp & Hsl) Henc_t Henc_s
         (Hwt & Hws & Hit & His & [HLt1 HLt2] & [HLs1 HLs2] & Hb & Hmf).
  unfold projections_fun, embed_text_fun, embed_speech_fun.
  destruct (embed_one_ok TextEmb TextPosEmb _ _ _ _ _ Hte Htp
              (data text) (size1 text) Hwt Hit HLt2) as (x & Hx & Hxs).
  destruct (embed_one_ok SpeechEmb SpeechPosEmb _ _ _ _ _ Hse Hsp
              (data speech_tokens) (size1 speech_tokens) Hws His HLs2)
    as (y & Hy & Hys).
  rewrite Hx, Hy; simpl rbind.
  fold (size0 text) in Hxs. fold (size0 speech_tokens) in Hys.
  rewrite Hb in Hys.
  destruct (Henc_t x text_mask _ _ Hxs Hmf) as (enc_text & Het & Hets).
  destruct (Henc_s y None _ _ Hys I) as (enc_speech & Hes & Hess).
  rewrite Het, Hes; simpl rbind.
  assert (Hpool : exists pooled,
             pool enc_text text_mask = Ok pooled /\
             shape2 pooled (size0 text) (dim_text cfg)).
  { destruct text_mask as [mask|]; simpl.
    - exact (masked_mean_shape enc_text mask _ _ _ HLt1 Hets Hmf).
    - eexists; split; [reflexivity|].
      exact (mean_dim1_shape enc_text _ _ _ HLt1 Hets). }
  destruct Hpool as (pooled & Hpool & Hps). rewrite Hpool; simpl rbind.
  destruct (linear_shape _ _ _ _ _ Htl Hps) as (pt & Hpt & Hpts).
  assert (Hms := mean_dim1_shape enc_speech _ _ _ HLs1 Hess).
  destruct (linear_shape _ _ _ _ _ Hsl Hms) as (ps & Hps' & Hpss).
  rewrite Hpt; simpl rbind. rewrite Hps'; simpl rbind.
  exists pt, ps. split; [reflexivity|]. split; [exact Hpts | exact Hpss].
Qed.

(** Lines 68 to 87 are lines 68 to 85 followed by the normalization. *)
Lemma latents_of_projections (self : VoiceCLIP A) w text speech_tokens
  text_mask pt ps :
  projections_fun self w text speech_tokens text_mask = Ok (pt, ps) ->
  forward_latents_fun self w text speech_tokens text_mask
  = Ok (normalize pt, normalize ps).
Proof.
  unfold forward_latents_fun, latents_fun, projections_fun.
  destruct (embed_text_fun w text) as [x|e]; [|discriminate].
  destruct (embed_speech_fun w speech_tokens) as [y|e]; [|discriminate].
  cbn [rbind].
  destruct (text_transformer self x text_mask) as [enc_text|e]; [|discriminate].
  destruct (speech_transformer self y None) as [enc_speech|e]; [|discriminate].
  cbn [rbind].
  destruct (pool enc_text text_mask) as [pooled|e]; [|discriminate].
  cbn [rbind].
  destruct (linear (W_to_text_latent w) pooled) as [pt'|e]; [|discriminate].
  cbn [rbind].
  destruct (linear (W_to_speech_latent w) (mean_dim1 enc_speech)) as [ps'|e];
    [|discriminate].
  cbn [rbind]. intros Heq; inversion Heq; subst. reflexivity.
Qed.

Lemma forward_latents_ok cfg (self : VoiceCLIP A) w text speech_tokens text_mask :
  model_ok cfg w ->
  encoder_ok (text_transformer self) (dim_text cfg) ->
  encoder_ok (speech_transformer self) (dim_speech cfg) ->
  input_fits cfg text speech_tokens text_mask ->
  exists pt ps,
    forward_latents_fun self w text speech_tokens text_mask
    = Ok (normalize pt, normalize ps) /\
    shape2 pt (size0 text) (dim_latent cfg) /\
    shape2 ps (size0 text) (dim_latent cfg).
Proof.
  intros Hok Het Hes Hfit.
  destruct (projections_ok cfg self w text speech_tokens text_mask
              Hok Het Hes Hfit) as (pt & ps & Hproj & Hpt & Hps).
  exists pt, ps. split; [|split; assumption].
  apply latents_of_projections; exact Hproj.
Qed.

Lemma valid_input_fits cfg text speech_tokens text_mask :
  valid_input cfg text speech_tokens text_mask ->
  input_fits cfg text speech_tokens text_mask.
Proof.
  intros (_ & Hwt & Hws & Hit & His & HLt & HLs & Hb & Hmf & _).
  repeat split; try assumption; try apply HLt; apply HLs.
Qed.

End Shapes.

(** ** The similarity head, for any arithmetic *)

Lemma nth_zip_with {A B C} (f : A -> B -> C) xs ys i (da : A) (db : B) (dc : C) :
  (i < length xs)%nat -> length xs = length ys ->
  nth i (zip_with f xs ys) dc = f (nth i xs da) (nth i ys db).
Proof.
  unfold zip_with. revert ys i; induction xs as [|x xs IH];
    intros [|y ys] [|i] Hi Hlen; simpl in *; try lia; try reflexivity.
  apply IH; lia.
Qed.

Lemma nth_map_in {A B} (f : A -> B) xs i (da : A) (db : B) :
  (i < length xs)%nat -> nth i (map f xs) db = f (nth i xs da).
Proof.
  revert i; induction xs as [|x xs IH]; intros [|i] Hi; simpl in *;
    try lia; try reflexivity.
  apply IH; lia.
Qed.

Lemma map_nth_seq {A} (xs : list A) (d : A) :
  xs = map (fun i => nth i xs d) (seq 0 (length xs)).
Proof.
  induction xs as [|x xs IH]; simpl; [reflexivity|].
  f_equal. rewrite <- seq_shift, map_map. exact IH.
Qed.

Lemma combine_map_seq {A} (f : nat -> A) (l : list nat) :
  combine (map f l) l = map (fun i => (f i, i)) l.
Proof. induction l as [|i l IH]; simpl; [reflexivity|]. rewrite IH; reflexivity. Qed.

Section Head.
Context {A : Type} `{Scalar A}.

Lemma bdot_same_length (x y : list A) :
  length x = length y -> bdot x y = Ok (dot x y).
Proof.
  intros Hlen. unfold bdot. rewrite bzip_same_length by exact Hlen.
  rewrite (mapM_pure (fun p : A * A => smul (fst p) (snd p))). reflexivity.
Qed.

(** The scores of [b] pairs of latents of one width. *)
Lemma scores_value temp (tl sl : matrix A) b d :
  shape2 tl b d -> shape2 sl b d ->
  scores temp tl sl = Ok (scale temp (zip_with dot tl sl)).
Proof.
  intros [Htl Htd] [Hsl Hsd]. unfold scores, einsum_nd_nd_n.
  rewrite bzip_same_length by congruence.
  rewrite (mapM_ext_in _ (fun p => Ok (dot (fst p) (snd p)))).
  - rewrite (mapM_pure (fun p : list A * list A => dot (fst p) (snd p))).
    reflexivity.
  - intros [x y] Hin. simpl. apply bdot_same_length.
    rewrite Forall_forall in Htd, Hsd.
    rewrite (Htd x), (Hsd y); [reflexivity| |].
    + eapply in_combine_r; exact Hin.
    + eapply in_combine_l; exact Hin.
Qed.

(** [forward] leaves the store its first stage leaves. *)
Lemma forward_via_latents (self : VoiceCLIP A) w text speech_tokens text_mask
  return_loss h :
  holds self h w ->
  exists h1,
    forward_latents self text speech_tokens text_mask h
    = (forward_latents_fun self w text speech_tokens text_mask, h1) /\
    forward self text speech_tokens text_mask return_loss h
    = (forward_fun self w text speech_tokens text_mask return_loss, h1).
Proof.
  intros Hh.
  destruct (forward_latents_run self w text speech_tokens text_mask h Hh)
    as [extra Hlat].
  exists (h ++ extra). split; [exact Hlat|].
  unfold forward, forward_fun.
  destruct (forward_latents_fun self w text speech_tokens text_mask)
    as [lat|e] eqn:Hl.
  2:{ erewrite bind_error by exact Hlat. reflexivity. }
  erewrite bind_ok by exact Hlat.
  assert (Ht : nth_error (h ++ extra) (temperature self)
               = Some (Scalar0 (W_temperature w))).
  { apply nth_error_old. apply Hh. }
  erewrite bind_ok by (apply load_scalar_at; exact Ht).
  simpl rbind. unfold head_fun.
  destruct return_loss; simpl negb; cbv iota; unfold bind, lift, ret.
  - destruct (contrastive_loss _ _ _ _); reflexivity.
  - destruct (scores _ _ _); reflexivity.
Qed.

Lemma einsum_matrix_value (tl sl : matrix A) b b' d :
  shape2 tl b d -> shape2 sl b' d ->
  einsum_id_jd_ij tl sl = Ok (map (fun x => map (fun y => dot x y) sl) tl).
Proof.
  intros [_ Htd] [_ Hsd]. unfold einsum_id_jd_ij.
  rewrite (mapM_ext_in _ (fun x => Ok (map (fun y => dot x y) sl))).
  - apply mapM_pure.
  - intros x Hx.
    rewrite (mapM_ext_in _ (fun y => Ok (dot x y))); [apply mapM_pure|].
    intros y Hy. apply bdot_same_length.
    rewrite Forall_forall in Htd, Hsd. rewrite (Htd x Hx), (Hsd y Hy).
    reflexivity.
Qed.

(** The scaled similarity matrix, entry by entry. *)
Lemma similarity_grid temp (tl sl : matrix A) b d :
  shape2 tl b d -> shape2 sl b d ->
  map (scale temp) (map (fun x => map (fun y => dot x y) sl) tl)
  = grid b (spec_similarity temp tl sl).
Proof.
  intros [Htl _] [Hsl _]. unfold grid, spec_similarity, scale.
  rewrite map_map.
  rewrite (map_nth_seq tl []) at 1. rewrite map_map, Htl.
  apply map_ext. intros i.
  rewrite map_map.
  rewrite (map_nth_seq sl []) at 1. rewrite map_map, Hsl.
  reflexivity.
Qed.

Lemma nth_map_seq (f : nat -> A) b j :
  (j < b)%nat -> nth j (map f (seq 0 b)) szero = f j.
Proof.
  intros Hj. rewrite (nth_map_in f (seq 0 b) j 0%nat szero)
    by (rewrite length_seq; exact Hj).
  rewrite seq_nth by exact Hj. reflexivity.
Qed.

Lemma width_grid b (f : nat -> nat -> A) : width (grid b f) = b.
Proof.
  unfold width, grid. destruct b as [|b]; [reflexivity|].
  simpl. rewrite length_map, length_seq. reflexivity.
Qed.

Lemma transpose_grid b (f : nat -> nat -> A) :
  transpose (grid b f) = grid b (fun j i => f i j).
Proof.
  unfold transpose. rewrite width_grid. unfold grid.
  apply map_ext_in. intros j Hj. apply in_seq in Hj.
  rewrite map_map. apply map_ext. intros i.
  apply nth_map_seq. lia.
Qed.

(** The negative log-likelihood of row [i] of a grid at class [i]. *)
Lemma nll_grid_row (f : nat -> nat -> A) b i :
  (i < b)%nat ->
  nll (map (f i) (seq 0 b)) i
  = Ok (sneg (nth i (log_softmax (map (f i) (seq 0 b))) szero)).
Proof.
  intros Hi. unfold nll.
  assert (Hlen : (i < length (log_softmax (map (f i) (seq 0 b))))%nat).
  { unfold log_softmax. rewrite !length_map, length_seq. exact Hi. }
  rewrite (nth_error_nth' _ szero Hlen). reflexivity.
Qed.

Lemma cross_entropy_grid b (f : nat -> nat -> A) :
  cross_entropy (grid b f) (seq 0 b) = Ok (spec_class_ce b f).
Proof.
  unfold cross_entropy, grid. rewrite length_map, Nat.eqb_refl.
  rewrite combine_map_seq.
  rewrite (mapM_ext_in _
             (fun p => Ok (sneg (nth (snd p)
                                     (log_softmax (map (f (snd p)) (seq 0 b)))
                                     szero)))).
  - rewrite (mapM_pure
               (fun p : list A * nat =>
                  sneg (nth (snd p) (log_softmax (map (f (snd p)) (seq 0 b)))
                            szero))).
    simpl rbind. rewrite map_map; simpl. rewrite length_map, length_seq.
    reflexivity.
  - intros [row i] Hin. apply in_map_iff in Hin.
    destruct Hin as (k & Hk & Hkin). inversion Hk; subst. simpl.
    apply nll_grid_row. apply in_seq in Hkin. lia.
Qed.

(** Lines 95 to 98 compute the mean of the two directional
    cross-entropies. *)
Lemma contrastive_loss_value temp b d (tl sl : matrix A) :
  shape2 tl b d -> shape2 sl b d ->
  contrastive_loss temp b tl sl = Ok (spec_symmetric_ce temp b tl sl).
Proof.
  intros Htl Hsl. unfold contrastive_loss.
  rewrite (einsum_matrix_value tl sl b b d Htl Hsl); simpl rbind.
  rewrite (similarity_grid temp tl sl b d Htl Hsl).
  rewrite cross_entropy_grid; simpl rbind.
  rewrite transpose_grid, cross_entropy_grid; simpl rbind.
  reflexivity.
Qed.

(** What the latents of a successful first stage are. *)
Lemma forward_latents_fun_inv (self : VoiceCLIP A) w text speech_tokens
  text_mask tl sl :
  forward_latents_fun self w text speech_tokens text_mask = Ok (tl, sl) ->
  exists pt ps,
    projections_fun self w text speech_tokens text_mask = Ok (pt, ps) /\
    tl = normalize pt /\ sl = normalize ps.
Proof.
  unfold forward_latents_fun, latents_fun, projections_fun.
  destruct (embed_text_fun w text) as [x|e]; [|discriminate].
  destruct (embed_speech_fun w speech_tokens) as [y|e]; [|discriminate].
  cbn [rbind].
  destruct (text_transformer self x text_mask) as [enc_text|e]; [|discriminate].
  destruct (speech_transformer self y None) as [enc_speech|e]; [|discriminate].
  cbn [rbind].
  destruct (pool enc_text text_mask) as [pooled|e]; [|discriminate].
  cbn [rbind].
  destruct (linear (W_to_text_latent w) pooled) as [pt|e]; [|discriminate].
  cbn [rbind].
  destruct (linear (W_to_speech_latent w) (mean_dim1 enc_speech)) as [ps|e];
    [|discriminate].
  cbn [rbind]. intros Heq; inversion Heq; subst.
  exists pt, ps. repeat split; reflexivity.
Qed.

(** [F.normalize] is the normalization of the specification, row by row. *)
Lemma normalize_is_spec (X : matrix A) : normalize X = map spec_l2_normalized X.
Proof. reflexivity. Qed.

(** A fitting batch on a well-shaped model: the first stage, its projections
    and the shapes, in one statement. *)
Lemma first_stage cfg (self : VoiceCLIP A) w h text speech_tokens text_mask :
  holds self h w ->
  model_ok cfg w ->
  encoder_ok (text_transformer self) (dim_text cfg) ->
  encoder_ok (speech_transformer self) (dim_speech cfg) ->
  input_fits cfg text speech_tokens text_mask ->
  exists pt ps h1,
    projections_fun self w text speech_tokens text_mask = Ok (pt, ps) /\
    shape2 pt (size0 text) (dim_latent cfg) /\
    shape2 ps (size0 text) (dim_latent cfg) /\
    forward_latents self text speech_tokens text_mask h
    = (Ok (normalize pt, normalize ps), h1) /\
    forall return_loss,
      forward self text speech_tokens text_mask return_loss h
      = (head_fun (sexp (W_temperature w)) (size0 text)
                  (normalize pt, normalize ps) return_loss, h1).
Proof.
  intros Hh Hok Het Hes Hfit.
  destruct (projections_ok cfg self w text speech_tokens text_mask
              Hok Het Hes Hfit) as (pt & ps & Hproj' & Hpt & Hps).
  assert (Hfun := latents_of_projections self w text speech_tokens text_mask
                    pt ps Hproj').
  destruct (forward_latents_run self w text speech_tokens text_mask h Hh)
    as [extra Hlat].
  exists pt, ps, (h ++ extra).
  split; [exact Hproj'|]. split; [exact Hpt|]. split; [exact Hps|].
  split; [rewrite Hlat, Hfun; reflexivity|].
  intros return_loss.
  destruct (forward_via_latents self w text speech_tokens text_mask
              return_loss h Hh) as (h1 & Hlat1 & Hfwd).
  rewrite Hlat in Hlat1. inversion Hlat1 as [Hh1]. rewrite Hfwd, <- Hh1.
  unfold forward_fun. rewrite Hfun. reflexivity.
Qed.

(** ** Score mode *)

(** C2.  On a well-shaped model whose encoders keep the shape of the tensors
    of their own width, for a fitting batch of [b] pairs, in the arithmetic
    the model computes in (any [Scalar]: binary32, or the reals):
    the latents are the projections normalized row by row, each row divided
    by the larger of its Euclidean norm and [eps]; [forward] with
    [return_loss = false] returns a vector of length [b]; its entry [i] is
    the dot product of the normalized text latent [i] and the normalized
    speech latent [i], times [exp(temperature)]. *)
Theorem score_mode_scores_pairs :
  forall cfg (self : VoiceCLIP A) w h text speech_tokens text_mask,
    holds self h w ->
    model_ok cfg w ->
    encoder_ok (text_transformer self) (dim_text cfg) ->
    encoder_ok (speech_transformer self) (dim_speech cfg) ->
    input_fits cfg text speech_tokens text_mask ->
    exists pt ps h1 sim,
      projections_fun self w text speech_tokens text_mask = Ok (pt, ps) /\
      forward_latents self text speech_tokens text_mask h
      = (Ok (map spec_l2_normalized pt, map spec_l2_normalized ps), h1) /\
      forward self text speech_tokens text_mask false h = (Ok (Scores sim), h1) /\
      length sim = size0 text /\
      forall i, (i < size0 text)%nat ->
        nth i sim szero =
        smul (dot (spec_l2_normalized (nth i pt []))
                  (spec_l2_normalized (nth i ps [])))
             (sexp (W_temperature w)).
Proof.
  intros cfg self w h text speech_tokens text_mask Hh Hok Het Hes Hfit.
  destruct (first_stage cfg self w h text speech_tokens text_mask
              Hh Hok Het Hes Hfit)
    as (pt & ps & h1 & Hproj & Hpt & Hps & Hlat & Hfwd).
  assert (Hnt := normalize_shape pt _ _ Hpt).
  assert (Hns := normalize_shape ps _ _ Hps).
  exists pt, ps, h1,
         (scale (sexp (W_temperature w))
                (zip_with dot (normalize pt) (normalize ps))).
  split; [exact Hproj|]. split; [exact Hlat|]. split.
  - rewrite Hfwd. unfold head_fun. cbn [negb fst snd].
    rewrite (scores_value _ _ _ _ _ Hnt Hns). reflexivity.
  - destruct Hnt as [Hlt _]. destruct Hns as [Hls _].
    destruct Hpt as [Hlpt _]. destruct Hps as [Hlps _]. split.
    + unfold scale. rewrite length_map, length_zip_with; congruence.
    + intros i Hi. unfold scale.
      rewrite (nth_map_in (fun a => smul a (sexp (W_temperature w))) _ i
                 szero szero)
        by (rewrite length_zip_with; congruence).
      rewrite (nth_zip_with dot _ _ i [] [] szero); [| lia | congruence].
      rewrite !normalize_is_spec.
      rewrite (nth_map_in spec_l2_normalized pt i [] []) by lia.
      rewrite (nth_map_in spec_l2_normalized ps i [] []) by lia.
      reflexivity.
Qed.

Lemma id_encoder_ok d : encoder_ok (id_encoder (A := A)) d.
Proof. intros x mask b L Hx _. exists x; split; [reflexivity | exact Hx]. Qed.

(** An encoder that accepts its own width only meets the contract. *)
Lemma strict_encoder_ok d : encoder_ok (strict_encoder (A := A) d) d.
Proof.
  intros x mask b L Hx _. exists x; split; [|exact Hx].
  unfold strict_encoder.
  replace (forallb (forallb (fun vec => Nat.eqb (length vec) d)) x) with true;
    [reflexivity|].
  symmetry. apply forallb_forall. intros rows Hrows.
  apply forallb_forall. intros vec Hvec.
  destruct Hx as [_ Hx]. rewrite Forall_forall in Hx.
  destruct (Hx rows Hrows) as [_ Hd]. rewrite Forall_forall in Hd.
  apply Nat.eqb_eq. apply Hd; exact Hvec.
Qed.

End Head.

Lemma tiny_input_fits : input_fits tiny_config pair_text pair_speech None.
Proof.
  unfold input_fits, wf_ids, mask_fits; simpl.
  repeat split; repeat constructor.
Qed.

Lemma score_mode_scores_pairs_witness :
  exists sim,
    fst (forward tiny_model pair_text pair_speech None false tiny_heap)
    = Ok (Scores sim) /\
    length sim = 2%nat.
Proof.
  destruct (score_mode_scores_pairs tiny_config tiny_model tiny_weights
              tiny_heap pair_text pair_speech None)
    as (pt & ps & h1 & sim & _ & _ & Hfwd & Hlen & _).
  - repeat split; reflexivity.
  - repeat split; repeat constructor.
  - intros x mask b L Hx _. exists x; split; [reflexivity | exact Hx].
  - intros x mask b L Hx _. exists x; split; [reflexivity | exact Hx].
  - unfold input_fits, wf_ids, mask_fits; simpl.
    repeat split; repeat constructor.
  - exists sim. rewrite Hfwd. split; [reflexivity | exact Hlen].
Defined.

(** ** Sums and logarithms on the reals *)

Lemma rsum_acc (xs : list R) : forall a, fold_left Rplus xs a = a + rsum xs.
Proof.
  unfold rsum. induction xs as [|x xs IH]; intros a; simpl; [lra|].
  rewrite IH, (IH (0 + x)). lra.
Qed.

Lemma rsum_cons (x : R) xs : rsum (x :: xs) = x + rsum xs.
Proof. unfold rsum at 1; simpl. rewrite rsum_acc. lra. Qed.

Lemma rsum_nil : rsum (@nil R) = 0.
Proof. reflexivity. Qed.

Lemma rsum_nonneg xs : Forall (fun x => 0 <= x) xs -> 0 <= rsum xs.
Proof.
  induction 1 as [|x xs Hx _ IH]; [rewrite rsum_nil; lra|].
  rewrite rsum_cons. lra.
Qed.

(** A sum of non-negative terms is at least each of its terms. *)
Lemma rsum_ge_term xs x :
  Forall (fun y => 0 <= y) xs -> In x xs -> x <= rsum xs.
Proof.
  induction 1 as [|y xs Hy Hxs IH]; intros Hin; [contradiction|].
  rewrite rsum_cons. destruct Hin as [->|Hin].
  - assert (0 <= rsum xs) by (apply rsum_nonneg; exact Hxs). lra.
  - specialize (IH Hin). lra.
Qed.

Lemma rsum_map_scale {X} (f : X -> R) k (xs : list X) :
  rsum (map (fun a => f a * k) xs) = rsum (map f xs) * k.
Proof.
  induction xs as [|x xs IH]; simpl map.
  - rewrite rsum_nil. lra.
  - rewrite !rsum_cons, IH. lra.
Qed.

Lemma rsum_exp_pos (f : nat -> R) b i :
  (i < b)%nat -> 0 < exp (f i) <= rsum (map (fun j => exp (f j)) (seq 0 b)).
Proof.
  intros Hi. split; [apply exp_pos|].
  apply rsum_ge_term.
  - apply Forall_forall. intros y Hy. apply in_map_iff in Hy.
    destruct Hy as (j & <- & _). left; apply exp_pos.
  - apply in_map_iff. exists i; split; [reflexivity|]. apply in_seq; lia.
Qed.

Lemma rsum_exp_row_pos (x : list R) : x <> [] -> 0 < rsum (map exp x).
Proof.
  destruct x as [|a x]; [congruence|]. intros _. simpl map.
  rewrite rsum_cons.
  assert (Ha := exp_pos a).
  assert (Hx : 0 <= rsum (map exp x)).
  { apply rsum_nonneg. apply Forall_forall. intros y Hy.
    apply in_map_iff in Hy. destruct Hy as (c & <- & _). left; apply exp_pos. }
  lra.
Qed.

Lemma ln_quotient x y : 0 < x -> 0 < y -> ln (x / y) = ln x - ln y.
Proof.
  intros Hx Hy. unfold Rdiv.
  rewrite ln_mult by (try apply Rinv_0_lt_compat; assumption).
  rewrite ln_Rinv by assumption. lra.
Qed.

(** On the reals, subtracting the largest entry first changes nothing:
    [log_softmax] is the entry minus the log of the sum of the
    exponentials. *)
Lemma log_softmax_real (x : list R) :
  x <> [] ->
  log_softmax x = map (fun a => a - ln (rsum (map exp x))) x.
Proof.
  intros Hx. unfold log_softmax. cbv zeta.
  set (m := row_max x).
  assert (Hshift : rsum (map (fun a => sexp (ssub a m)) x)
                   = rsum (map exp x) * exp (- m)).
  { rewrite <- (rsum_map_scale exp). f_equal. apply map_ext. intros a.
    simpl. unfold Rminus. apply exp_plus. }
  rewrite Hshift.
  assert (Hpos := rsum_exp_row_pos x Hx).
  apply map_ext. intros a. simpl.
  rewrite ln_mult by (try apply exp_pos; exact Hpos).
  rewrite ln_exp. lra.
Qed.

(** On the reals the cross-entropy of row [i] of a grid with class [i] is the
    negative log of the softmax probability of class [i]. *)
Lemma class_ce_term_real (f : nat -> nat -> R) b i :
  (i < b)%nat ->
  sneg (nth i (log_softmax (map (f i) (seq 0 b))) szero)
  = - ln (exp (f i i) / rsum (map (fun j => exp (f i j)) (seq 0 b))).
Proof.
  intros Hi.
  assert (Hne : map (f i) (seq 0 b) <> []).
  { destruct b; [lia|]. simpl. discriminate. }
  rewrite (log_softmax_real _ Hne).
  rewrite (map_map (f i) exp). rewrite map_map.
  rewrite (nth_map_seq _ b i Hi). simpl.
  destruct (rsum_exp_pos (f i) b i Hi) as [Hpos Hle].
  rewrite ln_quotient by lra. rewrite ln_exp. reflexivity.
Qed.

Lemma spec_class_ce_real b (f : nat -> nat -> R) :
  spec_class_ce b f = spec_directional_ce b f.
Proof.
  unfold spec_class_ce, spec_directional_ce. simpl.
  f_equal. f_equal. apply map_ext_in. intros i Hi. apply in_seq in Hi.
  apply class_ce_term_real. lia.
Qed.

Lemma spec_symmetric_ce_real temp b (tl sl : matrix R) :
  spec_symmetric_ce temp b tl sl = spec_loss temp b tl sl.
Proof.
  unfold spec_symmetric_ce, spec_loss. cbv zeta.
  rewrite !spec_class_ce_real. reflexivity.
Qed.

Lemma cross_entropy_grid_real b (f : nat -> nat -> R) :
  cross_entropy (grid b f) (seq 0 b) = Ok (spec_directional_ce b f).
Proof. rewrite cross_entropy_grid, spec_class_ce_real. reflexivity. Qed.

(** Lines 95 to 98 compute the loss of the specification. *)
Lemma contrastive_loss_spec temp b d (tl sl : matrix R) :
  shape2 tl b d -> shape2 sl b d ->
  contrastive_loss temp b tl sl = Ok (spec_loss temp b tl sl).
Proof.
  intros Htl Hsl.
  rewrite (contrastive_loss_value temp b d tl sl Htl Hsl).
  rewrite spec_symmetric_ce_real. reflexivity.
Qed.

Lemma spec_directional_ce_nonneg b f : 0 <= spec_directional_ce b f.
Proof.
  unfold spec_directional_ce.
  assert (Hsum : 0 <= rsum (map (fun i =>
                   - ln (exp (f i i) /
                         rsum (map (fun j => exp (f i j)) (seq 0 b))))
                   (seq 0 b))).
  { apply rsum_nonneg. apply Forall_forall. intros y Hy.
    apply in_map_iff in Hy. destruct Hy as (i & <- & Hi).
    apply in_seq in Hi.
    destruct (rsum_exp_pos (f i) b i) as [Hpos Hle]; [lia|].
    set (s := rsum (map (fun j => exp (f i j)) (seq 0 b))) in *.
    assert (Hratio : 0 < exp (f i i) / s <= 1).
    { split.
      - apply Rdiv_lt_0_compat; lra.
      - apply (Rmult_le_reg_r s); [lra|]. unfold Rdiv.
        rewrite Rmult_assoc, Rinv_l by lra. lra. }
    assert (Hln : ln (exp (f i i) / s) <= 0).
    { destruct Hratio as [Hr0 [Hr1|Hr1]].
      - left. rewrite <- ln_1. apply ln_increasing; assumption.
      - rewrite Hr1, ln_1. lra. }
    lra. }
  destruct b as [|b].
  - simpl. unfold Rdiv. rewrite rsum_nil. lra.
  - apply Rle_mult_inv_pos; [exact Hsum|]. apply lt_0_INR. lia.
Qed.

Lemma spec_loss_nonneg temp b tl sl : 0 <= spec_loss temp b tl sl.
Proof.
  unfold spec_loss; cbv zeta.
  assert (H1 := spec_directional_ce_nonneg b (spec_similarity temp tl sl)).
  assert (H2 := spec_directional_ce_nonneg b
                  (fun j i => spec_similarity temp tl sl i j)).
  lra.
Qed.

Lemma spec_directional_ce_single f : spec_directional_ce 1 f = 0.
Proof.
  unfold spec_directional_ce. simpl seq. simpl map.
  rewrite !rsum_cons, !rsum_nil.
  replace (exp (f 0%nat 0%nat) / (exp (f 0%nat 0%nat) + 0)) with 1.
  - rewrite ln_1. simpl INR. lra.
  - assert (Hpos := exp_pos (f 0%nat 0%nat)). field. lra.
Qed.

Lemma spec_loss_single temp tl sl : spec_loss temp 1 tl sl = 0.
Proof.
  unfold spec_loss; cbv zeta. rewrite !spec_directional_ce_single. lra.
Qed.

(** ** NaN and infinity in the loss, on binary32 *)

Lemma f32_add_nan_r (x : float32) : sadd x f32_nan = f32_nan.
Proof. destruct x; reflexivity. Qed.

Lemma f32_sub_nan_r (x : float32) : ssub x f32_nan = f32_nan.
Proof. destruct x; reflexivity. Qed.

(** [x - x] is [+0] for a zero or a finite number, NaN otherwise. *)
Lemma f32_sub_self (x : float32) :
  ssub x x = if f32_finite x then S754_zero false else f32_nan.
Proof.
  destruct x as [s|s| |s m e]; try reflexivity;
    try (destruct s; reflexivity).
  cbn [ssub float32_Scalar f32_finite]. unfold SFsub.
  cbv beta iota zeta. rewrite Z.sub_diag. reflexivity.
Qed.

(** A product with an infinity or NaN is an infinity or NaN. *)
Lemma f32_mul_not_finite (d t : float32) :
  f32_finite t = false -> f32_finite (smul d t) = false.
Proof.
  destruct t as [s|s| |s m e]; try discriminate; intros _;
    destruct d; reflexivity.
Qed.

Lemma f32_fold_nan (xs : list float32) : fold_left sadd xs f32_nan = f32_nan.
Proof. induction xs as [|x xs IH]; cbn [fold_left]; [reflexivity | exact IH]. Qed.

(** A sum with a NaN term is NaN. *)
Lemma f32_rsum_nan (xs : list float32) : In f32_nan xs -> rsum xs = f32_nan.
Proof.
  unfold rsum. generalize (szero : float32).
  induction xs as [|x xs IH]; intros acc Hin; [contradiction|].
  cbn [fold_left]. destruct Hin as [->|Hin].
  - rewrite f32_add_nan_r. apply f32_fold_nan.
  - apply IH; exact Hin.
Qed.

Lemma f32_max_is_one (x y : float32) : f32_max x y = x \/ f32_max x y = y.
Proof.
  unfold f32_max.
  destruct x; destruct y; try (left; reflexivity); try (right; reflexivity);
    destruct (f32_signbit _); auto.
Qed.

(** The largest entry of a row is one of its entries. *)
Lemma f32_row_max_in (x : list float32) : x <> [] -> In (row_max x) x.
Proof.
  destruct x as [|a rest]; [congruence|]. intros _. cbn [row_max].
  assert (Hgen : forall acc, fold_left f32_max rest acc = acc \/
                             In (fold_left f32_max rest acc) rest).
  { induction rest as [|c rest IH]; intros acc; cbn [fold_left];
      [left; reflexivity|].
    destruct (IH (f32_max acc c)) as [Heq|Hin].
    - rewrite Heq. destruct (f32_max_is_one acc c) as [Hm|Hm].
      + left. exact Hm.
      + right. left. symmetry. exact Hm.
    - right. right. exact Hin. }
  change (@smax float32 float32_Scalar) with f32_max.
  destruct (Hgen a) as [Heq|Hin]; [left; symmetry; exact Heq | right; exact Hin].
Qed.

(** A row of infinities and NaN has NaN for log-softmax everywhere: the
    largest entry minus itself is NaN, and so is the sum of the
    exponentials. *)
Lemma f32_log_softmax_not_finite (x : list float32) :
  x <> [] -> Forall (fun a => f32_finite a = false) x ->
  log_softmax x = map (fun _ => f32_nan) x.
Proof.
  intros Hne Hall. unfold log_softmax. cbv zeta.
  set (m := row_max x).
  assert (Hm : In m x) by (apply f32_row_max_in; exact Hne).
  assert (Hmf : f32_finite m = false).
  { rewrite Forall_forall in Hall. apply Hall; exact Hm. }
  assert (Hsum : rsum (map (fun a => sexp (ssub a m)) x) = f32_nan).
  { apply f32_rsum_nan. apply in_map_iff. exists m. split; [|exact Hm].
    rewrite f32_sub_self, Hmf. reflexivity. }
  rewrite Hsum. apply map_ext. intros a.
  change (sln f32_nan) with f32_nan. apply f32_sub_nan_r.
Qed.

(** The log-softmax of a row of one entry. *)
Lemma f32_log_softmax_single (s : float32) :
  log_softmax [s] = [if f32_finite s then S754_zero false else f32_nan].
Proof.
  unfold log_softmax. cbv zeta. cbn [row_max fold_left map].
  rewrite f32_sub_self. destruct (f32_finite s); vm_compute; reflexivity.
Qed.

Lemma f32_class_ce_single (f : nat -> nat -> float32) :
  spec_class_ce 1 f
  = if f32_finite (f 0%nat 0%nat) then S754_zero false else f32_nan.
Proof.
  unfold spec_class_ce. cbn [seq map].
  rewrite f32_log_softmax_single.
  destruct (f32_finite (f 0%nat 0%nat)); vm_compute; reflexivity.
Qed.

(** The loss of one pair on binary32: [+0] when the scaled similarity of the
    pair is a zero or a finite number, NaN when it is an infinity or NaN. *)
Lemma f32_symmetric_ce_single (temp : float32) (tl sl : matrix float32) :
  spec_symmetric_ce temp 1 tl sl
  = if f32_finite (spec_similarity temp tl sl 0 0) then S754_zero false
    else f32_nan.
Proof.
  unfold spec_symmetric_ce. cbv zeta. rewrite !f32_class_ce_single.
  destruct (f32_finite (spec_similarity temp tl sl 0 0)); reflexivity.
Qed.

Lemma f32_class_ce_not_finite (b : nat) (f : nat -> nat -> float32) :
  (1 <= b)%nat ->
  (forall i j, f32_finite (f i j) = false) ->
  spec_class_ce b f = f32_nan.
Proof.
  intros Hb Hf. unfold spec_class_ce.
  assert (Hsum : rsum (map (fun i =>
                   sneg (nth i (log_softmax (map (f i) (seq 0 b))) szero))
                   (seq 0 b)) = f32_nan).
  { apply f32_rsum_nan. apply in_map_iff. exists 0%nat. split.
    - rewrite f32_log_softmax_not_finite.
      + rewrite map_map.
        rewrite (nth_map_in (fun _ => f32_nan) (seq 0 b) 0 0%nat szero)
          by (rewrite length_seq; lia).
        reflexivity.
      + destruct b; [lia|]. simpl. discriminate.
      + apply Forall_forall. intros a Ha. apply in_map_iff in Ha.
        destruct Ha as (j & <- & _). apply Hf.
    - apply in_seq. lia. }
  rewrite Hsum. reflexivity.
Qed.

(** When [exp(temperature)] is an infinity or NaN, so is every scaled
    similarity, and the loss is NaN. *)
Lemma f32_symmetric_ce_not_finite (temp : float32) (b : nat)
  (tl sl : matrix float32) :
  (1 <= b)%nat -> f32_finite temp = false ->
  spec_symmetric_ce temp b tl sl = f32_nan.
Proof.
  intros Hb Ht. unfold spec_symmetric_ce. cbv zeta.
  rewrite (f32_class_ce_not_finite b (spec_similarity temp tl sl) Hb)
    by (intros i j; apply f32_mul_not_finite; exact Ht).
  reflexivity.
Qed.

(** ** Signs through rounding, on binary32 *)


Lemma iter_pos_nat {X : Type} (f : X -> X) (p : positive) (x : X) :
  iter_pos f p x = Nat.iter (Pos.to_nat p) f x.
Proof.
  revert x. induction p as [p IH|p IH|]; intros x; cbn [iter_pos].
  - rewrite !IH, Pos2Nat.inj_xI, <- Nat.iter_add, <- Nat.iter_succ_r.
    f_equal. lia.
  - rewrite !IH, Pos2Nat.inj_xO, <- Nat.iter_add. f_equal. lia.
  - reflexivity.
Qed.

Lemma shr_1_nonneg (mrs : shr_record) :
  (0 <= shr_m mrs)%Z -> (0 <= shr_m (shr_1 mrs))%Z.
Proof.
  destruct mrs as [m r s]. cbn [shr_m]. intros Hm.
  destruct m as [|p|p]; [| |lia]; cbn [shr_1 shr_m]; [lia|].
  destruct p; cbn [shr_m]; lia.
Qed.

Lemma shr_record_of_loc_m (m : Z) (l : location) :
  shr_m (shr_record_of_loc m l) = m.
Proof. destruct l as [|[| |]]; reflexivity. Qed.

Lemma shr_fexp_nonneg (m e : Z) (l : location) :
  (0 <= m)%Z -> (0 <= shr_m (fst (shr_fexp f32_prec f32_emax m e l)))%Z.
Proof.
  intros Hm. unfold shr_fexp, shr.
  destruct (fexp f32_prec f32_emax (Zdigits2 m + e) - e)%Z as [|p|p];
    cbn [fst]; try (rewrite shr_record_of_loc_m; exact Hm).
  rewrite iter_pos_nat. apply Nat.iter_invariant.
  - exact shr_1_nonneg.
  - rewrite shr_record_of_loc_m. exact Hm.
Qed.

Lemma round_nearest_even_ge (m : Z) (l : location) :
  (m <= round_nearest_even m l <= m + 1)%Z.
Proof.
  destruct l as [|[| |]]; cbn [round_nearest_even]; try lia.
  destruct (Z.even m); lia.
Qed.

(** Rounding keeps the sign it is given: the result is a zero, a finite
    number or an infinity of that sign. *)
Lemma binary_round_aux_sign (sx : bool) (mx ex : Z) (lx : location) :
  (0 <= mx)%Z ->
  match binary_round_aux f32_prec f32_emax sx mx ex lx with
  | S754_nan => False
  | S754_zero s | S754_infinity s | S754_finite s _ _ => s = sx
  end.
Proof.
  intros Hm. unfold binary_round_aux.
  pose proof (shr_fexp_nonneg mx ex lx Hm) as H1.
  destruct (shr_fexp f32_prec f32_emax mx ex lx) as [mrs' e'].
  cbn [fst] in H1.
  pose proof (round_nearest_even_ge (shr_m mrs') (loc_of_shr_record mrs')) as H2.
  pose proof (shr_fexp_nonneg
                (round_nearest_even (shr_m mrs') (loc_of_shr_record mrs'))
                e' loc_Exact ltac:(lia)) as H3.
  destruct (shr_fexp f32_prec f32_emax _ e' loc_Exact) as [mrs'' e''].
  cbn [fst] in H3.
  destruct (shr_m mrs'') as [|p|p]; [reflexivity| |lia].
  destruct (e'' <=? f32_emax - f32_prec)%Z; reflexivity.
Qed.

Lemma binary_round_sign (sx : bool) (m : positive) (e : Z) :
  match binary_round f32_prec f32_emax sx m e with
  | S754_nan => False
  | S754_zero s | S754_infinity s | S754_finite s _ _ => s = sx
  end.
Proof.
  unfold binary_round.
  destruct (shl_align m e _) as [mz ez].
  apply binary_round_aux_sign. lia.
Qed.

Lemma binary_normalize_signbit (m e : Z) :
  f32_signbit (binary_normalize f32_prec f32_emax m e false) = (m <? 0)%Z.
Proof.
  destruct m as [|p|p]; cbn [binary_normalize]; [reflexivity| |].
  - pose proof (binary_round_sign false p e) as Hs.
    destruct (binary_round _ _ false p e); cbn [f32_signbit]; tauto.
  - pose proof (binary_round_sign true p e) as Hs.
    destruct (binary_round _ _ true p e); cbn [f32_signbit]; tauto.
Qed.

Lemma binary_normalize_not_nan (m e : Z) :
  binary_normalize f32_prec f32_emax m e false <> S754_nan.
Proof.
  destruct m as [|p|p]; cbn [binary_normalize]; [discriminate| |].
  - pose proof (binary_round_sign false p e) as Hs.
    destruct (binary_round _ _ false p e); try discriminate; tauto.
  - pose proof (binary_round_sign true p e) as Hs.
    destruct (binary_round _ _ true p e); try discriminate; tauto.
Qed.

(** ** Magnitudes through rounding *)

Lemma digits2_pos_size (p : positive) : digits2_pos p = Pos.size p.
Proof. induction p as [p IH|p IH|]; cbn; congruence. Qed.

Lemma digits2_pos_bounds (p : positive) :
  (2 ^ (Zpos (digits2_pos p) - 1) <= Zpos p < 2 ^ Zpos (digits2_pos p))%Z.
Proof.
  induction p as [p IH|p IH|]; cbn [digits2_pos].
  - rewrite Pos2Z.inj_succ.
    replace (Z.succ (Zpos (digits2_pos p)) - 1)%Z
      with (Z.succ (Zpos (digits2_pos p) - 1))%Z by lia.
    rewrite !Z.pow_succ_r by lia. lia.
  - rewrite Pos2Z.inj_succ.
    replace (Z.succ (Zpos (digits2_pos p)) - 1)%Z
      with (Z.succ (Zpos (digits2_pos p) - 1))%Z by lia.
    rewrite !Z.pow_succ_r by lia. lia.
  - cbn. lia.
Qed.

Lemma digits2_pos_mono (p q : positive) :
  (p <= q)%positive -> (Zpos (digits2_pos p) <= Zpos (digits2_pos q))%Z.
Proof.
  intros Hle.
  destruct (Z.le_gt_cases (Zpos (digits2_pos p)) (Zpos (digits2_pos q)))
    as [Hok|Hlt]; [exact Hok|exfalso].
  pose proof (digits2_pos_bounds p) as [Hp _].
  pose proof (digits2_pos_bounds q) as [_ Hq].
  assert (Hpow : (2 ^ Zpos (digits2_pos q) <= 2 ^ (Zpos (digits2_pos p) - 1))%Z)
    by (apply Z.pow_le_mono_r; lia).
  lia.
Qed.

Lemma digits2_pos_shift (p d : positive) :
  Zpos (digits2_pos (Pos.iter xO p d)) = (Zpos (digits2_pos p) + Zpos d)%Z.
Proof.
  apply (Pos.iter_ind _ xO p
           (fun d q => Zpos (digits2_pos q) = (Zpos (digits2_pos p) + Zpos d)%Z)).
  - cbn [digits2_pos]. lia.
  - intros k q IH. cbn [digits2_pos]. lia.
Qed.

(** Aligning a mantissa to a lower exponent keeps digits + exponent. *)
Lemma shl_align_digits (m : positive) (e e' : Z) :
  (Zpos (digits2_pos (fst (shl_align m e e'))) + snd (shl_align m e e')
   = Zpos (digits2_pos m) + e)%Z.
Proof.
  unfold shl_align. destruct (e' - e)%Z as [|d|d] eqn:Hd; cbn [fst snd];
    try reflexivity.
  rewrite digits2_pos_shift. lia.
Qed.

Lemma shl_align_snd (m : positive) (e e' : Z) :
  (e' <= e)%Z -> snd (shl_align m e e') = e'.
Proof.
  intros Hle. unfold shl_align.
  destruct (e' - e)%Z as [|d|d] eqn:Hd; cbn [snd]; lia.
Qed.

Lemma shr_1_digits (mrs : shr_record) (p : positive) :
  shr_m mrs = Zpos p -> (2 <= Zpos (digits2_pos p))%Z ->
  exists q, shr_m (shr_1 mrs) = Zpos q /\
            (Zpos (digits2_pos q) + 1 = Zpos (digits2_pos p))%Z.
Proof.
  destruct mrs as [m r s]. cbn [shr_m]. intros -> Hd.
  destruct p as [p|p|]; cbn [shr_1 shr_m].
  - exists p. split; [reflexivity|]. cbn [digits2_pos]. lia.
  - exists p. split; [reflexivity|]. cbn [digits2_pos]. lia.
  - cbn in Hd. lia.
Qed.

Lemma iter_shr_1_digits (k : nat) (mrs : shr_record) (p : positive) :
  shr_m mrs = Zpos p -> (Z.of_nat k < Zpos (digits2_pos p))%Z ->
  exists q, shr_m (Nat.iter k shr_1 mrs) = Zpos q /\
            (Zpos (digits2_pos q) + Z.of_nat k = Zpos (digits2_pos p))%Z.
Proof.
  intros Hm. induction k as [|k IH]; intros Hk.
  - exists p. split; [exact Hm|]. cbn. lia.
  - destruct IH as (q & Hq & Hdq); [lia|].
    rewrite Nat.iter_succ.
    destruct (shr_1_digits (Nat.iter k shr_1 mrs) q Hq) as (q' & Hq' & Hd');
      [lia|].
    exists q'. split; [exact Hq'|]. lia.
Qed.

(** From 1 on, the shift to the target exponent keeps the mantissa positive
    and digits + exponent unchanged. *)
Lemma shr_fexp_digits (p : positive) (e : Z) (l : location) :
  (1 <= Zpos (digits2_pos p) + e)%Z ->
  exists q, shr_m (fst (shr_fexp f32_prec f32_emax (Zpos p) e l)) = Zpos q /\
            (Zpos (digits2_pos q) + snd (shr_fexp f32_prec f32_emax (Zpos p) e l)
             = Zpos (digits2_pos p) + e)%Z.
Proof.
  intros HD. unfold shr_fexp, shr. cbn [Zdigits2].
  assert (Hf : (fexp f32_prec f32_emax (Zpos (digits2_pos p) + e)
                = Zpos (digits2_pos p) + e - 24)%Z).
  { unfold fexp, emin, f32_prec, f32_emax. lia. }
  rewrite Hf.
  destruct (Zpos (digits2_pos p) + e - 24 - e)%Z as [|n|n] eqn:Hn;
    cbn [fst snd].
  - exists p. rewrite shr_record_of_loc_m. split; [reflexivity|lia].
  - rewrite iter_pos_nat.
    destruct (iter_shr_1_digits (Pos.to_nat n) (shr_record_of_loc (Zpos p) l) p)
      as (q & Hq & Hdq).
    + apply shr_record_of_loc_m.
    + rewrite positive_nat_Z. lia.
    + exists q. split; [exact Hq|]. rewrite positive_nat_Z in Hdq. lia.
  - exists p. rewrite shr_record_of_loc_m. split; [reflexivity|lia].
Qed.

(** Rounding a number that is at least 1 gives a number that is at least 1,
    or [+inf]. *)
Lemma binary_round_aux_ge_one (p : positive) (e : Z) (l : location) :
  (1 <= Zpos (digits2_pos p) + e)%Z ->
  f32_ge_one (binary_round_aux f32_prec f32_emax false (Zpos p) e l).
Proof.
  intros HD. unfold binary_round_aux.
  destruct (shr_fexp_digits p e l HD) as (q & Hq & Hdq).
  destruct (shr_fexp f32_prec f32_emax (Zpos p) e l) as [mrs' e'].
  cbn [fst snd] in Hq, Hdq. rewrite Hq.
  pose proof (round_nearest_even_ge (Zpos q) (loc_of_shr_record mrs')) as Hr.
  destruct (round_nearest_even (Zpos q) (loc_of_shr_record mrs'))
    as [|q2|q2] eqn:Hq2; [lia| |lia].
  assert (Hmono : (Zpos (digits2_pos q) <= Zpos (digits2_pos q2))%Z)
    by (apply digits2_pos_mono; lia).
  destruct (shr_fexp_digits q2 e' loc_Exact) as (q3 & Hq3 & Hdq3); [lia|].
  destruct (shr_fexp f32_prec f32_emax (Zpos q2) e' loc_Exact) as [mrs'' e''].
  cbn [fst snd] in Hq3, Hdq3. rewrite Hq3.
  destruct (e'' <=? f32_emax - f32_prec)%Z; cbn [f32_ge_one];
    [split; [reflexivity|lia] | reflexivity].
Qed.

Lemma binary_round_ge_one (p : positive) (e : Z) :
  (1 <= Zpos (digits2_pos p) + e)%Z ->
  f32_ge_one (binary_round f32_prec f32_emax false p e).
Proof.
  intros HD. unfold binary_round.
  pose proof (shl_align_digits p e
                (fexp f32_prec f32_emax (Zpos (digits2_pos p) + e))) as Hs.
  destruct (shl_align p e _) as [mz ez]. cbn [fst snd] in Hs.
  apply binary_round_aux_ge_one. lia.
Qed.

(** ** Signs through the operations *)

Lemma f32_ge_one_signbit (x : float32) : f32_ge_one x -> f32_signbit x = false.
Proof. destruct x; cbn; tauto. Qed.

Lemma f32_signbit_not_negative (x : float32) :
  f32_signbit x = false -> f32_not_negative x.
Proof. destruct x; cbn; tauto. Qed.

Lemma f32_add_signbit (x y : float32) :
  f32_signbit x = false -> f32_not_negative y ->
  f32_signbit (SFadd f32_prec f32_emax x y) = false.
Proof.
  destruct x as [sx|sx| |sx mx ex]; destruct y as [sy|sy| |sy my ey];
    cbn [f32_signbit f32_not_negative]; intros Hx Hy; subst;
    try reflexivity; try (destruct sy; reflexivity).
  cbn [SFadd]. rewrite binary_normalize_signbit. apply Z.ltb_ge.
  cbn [cond_Zopp]. lia.
Qed.

Lemma f32_div_core_nonneg (mx my : positive) (ex ey : Z) :
  (0 <= fst (fst (SFdiv_core_binary f32_prec f32_emax (Zpos mx) ex (Zpos my) ey)))%Z.
Proof.
  unfold SFdiv_core_binary.
  set (s := (ex - ey - _)%Z).
  set (m' := match s with Z0 => Zpos mx | Zpos _ => Z.shiftl (Zpos mx) s
                     | Zneg _ => 0%Z end).
  assert (Hm' : (0 <= m')%Z).
  { unfold m'. destruct s; try lia. apply Z.shiftl_nonneg. lia. }
  pose proof (Z.div_pos m' (Zpos my) Hm' ltac:(lia)) as Hq.
  unfold Z.div in Hq.
  destruct (Z.div_eucl m' (Zpos my)) as [q r]. exact Hq.
Qed.

Lemma f32_div_signbit (x y : float32) :
  f32_signbit x = false -> f32_signbit y = false ->
  f32_signbit (SFdiv f32_prec f32_emax x y) = false.
Proof.
  destruct x as [sx|sx| |sx mx ex]; destruct y as [sy|sy| |sy my ey];
    cbn [f32_signbit]; intros Hx Hy; subst; try reflexivity.
  cbn [SFdiv].
  pose proof (f32_div_core_nonneg mx my ex ey) as Hq.
  destruct (SFdiv_core_binary f32_prec f32_emax (Zpos mx) ex (Zpos my) ey)
    as [[mz ez] lz].
  cbn [fst] in Hq.
  pose proof (binary_round_aux_sign (xorb false false) mz ez lz Hq) as Hs.
  destruct (binary_round_aux _ _ _ mz ez lz); cbn [f32_signbit]; tauto.
Qed.

Lemma f32_of_count_signbit (n : nat) :
  f32_signbit (of_count (A := float32) n) = false.
Proof.
  cbn [of_count float32_Scalar]. rewrite binary_normalize_signbit.
  apply Z.ltb_ge. lia.
Qed.

Lemma f32_opp_not_negative (x : float32) :
  f32_not_positive x -> f32_not_negative (SFopp x).
Proof.
  destruct x as [s|s| |s m e]; cbn; intros Hx; subst; tauto.
Qed.

(** Subtracting a number that is not negative from one that is not positive
    leaves a number that is not positive. *)
Lemma f32_sub_not_positive (x y : float32) :
  f32_not_positive x -> f32_signbit y = false ->
  f32_not_positive (SFsub f32_prec f32_emax x y).
Proof.
  destruct x as [sx|sx| |sx mx ex]; destruct y as [sy|sy| |sy my ey];
    cbn [f32_not_positive f32_signbit]; intros Hx Hy; subst;
    try exact I; try reflexivity; try (destruct sx; exact I).
  cbn [SFsub].
  pose proof (binary_normalize_signbit
                (cond_Zopp true (Zpos (fst (shl_align mx ex (Z.min ex ey))))
                 - cond_Zopp false (Zpos (fst (shl_align my ey (Z.min ex ey)))))
                (Z.min ex ey)) as Hs.
  assert (Hneg : ((cond_Zopp true (Zpos (fst (shl_align mx ex (Z.min ex ey))))
                  - cond_Zopp false (Zpos (fst (shl_align my ey (Z.min ex ey)))))
                  <? 0)%Z = true) by (apply Z.ltb_lt; cbn [cond_Zopp]; lia).
  rewrite Hneg in Hs.
  destruct (binary_normalize _ _ _ _ _); cbn [f32_signbit f32_not_positive] in *;
    try exact I; exact Hs.
Qed.

Lemma f32_add_ge_one_l (x y : float32) :
  f32_ge_one x -> f32_signbit y = false ->
  f32_ge_one (SFadd f32_prec f32_emax x y).
Proof.
  destruct x as [sx|sx| |sx mx ex]; destruct y as [sy|sy| |sy my ey];
    cbn [f32_ge_one f32_signbit]; intros Hx Hy; subst;
    cbn [SFadd f32_ge_one]; try exact I; try reflexivity; try tauto.
  destruct Hx as [-> HD]. cbn [cond_Zopp].
  change (Zpos ?a + Zpos ?b)%Z with (Zpos (a + b)). cbn [binary_normalize].
  apply binary_round_ge_one.
  pose proof (shl_align_digits mx ex (Z.min ex ey)) as Hs.
  rewrite shl_align_snd in Hs by lia.
  pose proof (digits2_pos_mono (fst (shl_align mx ex (Z.min ex ey)))
                (fst (shl_align mx ex (Z.min ex ey))
                 + fst (shl_align my ey (Z.min ex ey))) ltac:(lia)).
  lia.
Qed.

Lemma f32_add_ge_one_r (x y : float32) :
  f32_signbit x = false -> f32_ge_one y ->
  f32_ge_one (SFadd f32_prec f32_emax x y).
Proof.
  destruct x as [sx|sx| |sx mx ex]; destruct y as [sy|sy| |sy my ey];
    cbn [f32_ge_one f32_signbit]; intros Hx Hy; subst;
    cbn [SFadd f32_ge_one]; try exact I; try reflexivity; try tauto.
  destruct Hy as [-> HD]. cbn [cond_Zopp].
  change (Zpos ?a + Zpos ?b)%Z with (Zpos (a + b)). cbn [binary_normalize].
  apply binary_round_ge_one.
  pose proof (shl_align_digits my ey (Z.min ex ey)) as Hs.
  rewrite shl_align_snd in Hs by lia.
  pose proof (digits2_pos_mono (fst (shl_align my ey (Z.min ex ey)))
                (fst (shl_align mx ex (Z.min ex ey))
                 + fst (shl_align my ey (Z.min ex ey))) ltac:(lia)).
  lia.
Qed.

(** ** Signs of [exp] and [log] *)

Lemma fix_mul_nonneg (a c : Z) : (0 <= a)%Z -> (0 <= c)%Z -> (0 <= fix_mul a c)%Z.
Proof.
  intros Ha Hc. unfold fix_mul. apply Z.div_pos; [nia|].
  unfold fix_one, fix_bits. apply Z.pow_pos_nonneg; lia.
Qed.

Lemma exp_series_nonneg (fuel : nat) (n term acc r : Z) :
  (0 <= n)%Z -> (0 <= term)%Z -> (0 <= acc)%Z -> (0 <= r)%Z ->
  (0 <= exp_series fuel n term acc r)%Z.
Proof.
  revert n term acc. induction fuel as [|fuel IH]; intros n term acc Hn Ht Ha Hr;
    cbn [exp_series]; [exact Ha|].
  apply IH; try lia.
  apply Z.div_pos; [apply fix_mul_nonneg; assumption | lia].
Qed.

Lemma atanh_series_nonneg (fuel : nat) (n power acc z2 : Z) :
  (0 <= n)%Z -> (0 <= power)%Z -> (0 <= acc)%Z -> (0 <= z2)%Z ->
  (0 <= atanh_series fuel n power acc z2)%Z.
Proof.
  revert n power acc. induction fuel as [|fuel IH]; intros n power acc Hn Hp Ha Hz;
    cbn [atanh_series]; [exact Ha|].
  apply IH; try lia.
  - apply fix_mul_nonneg; assumption.
  - assert (0 <= power / (2 * n + 1))%Z by (apply Z.div_pos; lia). lia.
Qed.

Lemma fix_ln2_pos : (0 < fix_ln2)%Z.
Proof. reflexivity. Qed.

(** The exponential is never negative. *)
Lemma f32_exp_signbit (x : float32) : f32_signbit (f32_exp x) = false.
Proof.
  destruct x as [s|s| |s m e]; cbn [f32_exp]; try reflexivity;
    try (destruct s; reflexivity).
  destruct (8 <? e + Zpos (digits2_pos m))%Z; [destruct s; reflexivity|].
  cbv zeta. rewrite binary_normalize_signbit. apply Z.ltb_ge.
  unfold fix_exp. apply exp_series_nonneg; try lia.
  - unfold fix_one, fix_bits. apply Z.pow_nonneg. lia.
  - apply Z.mod_pos_bound. exact fix_ln2_pos.
Qed.

(** The logarithm of a number that is at least 1 is not negative. *)
Lemma f32_log_signbit (x : float32) :
  f32_ge_one x -> f32_signbit (f32_log x) = false.
Proof.
  destruct x as [s|s| |s m e]; cbn [f32_ge_one f32_log]; intros Hx;
    try reflexivity; try tauto; subst; try reflexivity.
  destruct Hx as [-> HD]. cbv zeta.
  rewrite binary_normalize_signbit. apply Z.ltb_ge.
  pose proof (digits2_pos_bounds m) as [Hlo _].
  pose proof fix_ln2_pos as Hln.
  assert (Hz : (0 <= (Zpos m - 2 ^ (Zpos (digits2_pos m) - 1)) * fix_one
                     / (Zpos m + 2 ^ (Zpos (digits2_pos m) - 1)))%Z).
  { apply Z.div_pos; [|lia].
    apply Z.mul_nonneg_nonneg; [lia|].
    unfold fix_one, fix_bits. apply Z.pow_nonneg. lia. }
  assert (Ha : (0 <= fix_atanh
                      ((Zpos m - 2 ^ (Zpos (digits2_pos m) - 1)) * fix_one
                       / (Zpos m + 2 ^ (Zpos (digits2_pos m) - 1))))%Z).
  { unfold fix_atanh. apply atanh_series_nonneg; try lia.
    apply fix_mul_nonneg; exact Hz. }
  nia.
Qed.

(** ** The order of binary32 numbers and the sign of a difference *)

Lemma shift_pos_value (m d : positive) :
  Zpos (Pos.iter xO m d) = (Zpos m * Z.pow_pos 2 d)%Z.
Proof.
  change (Z.pow_pos 2 d) with (2 ^ Zpos d)%Z.
  apply (Pos.iter_ind _ xO m (fun d q => Zpos q = (Zpos m * 2 ^ Zpos d)%Z)).
  - lia.
  - intros k q IH. rewrite Pos2Z.inj_succ, Z.pow_succ_r by lia. lia.
Qed.

Lemma shl_align_value (m : positive) (e e' : Z) :
  (e' <= e)%Z ->
  (IZR (Zpos (fst (shl_align m e e'))) * powerRZ 2 e' = IZR (Zpos m) * powerRZ 2 e)%R.
Proof.
  intros Hle. unfold shl_align.
  destruct (e' - e)%Z as [|d|d] eqn:Hd; cbn [fst].
  - replace e' with e by lia. reflexivity.
  - lia.
  - rewrite shift_pos_value, mult_IZR, Zpower_pos_powerRZ.
    replace e with (Zpos d + e')%Z by lia.
    rewrite powerRZ_add by lra. ring.
Qed.

Lemma aligned_value (s : bool) (m : positive) (e e' : Z) :
  (e' <= e)%Z ->
  (IZR (cond_Zopp s (Zpos (fst (shl_align m e e')))) * powerRZ 2 e'
   = f32_value (S754_finite s m e))%R.
Proof.
  intros Hle. cbn [f32_value].
  pose proof (shl_align_value m e e' Hle) as Hv.
  destruct s; cbn [cond_Zopp].
  - rewrite !Pos2Z.opp_pos in *.
    change (Z.neg ?p) with (- Zpos p)%Z. rewrite !opp_IZR. lra.
  - exact Hv.
Qed.

(** The difference of two finite numbers, before rounding, as an integer
    multiple of a power of two. *)
Lemma aligned_difference (sx sy : bool) (mx my : positive) (ex ey : Z) :
  (IZR (cond_Zopp sx (Zpos (fst (shl_align mx ex (Z.min ex ey))))
        - cond_Zopp sy (Zpos (fst (shl_align my ey (Z.min ex ey)))))
   * powerRZ 2 (Z.min ex ey)
   = f32_value (S754_finite sx mx ex) - f32_value (S754_finite sy my ey))%R.
Proof.
  rewrite minus_IZR, Rmult_minus_distr_r.
  rewrite !aligned_value by lia. reflexivity.
Qed.

Lemma f32_value_sign (s : bool) (m : positive) (e : Z) :
  if s then (f32_value (S754_finite s m e) < 0)%R
  else (0 < f32_value (S754_finite s m e))%R.
Proof.
  cbn [f32_value].
  pose proof (powerRZ_lt 2 e ltac:(lra)) as Hp.
  destruct s; cbn [cond_Zopp].
  - change (- Zpos m)%Z with (Z.neg m).
    assert (IZR (Z.neg m) < 0)%R by (apply IZR_lt; lia). nra.
  - assert (0 < IZR (Zpos m))%R by (apply IZR_lt; lia). nra.
Qed.

Lemma f32_sub_finite_signbit (sx sy : bool) (mx my : positive) (ex ey : Z) :
  f32_signbit (SFsub f32_prec f32_emax (S754_finite sx mx ex) (S754_finite sy my ey))
  = true <->
  (f32_value (S754_finite sx mx ex) < f32_value (S754_finite sy my ey))%R.
Proof.
  cbn [SFsub]. rewrite binary_normalize_signbit.
  pose proof (aligned_difference sx sy mx my ex ey) as Hd.
  pose proof (powerRZ_lt 2 (Z.min ex ey) ltac:(lra)) as Hp.
  set (X := (cond_Zopp sx _ - cond_Zopp sy _)%Z) in *.
  rewrite Z.ltb_lt. split; intros Hlt.
  - assert (IZR X < 0)%R by (apply IZR_lt; exact Hlt). nra.
  - apply lt_IZR. nra.
Qed.

Lemma f32_le_refl (x : float32) : f32_le x x.
Proof.
  destruct x as [s|[|]| |s m e]; cbn [f32_le]; try exact I; apply Rle_refl.
Qed.

Lemma f32_le_nan_r (x : float32) : f32_le x S754_nan.
Proof. destruct x as [s|[|]| |s m e]; exact I. Qed.

Lemma f32_le_trans (x y z : float32) :
  y <> S754_nan -> f32_le x y -> f32_le y z -> f32_le x z.
Proof.
  intros Hy.
  destruct x as [sx|[|]| |sx mx ex]; destruct y as [sy|[|]| |sy my ey];
    destruct z as [sz|[|]| |sz mz ez]; cbn [f32_le]; intros Hxy Hyz;
    try exact I; try contradiction; try congruence;
    exact (Rle_trans _ _ _ Hxy Hyz).
Qed.

(** When the difference has its sign bit set, the first number is the
    smaller one ... *)
Lemma f32_sub_signbit_le (x y : float32) :
  f32_signbit (SFsub f32_prec f32_emax x y) = true -> f32_le x y.
Proof.
  destruct x as [sx|[|]| |sx mx ex]; destruct y as [sy|[|]| |sy my ey];
    try (intros _; exact I); try (cbn; discriminate).
  - (* zero, zero *) intros _. cbn [f32_le f32_value]. apply Rle_refl.
  - (* zero, finite *) cbn [SFsub f32_signbit]. intros Hs.
    pose proof (f32_value_sign sy my ey) as Hv. cbn [f32_le].
    destruct sy; [discriminate|]. change (f32_value (S754_zero sx)) with 0%R. lra.
  - (* finite, zero *) cbn [SFsub f32_signbit]. intros ->.
    pose proof (f32_value_sign true mx ex) as Hv. cbn [f32_le].
    change (f32_value (S754_zero sy)) with 0%R. cbv beta iota in Hv. lra.
  - (* finite, finite *) intros Hs. apply f32_sub_finite_signbit in Hs.
    cbn [f32_le]. lra.
Qed.

(** ... and when it is clear, the second one is. *)
Lemma f32_sub_clear_le (x y : float32) :
  f32_signbit (SFsub f32_prec f32_emax x y) = false -> f32_le y x.
Proof.
  destruct x as [sx|[|]| |sx mx ex]; destruct y as [sy|[|]| |sy my ey];
    try (intros _; exact I); try (cbn; discriminate).
  - (* zero, zero *) intros _. cbn [f32_le f32_value]. apply Rle_refl.
  - (* zero, finite *) cbn [SFsub f32_signbit]. intros Hs.
    pose proof (f32_value_sign sy my ey) as Hv. cbn [f32_le].
    destruct sy; [|discriminate]. change (f32_value (S754_zero sx)) with 0%R. lra.
  - (* finite, zero *) cbn [SFsub f32_signbit]. intros ->.
    pose proof (f32_value_sign false mx ex) as Hv. cbn [f32_le].
    change (f32_value (S754_zero sy)) with 0%R. cbv beta iota in Hv. lra.
  - (* finite, finite *) intros Hs. cbn [f32_le].
    destruct (Rle_or_lt (f32_value (S754_finite sy my ey))
                (f32_value (S754_finite sx mx ex))) as [Hle|Hlt]; [exact Hle|].
    apply f32_sub_finite_signbit in Hlt. congruence.
Qed.

(** Subtracting a number from a smaller one gives a number that is not
    positive. *)
Lemma f32_le_sub_not_positive (x y : float32) :
  f32_le x y -> f32_not_positive (SFsub f32_prec f32_emax x y).
Proof.
  destruct x as [sx|[|]| |sx mx ex]; destruct y as [sy|[|]| |sy my ey];
    cbn [f32_le]; intros Hle; try contradiction;
    try exact I; try reflexivity.
  - (* zero, zero *) destruct sx, sy; exact I.
  - (* zero, finite *) cbn [SFsub f32_not_positive].
    pose proof (f32_value_sign sy my ey) as Hv.
    change (f32_value (S754_zero sx)) with 0%R in Hle.
    destruct sy; [lra|reflexivity].
  - (* finite, zero *) cbn [SFsub f32_not_positive].
    pose proof (f32_value_sign sx mx ex) as Hv.
    change (f32_value (S754_zero sy)) with 0%R in Hle.
    destruct sx; [reflexivity|lra].
  - (* finite, finite *)
    destruct (f32_signbit (SFsub f32_prec f32_emax (S754_finite sx mx ex)
                             (S754_finite sy my ey))) eqn:Hs.
    + pose proof (binary_normalize_not_nan
                    (cond_Zopp sx (Zpos (fst (shl_align mx ex (Z.min ex ey))))
                     - cond_Zopp sy (Zpos (fst (shl_align my ey (Z.min ex ey)))))
                    (Z.min ex ey)) as Hn.
      cbn [SFsub] in Hs |- *.
      destruct (binary_normalize _ _ _ _ _); cbn [f32_signbit f32_not_positive] in *;
        try exact I; exact Hs.
    + apply f32_sub_clear_le in Hs. cbn [f32_le] in Hs.
      assert (Heq : f32_value (S754_finite sx mx ex)
                    = f32_value (S754_finite sy my ey)) by lra.
      cbn [SFsub].
      pose proof (aligned_difference sx sy mx my ex ey) as Hd.
      pose proof (powerRZ_lt 2 (Z.min ex ey) ltac:(lra)) as Hp.
      set (X := (cond_Zopp sx _ - cond_Zopp sy _)%Z) in *.
      assert (HX : X = 0%Z).
      { apply eq_IZR. nra. }
      rewrite HX. exact I.
Qed.

(** ** The loss is never negative, on binary32 *)

Lemma f32_max_upper (x y : float32) :
  f32_le x (f32_max x y) /\ f32_le y (f32_max x y).
Proof.
  unfold f32_max.
  destruct x as [sx|[|]| |sx mx ex]; destruct y as [sy|[|]| |sy my ey];
    try (split; exact I); cbv beta iota;
    (destruct (f32_signbit _) eqn:Hs;
     [apply f32_sub_signbit_le in Hs | apply f32_sub_clear_le in Hs];
     split; try apply f32_le_refl; exact Hs).
Qed.

Lemma f32_fold_max_nan (xs : list float32) :
  fold_left f32_max xs S754_nan = S754_nan.
Proof. induction xs as [|x xs IH]; cbn [fold_left]; [reflexivity | exact IH]. Qed.

Lemma f32_fold_max_upper (rest : list float32) (acc : float32) :
  f32_le acc (fold_left f32_max rest acc) /\
  forall a, In a rest -> f32_le a (fold_left f32_max rest acc).
Proof.
  revert acc. induction rest as [|c rest IH]; intros acc; cbn [fold_left].
  - split; [apply f32_le_refl | intros a []].
  - destruct (IH (f32_max acc c)) as [Hacc Hrest].
    destruct (f32_max_upper acc c) as [Ha Hc].
    assert (Hvia : forall a, f32_le a (f32_max acc c) ->
                             f32_le a (fold_left f32_max rest (f32_max acc c))).
    { intros a Hle. destruct (f32_max acc c) eqn:Hm;
        try (eapply f32_le_trans; [|exact Hle|exact Hacc]; discriminate).
      rewrite f32_fold_max_nan. apply f32_le_nan_r. }
    split; [apply Hvia; exact Ha|].
    intros a [<-|Hin]; [apply Hvia; exact Hc | apply Hrest; exact Hin].
Qed.

(** Every entry of a row is at most the row's largest entry. *)
Lemma f32_row_max_upper (row : list float32) (a : float32) :
  In a row -> f32_le a (row_max row).
Proof.
  destruct row as [|c rest]; [intros []|]. cbn [row_max].
  change (@smax float32 float32_Scalar) with f32_max.
  destruct (f32_fold_max_upper rest c) as [Hc Hrest].
  intros [<-|Hin]; [exact Hc | apply Hrest; exact Hin].
Qed.

Lemma f32_fold_signbit (xs : list float32) (acc : float32) :
  f32_signbit acc = false -> Forall f32_not_negative xs ->
  f32_signbit (fold_left sadd xs acc) = false.
Proof.
  revert acc. induction xs as [|x xs IH]; intros acc Hacc Hxs; cbn [fold_left];
    [exact Hacc|].
  inversion Hxs as [|? ? Hx Hrest]; subst.
  apply IH; [|exact Hrest]. apply f32_add_signbit; assumption.
Qed.

Lemma f32_fold_ge_one (xs : list float32) (acc : float32) :
  Forall (fun x => f32_signbit x = false) xs ->
  f32_ge_one acc \/ (f32_signbit acc = false /\ Exists f32_ge_one xs) ->
  f32_ge_one (fold_left sadd xs acc).
Proof.
  revert acc. induction xs as [|x xs IH]; intros acc Hxs Hacc; cbn [fold_left].
  - destruct Hacc as [Hacc|[_ Hex]]; [exact Hacc | inversion Hex].
  - inversion Hxs as [|? ? Hx Hrest]; subst.
    apply IH; [exact Hrest|].
    destruct Hacc as [Hacc|[Hacc Hex]].
    + left. apply f32_add_ge_one_l; assumption.
    + inversion Hex as [? ? Hone|? ? Hlater]; subst.
      * left. apply f32_add_ge_one_r; assumption.
      * right. split; [|exact Hlater].
        apply f32_add_signbit; [exact Hacc|].
        apply f32_signbit_not_negative. exact Hx.
Qed.

Lemma f32_exp_sub_self (m : float32) : f32_ge_one (sexp (ssub m m)).
Proof.
  rewrite f32_sub_self. destruct (f32_finite m); cbn; [split; [reflexivity|lia] | exact I].
Qed.

(** The sum of the shifted exponentials of a row is at least 1 (or NaN, or
    [+inf]): the largest entry contributes [exp 0 = 1]. *)
Lemma f32_sum_exp_ge_one (row : list float32) :
  row <> [] ->
  f32_ge_one (rsum (map (fun a => sexp (ssub a (row_max row))) row)).
Proof.
  intros Hne. unfold rsum. apply f32_fold_ge_one.
  - apply Forall_forall. intros x Hin. apply in_map_iff in Hin.
    destruct Hin as (a & <- & _). apply f32_exp_signbit.
  - right. split; [reflexivity|].
    apply Exists_exists. exists (sexp (ssub (row_max row) (row_max row))).
    split; [|apply f32_exp_sub_self].
    apply in_map_iff. exists (row_max row). split; [reflexivity|].
    apply f32_row_max_in. exact Hne.
Qed.

(** No entry of a log-softmax is positive. *)
Lemma f32_log_softmax_not_positive (row : list float32) :
  Forall f32_not_positive (log_softmax row).
Proof.
  destruct row as [|c rest] eqn:Hrow; [constructor|]. rewrite <- Hrow.
  assert (Hne : row <> []) by (rewrite Hrow; discriminate).
  unfold log_softmax. apply Forall_forall. intros x Hin.
  apply in_map_iff in Hin. destruct Hin as (a & <- & Hin).
  apply f32_sub_not_positive.
  - apply f32_le_sub_not_positive. apply f32_row_max_upper. exact Hin.
  - apply f32_log_signbit. apply f32_sum_exp_ge_one. exact Hne.
Qed.

Lemma f32_nth_not_positive (l : list float32) (i : nat) :
  Forall f32_not_positive l -> f32_not_positive (nth i l szero).
Proof.
  intros Hl. destruct (nth_in_or_default i l szero) as [Hin | Hd]; [|rewrite Hd; exact I].
  eapply Forall_forall in Hl; eassumption.
Qed.

(** One direction of the cross-entropy is NaN or has its sign bit clear. *)
Lemma f32_class_ce_signbit (b : nat) (f : nat -> nat -> float32) :
  f32_signbit (spec_class_ce b f) = false.
Proof.
  unfold spec_class_ce. apply f32_div_signbit; [|apply f32_of_count_signbit].
  unfold rsum. apply f32_fold_signbit; [reflexivity|].
  apply Forall_forall. intros x Hin. apply in_map_iff in Hin.
  destruct Hin as (i & <- & _).
  apply f32_opp_not_negative. apply f32_nth_not_positive.
  apply f32_log_softmax_not_positive.
Qed.

Lemma f32_symmetric_ce_signbit (temp : float32) (b : nat)
  (tl sl : matrix float32) :
  f32_signbit (spec_symmetric_ce temp b tl sl) = false.
Proof.
  unfold spec_symmetric_ce. apply f32_div_signbit; [|apply f32_of_count_signbit].
  apply f32_add_signbit; [|apply f32_signbit_not_negative];
    apply f32_class_ce_signbit.
Qed.

(** A number with a clear sign bit is NaN or at least 0. *)
Lemma f32_signbit_clear (x : float32) :
  f32_signbit x = false -> x = f32_nan \/ SFleb (S754_zero false) x = true.
Proof.
  destruct x as [s|s| |s m e]; cbn [f32_signbit]; intros Hs; subst;
    [right|right|left|right]; reflexivity.
Qed.

(** ** The small model on binary32 *)

Lemma f32_holds (t : float32) :
  holds tiny_model (heap_of (f32_weights t)) (f32_weights t).
Proof. repeat split; reflexivity. Qed.

Lemma f32_model_ok (t : float32) : model_ok tiny_config (f32_weights t).
Proof. repeat split; repeat constructor. Qed.

(** ** Loss mode *)

(** C1, as amended.  On a well-shaped model whose encoders keep the shape of
    the tensors of their own width:

    - in any arithmetic (binary32, the reals), for a fitting batch of [b]
      pairs, [forward] with [return_loss = true] returns one number, the mean
      of the text-to-speech and the speech-to-text cross-entropy over the
      [b] by [b] matrix of scaled similarities of the normalized latents,
      each with class [i] for row [i];
    - on the reals, for a valid batch, that number is the mean of the two
      sums of [- ln (softmax probability of class i in row i)] over [b], and
      it is not negative;
    - on binary32, for a fitting batch, that number is NaN or at least 0,
      never negative; for at least one pair it is NaN when
      [exp(temperature)] is an infinity (or NaN). *)
Theorem loss_mode_is_symmetric_cross_entropy :
  (forall (A : Type) (S : Scalar A) cfg (self : VoiceCLIP A) w h
          text speech_tokens text_mask,
      holds self h w ->
      model_ok cfg w ->
      encoder_ok (text_transformer self) (dim_text cfg) ->
      encoder_ok (speech_transformer self) (dim_speech cfg) ->
      input_fits cfg text speech_tokens text_mask ->
      exists text_latents speech_latents h1,
        forward_latents self text speech_tokens text_mask h
        = (Ok (text_latents, speech_latents), h1) /\
        forward self text speech_tokens text_mask true h
        = (Ok (Loss (spec_symmetric_ce (sexp (W_temperature w)) (size0 text)
                       text_latents speech_latents)), h1)) /\
  (forall cfg (self : VoiceCLIP R) w h text speech_tokens text_mask,
      holds self h w ->
      model_ok cfg w ->
      encoder_ok (text_transformer self) (dim_text cfg) ->
      encoder_ok (speech_transformer self) (dim_speech cfg) ->
      valid_input cfg text speech_tokens text_mask ->
      exists text_latents speech_latents h1,
        forward_latents self text speech_tokens text_mask h
        = (Ok (text_latents, speech_latents), h1) /\
        forward self text speech_tokens text_mask true h
        = (Ok (Loss (spec_loss (exp (W_temperature w)) (size0 text)
                       text_latents speech_latents)), h1) /\
        0 <= spec_loss (exp (W_temperature w)) (size0 text)
               text_latents speech_latents) /\
  (forall cfg (self : VoiceCLIP float32) w h text speech_tokens text_mask,
      holds self h w ->
      model_ok cfg w ->
      encoder_ok (text_transformer self) (dim_text cfg) ->
      encoder_ok (speech_transformer self) (dim_speech cfg) ->
      input_fits cfg text speech_tokens text_mask ->
      exists loss,
        fst (forward self text speech_tokens text_mask true h)
        = Ok (Loss loss) /\
        (loss = f32_nan \/ SFleb (S754_zero false) loss = true) /\
        ((1 <= size0 text)%nat ->
         f32_finite (f32_exp (W_temperature w)) = false ->
         loss = f32_nan)).
Proof.
  assert (Hany : forall (A : Type) (S : Scalar A) cfg (self : VoiceCLIP A) w h
                        text speech_tokens text_mask,
      holds self h w ->
      model_ok cfg w ->
      encoder_ok (text_transformer self) (dim_text cfg) ->
      encoder_ok (speech_transformer self) (dim_speech cfg) ->
      input_fits cfg text speech_tokens text_mask ->
      exists text_latents speech_latents h1,
        forward_latents self text speech_tokens text_mask h
        = (Ok (text_latents, speech_latents), h1) /\
        forward self text speech_tokens text_mask true h
        = (Ok (Loss (spec_symmetric_ce (sexp (W_temperature w)) (size0 text)
                       text_latents speech_latents)), h1)).
  { intros A S cfg self w h text speech_tokens text_mask Hh Hok Het Hes Hfit.
    destruct (first_stage cfg self w h text speech_tokens text_mask
                Hh Hok Het Hes Hfit)
      as (pt & ps & h1 & _ & Hpt & Hps & Hlat & Hfwd).
    apply normalize_shape in Hpt. apply normalize_shape in Hps.
    exists (normalize pt), (normalize ps), h1. split; [exact Hlat|].
    rewrite Hfwd. unfold head_fun. cbn [negb fst snd].
    rewrite (contrastive_loss_value _ _ _ _ _ Hpt Hps). reflexivity. }
  split; [exact Hany|]. split.
  - intros cfg self w h text speech_tokens text_mask Hh Hok Het Hes Hvalid.
    destruct (Hany R R_Scalar cfg self w h text speech_tokens text_mask
                Hh Hok Het Hes (valid_input_fits _ _ _ _ Hvalid))
      as (tl & sl & h1 & Hlat & Hfwd).
    exists tl, sl, h1. split; [exact Hlat|]. split.
    + rewrite Hfwd, spec_symmetric_ce_real. reflexivity.
    + apply spec_loss_nonneg.
  - intros cfg self w h text speech_tokens text_mask Hh Hok Het Hes Hfit.
    destruct (Hany float32 float32_Scalar cfg self w h text speech_tokens
                text_mask Hh Hok Het Hes Hfit)
      as (tl & sl & h1 & _ & Hfwd).
    rewrite Hfwd. cbn [fst].
    change (sexp (W_temperature w)) with (f32_exp (W_temperature w)).
    eexists. split; [reflexivity|]. split.
    + apply f32_signbit_clear. apply f32_symmetric_ce_signbit.
    + intros Hb Htemp. apply f32_symmetric_ce_not_finite; assumption.
Qed.

Lemma loss_mode_is_symmetric_cross_entropy_witness :
  (exists loss,
      fst (forward tiny_model pair_text pair_speech None true tiny_heap)
      = Ok (Loss loss) /\
      0 <= loss) /\
  (exists loss,
      fst (forward tiny_model pair_text pair_speech None true
             (heap_of (f32_weights f32_one)))
      = Ok (Loss loss) /\
      (loss = f32_nan \/ SFleb (S754_zero false) loss = true)) /\
  fst (forward tiny_model pair_text pair_speech None true
         (heap_of (f32_weights f32_128)))
  = Ok (Loss f32_nan).
Proof.
  destruct loss_mode_is_symmetric_cross_entropy as (Hany & Hreal & Hf32).
  split; [|split].
  - destruct (Hreal tiny_config tiny_model tiny_weights tiny_heap
                pair_text pair_speech None)
      as (tl & sl & h1 & _ & Hfwd & Hpos).
    + repeat split; reflexivity.
    + repeat split; repeat constructor.
    + intros x mask b L Hx _. exists x; split; [reflexivity | exact Hx].
    + intros x mask b L Hx _. exists x; split; [reflexivity | exact Hx].
    + unfold valid_input, wf_ids, mask_fits, mask_nonempty; simpl.
      repeat split; repeat constructor.
    + eexists. rewrite Hfwd. split; [reflexivity | exact Hpos].
  - destruct (Hf32 tiny_config tiny_model
                (f32_weights f32_one) (heap_of (f32_weights f32_one))
                pair_text pair_speech None)
      as (loss & Hfwd & Hsign & _).
    + repeat split; reflexivity.
    + repeat split; repeat constructor.
    + intros x mask b L Hx _. exists x; split; [reflexivity | exact Hx].
    + intros x mask b L Hx _. exists x; split; [reflexivity | exact Hx].
    + unfold input_fits, wf_ids, mask_fits; simpl.
      repeat split; repeat constructor.
    + exists loss. split; [exact Hfwd | exact Hsign].
  - destruct (Hf32 tiny_config tiny_model (f32_weights f32_128)
                (heap_of (f32_weights f32_128)) pair_text pair_speech None)
      as (loss & Hfwd & _ & Hnan).
    + repeat split; reflexivity.
    + repeat split; repeat constructor.
    + intros x mask b L Hx _. exists x; split; [reflexivity | exact Hx].
    + intros x mask b L Hx _. exists x; split; [reflexivity | exact Hx].
    + unfold input_fits, wf_ids, mask_fits; simpl.
      repeat split; repeat constructor.
    + rewrite Hfwd, Hnan; [reflexivity| |].
      * unfold size0, pair_text; simpl; lia.
      * vm_compute. reflexivity.
Defined.

(** C1, as stated, fails: with the temperature at 128, [exp(temperature)]
    overflows binary32, and for a valid batch of two pairs [forward] returns
    NaN, which is not greater than or equal to 0. *)
Lemma overflowing_temperature_gives_nan_loss :
  valid_input tiny_config pair_text pair_speech None /\
  (2 <= size0 pair_text)%nat /\
  f32_exp f32_128 = S754_infinity false /\
  fst (forward tiny_model pair_text pair_speech None true
         (heap_of (f32_weights f32_128)))
  = Ok (Loss f32_nan) /\
  SFleb (S754_zero false) f32_nan = false.
Proof.
  split; [|split; [|split; [|split]]].
  - unfold valid_input, wf_ids, mask_fits, mask_nonempty; simpl.
    repeat split; repeat constructor.
  - unfold size0, pair_text; simpl; lia.
  - vm_compute. reflexivity.
  - vm_compute. reflexivity.
  - reflexivity.
Qed.

(** ** A batch of one pair *)

Lemma single_row {A} (m : list (list A)) :
  length m = 1%nat -> m = [nth 0 m []].
Proof. destruct m as [|r [|r' m]]; simpl; intros Hl; try discriminate. reflexivity. Qed.

(** C7, as amended.  On a well-shaped model whose encoders keep the shape of
    the tensors of their own width, for a batch of one pair:

    - on the reals, for a valid batch, [forward] with [return_loss = true]
      raises nothing and returns the loss 0;
    - on binary32, for a fitting batch, both modes raise nothing; the loss is
      [+0] when the score of the pair (its scaled similarity, what
      [return_loss = false] returns) is a zero or a finite number, and NaN
      when that score is an infinity or NaN. *)
Theorem single_pair_loss_is_zero :
  (forall cfg (self : VoiceCLIP R) w h text speech_tokens text_mask,
      holds self h w ->
      model_ok cfg w ->
      encoder_ok (text_transformer self) (dim_text cfg) ->
      encoder_ok (speech_transformer self) (dim_speech cfg) ->
      valid_input cfg text speech_tokens text_mask ->
      size0 text = 1%nat ->
      fst (forward self text speech_tokens text_mask true h) = Ok (Loss 0)) /\
  (forall cfg (self : VoiceCLIP float32) w h text speech_tokens text_mask,
      holds self h w ->
      model_ok cfg w ->
      encoder_ok (text_transformer self) (dim_text cfg) ->
      encoder_ok (speech_transformer self) (dim_speech cfg) ->
      input_fits cfg text speech_tokens text_mask ->
      size0 text = 1%nat ->
      exists score,
        fst (forward self text speech_tokens text_mask false h)
        = Ok (Scores [score]) /\
        fst (forward self text speech_tokens text_mask true h)
        = Ok (Loss (if f32_finite score then S754_zero false else f32_nan))).
Proof.
  split.
  - intros cfg self w h text speech_tokens text_mask Hh Hok Het Hes Hvalid Hb.
    destruct (first_stage cfg self w h text speech_tokens text_mask
                Hh Hok Het Hes (valid_input_fits _ _ _ _ Hvalid))
      as (pt & ps & h1 & _ & Hpt & Hps & _ & Hfwd).
    apply normalize_shape in Hpt. apply normalize_shape in Hps.
    rewrite Hfwd; simpl fst. unfold head_fun. cbn [negb fst snd].
    rewrite (contrastive_loss_spec _ _ _ _ _ Hpt Hps). cbn [rbind].
    rewrite Hb, spec_loss_single. reflexivity.
  - intros cfg self w h text speech_tokens text_mask Hh Hok Het Hes Hfit Hb.
    destruct (first_stage cfg self w h text speech_tokens text_mask
                Hh Hok Het Hes Hfit)
      as (pt & ps & h1 & _ & Hpt & Hps & _ & Hfwd).
    apply normalize_shape in Hpt. apply normalize_shape in Hps.
    rewrite Hb in Hpt, Hps.
    exists (spec_similarity (sexp (W_temperature w)) (normalize pt)
              (normalize ps) 0 0).
    split.
    + rewrite Hfwd; simpl fst. unfold head_fun. cbn [negb fst snd].
      rewrite (scores_value _ _ _ _ _ Hpt Hps). cbn [rbind].
      destruct Hpt as [Hlt _]. destruct Hps as [Hls _].
      rewrite (single_row _ Hlt) at 1. rewrite (single_row _ Hls) at 1.
      reflexivity.
    + rewrite Hfwd; simpl fst. unfold head_fun. cbn [negb fst snd].
      rewrite Hb.
      rewrite (contrastive_loss_value _ _ _ _ _ Hpt Hps). cbn [rbind].
      rewrite f32_symmetric_ce_single. reflexivity.
Qed.

Lemma single_pair_loss_is_zero_witness :
  fst (forward tiny_model tiny_text tiny_speech (Some [[true; false]]) true
         tiny_heap) = Ok (Loss 0) /\
  (exists score,
      fst (forward tiny_model one_text one_speech None false
             (heap_of (f32_weights f32_one))) = Ok (Scores [score]) /\
      f32_finite score = true /\
      fst (forward tiny_model one_text one_speech None true
             (heap_of (f32_weights f32_one))) = Ok (Loss (S754_zero false))) /\
  fst (forward tiny_model one_text one_speech None true
         (heap_of (f32_weights f32_128))) = Ok (Loss f32_nan).
Proof.
  destruct single_pair_loss_is_zero as [Hreal Hf32].
  split; [|split].
  - apply (Hreal tiny_config tiny_model tiny_weights tiny_heap tiny_text
                 tiny_speech (Some [[true; false]])).
    + repeat split; reflexivity.
    + repeat split; repeat constructor.
    + intros x mask b L Hx _. exists x; split; [reflexivity | exact Hx].
    + intros x mask b L Hx _. exists x; split; [reflexivity | exact Hx].
    + unfold valid_input, wf_ids, mask_fits, mask_nonempty; simpl.
      repeat split; repeat constructor.
    + reflexivity.
  - destruct (Hf32 tiny_config tiny_model (f32_weights f32_one)
                (heap_of (f32_weights f32_one)) one_text one_speech None)
      as (score & Hscore & Hloss).
    + repeat split; reflexivity.
    + repeat split; repeat constructor.
    + intros x mask b L Hx _. exists x; split; [reflexivity | exact Hx].
    + intros x mask b L Hx _. exists x; split; [reflexivity | exact Hx].
    + unfold input_fits, wf_ids, mask_fits; simpl.
      repeat split; repeat constructor.
    + reflexivity.
    + exists score. split; [exact Hscore|].
      assert (Hfin : f32_finite score = true).
      { assert (Hrun : fst (forward tiny_model one_text one_speech None false
                              (heap_of (f32_weights f32_one)))
                       = Ok (Scores [S754_finite false 11401300 (-22)]))
          by (vm_compute; reflexivity).
        rewrite Hrun in Hscore. inversion Hscore; subst. reflexivity. }
      split; [exact Hfin|]. rewrite Hloss, Hfin. reflexivity.
  - destruct (Hf32 tiny_config tiny_model (f32_weights f32_128)
                (heap_of (f32_weights f32_128)) one_text one_speech None)
      as (score & Hscore & Hloss).
    + repeat split; reflexivity.
    + repeat split; repeat constructor.
    + intros x mask b L Hx _. exists x; split; [reflexivity | exact Hx].
    + intros x mask b L Hx _. exists x; split; [reflexivity | exact Hx].
    + unfold input_fits, wf_ids, mask_fits; simpl.
      repeat split; repeat constructor.
    + reflexivity.
    + assert (Hrun : fst (forward tiny_model one_text one_speech None false
                            (heap_of (f32_weights f32_128)))
                     = Ok (Scores [S754_infinity false]))
        by (vm_compute; reflexivity).
      rewrite Hrun in Hscore. inversion Hscore; subst. exact Hloss.
Defined.

(** C7, as stated, fails: with the temperature at 128 the score of a valid
    batch of one pair is infinite and [forward] returns NaN, not 0; and with
    a mask that keeps no position the latent, the score and the loss are
    NaN. *)
Lemma single_pair_loss_can_be_nan :
  valid_input tiny_config one_text one_speech None /\
  size0 one_text = 1%nat /\
  fst (forward tiny_model one_text one_speech None true
         (heap_of (f32_weights f32_128))) = Ok (Loss f32_nan) /\
  SFeqb f32_nan (S754_zero false) = false /\
  input_fits tiny_config one_text one_speech (Some [[false]]) /\
  fst (forward tiny_model one_text one_speech (Some [[false]]) true
         (heap_of (f32_weights f32_one))) = Ok (Loss f32_nan).
Proof.
  split; [|split; [|split; [|split; [|split]]]].
  - unfold valid_input, wf_ids, mask_fits, mask_nonempty; simpl.
    repeat split; repeat constructor.
  - reflexivity.
  - vm_compute. reflexivity.
  - reflexivity.
  - unfold input_fits, wf_ids, mask_fits; simpl.
    repeat split; repeat constructor.
  - vm_compute. reflexivity.
Qed.

(** ** Normalization *)

Lemma eps_pos : 0 < eps.
Proof. unfold eps. apply Rinv_0_lt_compat. apply pow_lt. lra. Qed.

Lemma sum_squares_nonneg (v : list R) : 0 <= rsum (map (fun a => a * a) v).
Proof.
  apply rsum_nonneg. apply Forall_forall. intros y Hy.
  apply in_map_iff in Hy. destruct Hy as (a & <- & _). nra.
Qed.

Lemma norm2_nonneg (v : list R) : 0 <= norm2 v.
Proof. unfold norm2. apply sqrt_pos. Qed.

(** Dividing a vector by a positive number divides its norm by it. *)
Lemma norm2_div (v : list R) c :
  0 < c -> norm2 (map (fun a => a / c) v) = norm2 v / c.
Proof.
  intros Hc. unfold norm2. cbn [ssqrt smul R_Scalar]. rewrite map_map.
  rewrite (map_ext (fun a => a / c * (a / c)) (fun a => a * a * (/ c * / c)))
    by (intros a; unfold Rdiv; ring).
  rewrite (rsum_map_scale (fun a => a * a)).
  assert (Hic : 0 < / c) by (apply Rinv_0_lt_compat; exact Hc).
  rewrite sqrt_mult; [|apply sum_squares_nonneg | nra].
  rewrite sqrt_square by lra. reflexivity.
Qed.

(** The norm of a normalized row: 1 when the row is at least [eps] long,
    its norm over [eps] when it is shorter. *)
Lemma normalize_row_norm (v : list R) :
  (eps <= norm2 v -> norm2 (normalize_row v) = 1) /\
  (norm2 v < eps -> norm2 (normalize_row v) = norm2 v / eps).
Proof.
  assert (He := eps_pos). unfold normalize_row.
  cbn [sdiv smax seps R_Scalar]. split; intros Hv.
  - rewrite Rmax_left by exact Hv. rewrite norm2_div by lra.
    field. lra.
  - rewrite Rmax_right by lra. apply norm2_div. exact He.
Qed.

Lemma normalize_rows_norm (X : matrix R) :
  Forall2 (fun p v =>
             (eps <= norm2 p <= 10 ^ 19 -> norm2 v = 1) /\
             (norm2 p < eps -> norm2 v = norm2 p / eps /\ norm2 v < 1))
          X (normalize X).
Proof.
  unfold normalize. induction X as [|p X IH]; cbn [map]; constructor;
    [|exact IH].
  destruct (normalize_row_norm p) as [Hunit Hsmall]. split.
  - intros [Hlo _]. apply Hunit; exact Hlo.
  - intros Hlt. split; [apply Hsmall; exact Hlt|].
    rewrite (Hsmall Hlt).
    assert (He := eps_pos).
    apply (Rmult_lt_reg_r eps); [exact He|].
    unfold Rdiv. rewrite Rmult_assoc, Rinv_l by lra. lra.
Qed.

(** On binary32, a row of zeros and finite numbers whose norm overflows is
    divided by infinity: every entry of its normalization is a zero. *)
Lemma f32_normalize_row_overflow (v : list float32) :
  norm2 v = S754_infinity false ->
  Forall (fun a => f32_finite a = true) v ->
  Forall (fun a => exists s, a = S754_zero s) (normalize_row v).
Proof.
  intros Hn Hfin. unfold normalize_row. rewrite Hn.
  change (smax (S754_infinity false) seps) with (S754_infinity false).
  apply Forall_forall. intros c Hc. apply in_map_iff in Hc.
  destruct Hc as (a & <- & Ha). rewrite Forall_forall in Hfin.
  specialize (Hfin a Ha).
  destruct a as [s|s| |s m e]; try discriminate; eexists; reflexivity.
Qed.

Lemma f32_normalize_rows_overflow (X : matrix float32) :
  Forall2 (fun p v =>
             norm2 p = S754_infinity false ->
             Forall (fun a => f32_finite a = true) p ->
             Forall (fun a => exists s, a = S754_zero s) v)
          X (normalize X).
Proof.
  unfold normalize. induction X as [|p X IH]; cbn [map]; constructor;
    [|exact IH].
  apply f32_normalize_row_overflow.
Qed.

Section LatentsAreNormalized.
Context {A : Type} `{Scalar A}.

(** The latents a successful first stage leaves are the normalized
    projections. *)
Lemma latents_are_normalized (self : VoiceCLIP A) w h text speech_tokens
  text_mask tl sl h1 :
  holds self h w ->
  forward_latents self text speech_tokens text_mask h = (Ok (tl, sl), h1) ->
  exists pt ps,
    projections_fun self w text speech_tokens text_mask = Ok (pt, ps) /\
    tl = normalize pt /\ sl = normalize ps.
Proof.
  intros Hh Hrun.
  destruct (forward_latents_run self w text speech_tokens text_mask h Hh)
    as [extra Hfun].
  rewrite Hfun in Hrun. inversion Hrun as [[Hlat Hstore]]. clear Hrun.
  exact (forward_latents_fun_inv self w text speech_tokens text_mask tl sl Hlat).
Qed.

End LatentsAreNormalized.

(** C3, as amended.  Every latent [forward] produces is the normalization of
    a projection.

    - On the reals it has L2 norm 1 when the projection has norm at least
      [eps = 1e-12] and at most [1e19] (the sum of its squares is then within
      the range of binary32), and the norm of the projection divided by
      [eps], which is less than 1 and is 0 for a zero projection, when the
      projection has norm less than [eps].
    - On binary32, when the entries of the projection are zeros or finite
      numbers and its norm overflows to infinity, every entry of the latent
      is a zero. *)
Theorem latents_have_unit_norm_above_eps :
  (forall (self : VoiceCLIP R) w h text speech_tokens text_mask
          text_latents speech_latents h1,
      holds self h w ->
      forward_latents self text speech_tokens text_mask h
      = (Ok (text_latents, speech_latents), h1) ->
      exists pt ps,
        projections_fun self w text speech_tokens text_mask = Ok (pt, ps) /\
        text_latents = normalize pt /\
        speech_latents = normalize ps /\
        Forall2 (fun p v =>
                   (eps <= norm2 p <= 10 ^ 19 -> norm2 v = 1) /\
                   (norm2 p < eps -> norm2 v = norm2 p / eps /\ norm2 v < 1))
                (pt ++ ps) (text_latents ++ speech_latents)) /\
  (forall (self : VoiceCLIP float32) w h text speech_tokens text_mask
          text_latents speech_latents h1,
      holds self h w ->
      forward_latents self text speech_tokens text_mask h
      = (Ok (text_latents, speech_latents), h1) ->
      exists pt ps,
        projections_fun self w text speech_tokens text_mask = Ok (pt, ps) /\
        text_latents = normalize pt /\
        speech_latents = normalize ps /\
        Forall2 (fun p v =>
                   norm2 p = S754_infinity false ->
                   Forall (fun a => f32_finite a = true) p ->
                   Forall (fun a => exists s, a = S754_zero s) v)
                (pt ++ ps) (text_latents ++ speech_latents)).
Proof.
  split.
  - intros self w h text speech_tokens text_mask tl sl h1 Hh Hrun.
    destruct (latents_are_normalized self w h text speech_tokens text_mask
                tl sl h1 Hh Hrun) as (pt & ps & Hp & -> & ->).
    exists pt, ps. repeat split; try assumption.
    apply Forall2_app; apply normalize_rows_norm.
  - intros self w h text speech_tokens text_mask tl sl h1 Hh Hrun.
    destruct (latents_are_normalized self w h text speech_tokens text_mask
                tl sl h1 Hh Hrun) as (pt & ps & Hp & -> & ->).
    exists pt, ps. repeat split; try assumption.
    apply Forall2_app; apply f32_normalize_rows_overflow.
Qed.

Lemma eps_le_1 : eps <= 1.
Proof.
  unfold eps. rewrite <- Rinv_1.
  apply Rinv_le_contravar; [lra|]. simpl. lra.
Qed.

Lemma latents_have_unit_norm_above_eps_witness :
  (exists tl sl,
      fst (forward_latents tiny_model pair_text pair_speech None tiny_heap)
      = Ok (tl, sl) /\
      norm2 (nth 0 tl []) = 1) /\
  (exists tl sl,
      fst (forward_latents tiny_model pair_text pair_speech None
             (heap_of f32_huge_weights))
      = Ok (tl, sl) /\
      exists s, nth 0 tl [] = [S754_zero s]).
Proof.
  destruct latents_have_unit_norm_above_eps as [Hreal Hf32].
  split.
  - destruct (forward_latents tiny_model pair_text pair_speech None tiny_heap)
      as [[[tl sl]|e] h1] eqn:Hrun; [|discriminate Hrun].
    destruct (Hreal tiny_model tiny_weights tiny_heap
                pair_text pair_speech None tl sl h1)
      as (pt & ps & Hp & Htl & Hsl & Hnorm).
    + repeat split; reflexivity.
    + exact Hrun.
    + exists tl, sl. split; [reflexivity|].
      assert (Hq : exists p0 p1 q,
                 projections_fun tiny_model tiny_weights pair_text pair_speech
                   None = Ok ([[p0]; [p1]], q) /\ p0 = 1).
      { eexists; eexists; eexists. split; [reflexivity|].
        unfold dot, zip_with, vadd, zip_with, rsum, width. simpl. lra. }
      destruct Hq as (p0 & p1 & q & Hq & ->).
      rewrite Hq in Hp. inversion Hp; subst pt ps. clear Hp Hq.
      subst tl. simpl normalize in Hnorm. simpl app in Hnorm.
      inversion Hnorm as [|? ? ? ? [Hunit _] _]; subst. simpl nth.
      apply Hunit.
      assert (Hn : norm2 [1] = 1).
      { unfold norm2, rsum.
        cbn [map fold_left ssqrt smul sadd szero R_Scalar].
        replace (0 + 1 * 1) with 1 by lra. apply sqrt_1. }
      rewrite Hn. split; [apply eps_le_1|].
      apply pow_R1_Rle. lra.
  - destruct (forward_latents tiny_model pair_text pair_speech None
                (heap_of f32_huge_weights))
      as [[[tl sl]|e] h1] eqn:Hrun; [|discriminate Hrun].
    destruct (Hf32 tiny_model f32_huge_weights (heap_of f32_huge_weights)
                pair_text pair_speech None tl sl h1)
      as (pt & ps & Hp & Htl & Hsl & Hzero).
    + repeat split; reflexivity.
    + exact Hrun.
    + exists tl, sl. split; [reflexivity|].
      assert (Hq : projections_fun tiny_model f32_huge_weights pair_text
                     pair_speech None
                   = Ok ([[f32_1e30]; [SFopp f32_1e30]],
                         [[f32_one]; [f32_two]]))
        by (vm_compute; reflexivity).
      rewrite Hq in Hp. inversion Hp; subst pt ps. clear Hp Hq.
      subst tl. cbn [normalize map app] in Hzero.
      inversion Hzero as [|? ? ? ? Hrow _]; subst. cbn [nth].
      assert (Hz : Forall (fun a => exists s, a = S754_zero s)
                          (normalize_row [f32_1e30])).
      { apply Hrow; [vm_compute; reflexivity | repeat constructor]. }
      unfold normalize_row in Hz |- *. cbn [map] in Hz |- *.
      apply Forall_inv in Hz. destruct Hz as [s Hs]. exists s.
      unfold normalize, normalize_row. cbn [map nth].
      rewrite Hs. reflexivity.
Defined.

Lemma zero_row_stays_zero : norm2 (normalize_row [0]) = 0.
Proof.
  destruct (normalize_row_norm [0]) as [_ Hsmall].
  assert (Hn : norm2 [0] = 0).
  { unfold norm2, rsum.
    cbn [map fold_left ssqrt smul sadd szero R_Scalar].
    replace (0 + 0 * 0) with 0 by lra. apply sqrt_0. }
  rewrite Hsmall by (rewrite Hn; apply eps_pos).
  rewrite Hn. unfold Rdiv. apply Rmult_0_l.
Qed.

(** C3, as stated, fails: a text whose two embedded rows cancel is pooled and
    projected to the zero vector, which normalization leaves at norm 0. *)
Lemma cancelling_text_has_zero_latent :
  exists tl sl,
    fst (forward_latents tiny_model tiny_text tiny_speech None tiny_heap)
    = Ok (tl, sl) /\
    exists v, In v tl /\ norm2 v = 0 /\ norm2 v <> 1.
Proof.
  eexists. eexists. split; [reflexivity|].
  eexists. split; [left; reflexivity|].
  match goal with
  | |- norm2 (normalize_row [?z]) = 0 /\ _ =>
      assert (Hz : z = 0)
  end.
  { unfold dot, zip_with, vadd, zip_with, rsum, width. simpl. lra. }
  rewrite Hz, zero_row_stays_zero. split; [reflexivity | lra].
Qed.

(** * Further properties *)

(** ** What [masked_mean] reads and when it raises *)

Lemma aligned_nth {A} (t : tensor3 A) (mask : list (list bool)) :
  Forall2 (fun rows mrow => length mrow = length rows) t mask ->
  forall i, length (nth i mask []) = length (nth i t []).
Proof.
  induction 1 as [|rows mrow t mask Hlen _ IH]; intros [|i]; simpl;
    try reflexivity; [exact Hlen | apply IH].
Qed.

Lemma fill_rows_ext {A} `{Scalar A} (rows rows' : list (list A))
  (mrow : list bool) :
  length mrow = length rows -> length mrow = length rows' ->
  (forall k, length (nth k rows []) = length (nth k rows' [])) ->
  (forall k, nth k mrow false = true -> nth k rows [] = nth k rows' []) ->
  fill_rows rows mrow = fill_rows rows' mrow.
Proof.
  intros Hl Hl' Hlen Hkept. unfold fill_rows.
  apply (nth_ext _ _ [] []).
  - rewrite !length_zip_with; congruence.
  - intros k Hk. rewrite length_zip_with in Hk by congruence.
    rewrite (nth_zip_with _ rows mrow k [] false []) by congruence.
    rewrite (nth_zip_with _ rows' mrow k [] false []) by congruence.
    destruct (nth k mrow false) eqn:Hm; simpl.
    + apply Hkept; exact Hm.
    + rewrite !map_const_repeat, Hlen. reflexivity.
Qed.

Lemma bzip_error_inv {A B C} (f : A -> B -> result C) xs ys e :
  bzip f xs ys = Error e ->
  e = ShapeError \/ exists x y, f x y = Error e.
Proof.
  unfold bzip. destruct (Nat.eqb (length xs) (length ys)).
  - intros Hm. apply mapM_error_inv in Hm. destruct Hm as ([x y] & _ & Hf).
    right; exists x, y; exact Hf.
  - destruct xs as [|x [|x' xs]].
    + destruct ys as [|y [|y' ys]]; intros Hm.
      * inversion Hm; left; reflexivity.
      * simpl in Hm; discriminate.
      * inversion Hm; left; reflexivity.
    + intros Hm. apply mapM_error_inv in Hm. destruct Hm as (y & _ & Hf).
      right; exists x, y; exact Hf.
    + destruct ys as [|y [|y' ys]]; intros Hm.
      * inversion Hm; left; reflexivity.
      * apply mapM_error_inv in Hm. destruct Hm as (z & _ & Hf).
        right; exists z, y; exact Hf.
      * inversion Hm; left; reflexivity.
Qed.

(** Extents that differ, neither of them 1, do not broadcast. *)
Lemma bzip_mismatch {A B C} (f : A -> B -> result C) xs ys :
  length xs <> length ys -> length xs <> 1%nat -> length ys <> 1%nat ->
  bzip f xs ys = Error ShapeError.
Proof.
  intros Hne Hx Hy. unfold bzip.
  replace (Nat.eqb (length xs) (length ys)) with false
    by (symmetry; apply Nat.eqb_neq; exact Hne).
  destruct xs as [|x [|x' xs]]; destruct ys as [|y [|y' ys]];
    simpl in *; try reflexivity; contradiction.
Qed.

Section MaskedMeanFacts.
Context {A : Type} `{Scalar A}.

(** X1.  [masked_mean] does not read the positions its mask drops: two
    tensors of the same shape that agree wherever the mask is [true] have
    the same masked mean, whatever they hold elsewhere. *)
Theorem masked_mean_ignores_dropped :
  forall (t t' : tensor3 A) (mask : list (list bool)) (dim : nat),
    Forall2 (fun rows mrow => length mrow = length rows) t mask ->
    Forall2 (fun rows mrow => length mrow = length rows) t' mask ->
    (forall i k, length (nth k (nth i t []) [])
                 = length (nth k (nth i t' []) [])) ->
    (forall i k, nth k (nth i mask []) false = true ->
                 nth k (nth i t []) [] = nth k (nth i t' []) []) ->
    masked_mean t mask dim = masked_mean t' mask dim.
Proof.
  intros t t' mask dim Hal Hal' Hlen Hkept.
  rewrite (masked_mean_aligned dim Hal), (masked_mean_aligned dim Hal').
  f_equal.
  assert (Hb := Forall2_length Hal). assert (Hb' := Forall2_length Hal').
  apply (nth_ext _ _ [] []).
  - rewrite !length_zip_with; congruence.
  - intros i Hi. rewrite length_zip_with in Hi by congruence.
    rewrite (nth_zip_with _ t mask i [] [] []) by congruence.
    rewrite (nth_zip_with _ t' mask i [] [] []) by congruence.
    unfold pool_rows. rewrite (fill_rows_ext (nth i t []) (nth i t' [])).
    + reflexivity.
    + apply aligned_nth; exact Hal.
    + apply aligned_nth; exact Hal'.
    + intros k; apply Hlen.
    + intros k; apply Hkept.
Qed.

(** X3.  [masked_mean] raises nothing but a shape error; it raises one when
    the batch extents of tensor and mask differ and neither is 1, and when,
    the batch extents being equal, some example's mask and sequence differ
    in length and neither length is 1. *)
Theorem masked_mean_shape_errors :
  forall (t : tensor3 A) (mask : list (list bool)) (dim : nat),
    (forall e, masked_mean t mask dim = Error e -> e = ShapeError) /\
    (length t <> length mask -> length t <> 1%nat -> length mask <> 1%nat ->
     masked_mean t mask dim = Error ShapeError) /\
    (length t = length mask ->
     (exists i, length (nth i t []) <> length (nth i mask []) /\
                length (nth i t []) <> 1%nat /\
                length (nth i mask []) <> 1%nat) ->
     masked_mean t mask dim = Error ShapeError).
Proof.
  intros t mask dim.
  assert (Honly : forall e, masked_mean t mask dim = Error e -> e = ShapeError).
  { intros e. unfold masked_mean, masked_fill, div_counts.
    destruct (bzip _ t (map (map negb) mask)) as [t1|e1] eqn:Hfill; simpl.
    - intros Hdiv. apply bzip_error_inv in Hdiv.
      destruct Hdiv as [He|(vec & n & Hvn)]; [exact He|].
      apply bzip_error_inv in Hvn.
      destruct Hvn as [He|(x & y & Hxy)]; [exact He | discriminate].
    - intros He; inversion He; subst e1.
      apply bzip_error_inv in Hfill.
      destruct Hfill as [He'|(rows & mrow & Hrm)]; [exact He'|].
      apply bzip_error_inv in Hrm.
      destruct Hrm as [He'|(x & y & Hxy)]; [exact He' | discriminate]. }
  split; [exact Honly|]. split.
  - intros Hne Ht Hm. unfold masked_mean, masked_fill.
    rewrite bzip_mismatch; [reflexivity | | exact Ht |];
      rewrite length_map; assumption.
  - intros Hb (i & Hne & Hr & Hm).
    destruct (masked_mean t mask dim) as [out|e] eqn:Hrun.
    2:{ rewrite (Honly e eq_refl). reflexivity. }
    exfalso. clear Honly. unfold masked_mean, masked_fill in Hrun.
    rewrite bzip_same_length in Hrun by (rewrite length_map; exact Hb).
    destruct (mapM _ (combine t (map (map negb) mask))) as [t1|e1] eqn:Hfill;
      [|discriminate Hrun].
    clear Hrun out. revert mask Hb i Hne Hr Hm t1 Hfill.
    induction t as [|rows t IH]; intros [|mrow mask] Hb i Hne Hr Hm t1 Hfill;
      simpl in Hb; try discriminate.
    + destruct i; simpl in Hne; contradiction.
    + simpl in Hfill.
      destruct (bzip _ rows (map negb mrow)) as [r1|e1] eqn:Hrow;
        [|discriminate Hfill].
      destruct (mapM _ (combine t (map (map negb) mask))) as [t2|e2] eqn:Hrest;
        [|discriminate Hfill].
      destruct i as [|i]; simpl in Hne, Hr, Hm.
      * rewrite bzip_mismatch in Hrow;
          [discriminate | | exact Hr |]; rewrite length_map; assumption.
      * eapply (IH mask); try eassumption. lia.
Qed.

End MaskedMeanFacts.

Lemma masked_mean_ignores_dropped_witness :
  masked_mean [[[f32_one; f32_two]; [f32_three; f32_four]]] [[true; false]] 1
  = masked_mean [[[f32_one; f32_two]; [f32_nan; S754_infinity true]]]
                [[true; false]] 1.
Proof.
  apply (masked_mean_ignores_dropped
           [[[f32_one; f32_two]; [f32_three; f32_four]]]
           [[[f32_one; f32_two]; [f32_nan; S754_infinity true]]]
           [[true; false]] 1).
  - repeat constructor.
  - repeat constructor.
  - intros [|[|i]] [|[|[|k]]]; reflexivity.
  - intros [|[|i]] [|[|[|k]]]; simpl; intros Hk; try discriminate Hk;
      reflexivity.
Defined.

Lemma masked_mean_shape_errors_witness :
  masked_mean [[[f32_one]]; [[f32_two]]; [[f32_three]]] [[true]; [true]] 1
  = Error ShapeError /\
  masked_mean [[[f32_one]; [f32_two]; [f32_three]]] [[true; true]] 1
  = Error ShapeError.
Proof.
  destruct (masked_mean_shape_errors
              [[[f32_one]]; [[f32_two]]; [[f32_three]]] [[true]; [true]] 1)
    as (_ & Hbatch & _).
  destruct (masked_mean_shape_errors
              [[[f32_one]; [f32_two]; [f32_three]]] [[true; true]] 1)
    as (_ & _ & Hseq).
  split.
  - apply Hbatch; simpl; lia.
  - apply Hseq; [reflexivity|]. exists 0%nat. simpl. repeat split; lia.
Defined.

(** ** The masked mean on the reals *)

Lemma vadd_zeros_r (acc : list R) (vec : list R) :
  length vec = length acc ->
  vadd acc (map (fun _ => 0) vec) = acc.
Proof.
  unfold vadd, zip_with. revert vec; induction acc as [|a acc IH];
    intros [|v vec] Hlen; simpl in *; try discriminate; [reflexivity|].
  rewrite IH by lia. f_equal. lra.
Qed.

Lemma vadd_length (x y : list R) d :
  length x = d -> length y = d -> length (vadd x y) = d.
Proof.
  intros Hx Hy. unfold vadd, zip_with. rewrite length_map, length_combine. lia.
Qed.

(** Adding the rows with the dropped ones zeroed is adding the kept rows. *)
Lemma sum_fill_is_sum_kept d (rows : list (list R)) : forall mrow acc,
  Forall (fun vec => length vec = d) rows -> length acc = d ->
  fold_left vadd (fill_rows rows mrow) acc
  = fold_left vadd (kept_rows rows mrow) acc.
Proof.
  unfold fill_rows, kept_rows, zip_with.
  induction rows as [|r rows IH]; intros [|m mrow] acc Hd Hacc; simpl;
    try reflexivity.
  inversion Hd as [|? ? Hr Hrows]; subst.
  destruct m; simpl.
  - apply IH; [exact Hrows | apply vadd_length; [reflexivity | exact Hr]].
  - rewrite vadd_zeros_r by congruence. apply IH; [exact Hrows | reflexivity].
Qed.

Lemma kept_rows_count {A} (rows : list (list A)) : forall mrow,
  length mrow = length rows ->
  length (kept_rows rows mrow) = length (filter (fun x => x) mrow).
Proof.
  unfold kept_rows.
  induction rows as [|r rows IH]; intros [|m mrow] Hlen; simpl in *;
    try discriminate; [reflexivity|].
  destruct m; simpl; [f_equal|]; apply IH; lia.
Qed.

Lemma kept_rows_rect {A} d (rows : list (list A)) : forall mrow,
  Forall (fun vec => length vec = d) rows ->
  Forall (fun vec => length vec = d) (kept_rows rows mrow).
Proof.
  unfold kept_rows.
  induction rows as [|r rows IH]; intros [|m mrow] Hd; simpl; try constructor.
  inversion Hd; subst.
  destruct m; simpl; [constructor; [reflexivity|]|]; apply IH; assumption.
Qed.

Lemma count_true_pos (mrow : list bool) :
  In true mrow -> (1 <= length (filter (fun x => x) mrow))%nat.
Proof.
  induction mrow as [|m mrow IH]; simpl; intros Hin; [contradiction|].
  destruct m; simpl; [lia|]. destruct Hin as [Hm|Hin]; [discriminate|].
  apply IH; exact Hin.
Qed.

Lemma width_nonempty {A} d (rows : list (list A)) :
  (1 <= length rows)%nat -> Forall (fun vec => length vec = d) rows ->
  width rows = d.
Proof.
  intros Hlen Hd. destruct rows as [|r rows]; simpl in *; [lia|].
  inversion Hd; subst. reflexivity.
Qed.

(** One example: the masked mean is the plain mean of the kept rows. *)
Lemma pool_rows_is_mean_of_kept d (rows : list (list R)) (mrow : list bool) :
  length mrow = length rows ->
  Forall (fun vec => length vec = d) rows ->
  In true mrow ->
  pool_rows rows mrow
  = map (fun x => x / INR (length (kept_rows rows mrow)))
        (fold_left vadd (kept_rows rows mrow)
                   (repeat 0 (width (kept_rows rows mrow)))).
Proof.
  intros Hlen Hd Hin. unfold pool_rows.
  assert (Hcount := count_true_pos mrow Hin).
  assert (Hk := kept_rows_count rows mrow Hlen).
  assert (Hwk : width (kept_rows rows mrow) = d).
  { apply width_nonempty; [lia | apply kept_rows_rect; exact Hd]. }
  assert (Hwf : width (fill_rows rows mrow) = d).
  { apply (width_of_shape (fill_rows rows mrow) (length rows) d).
    - assert (length (filter (fun x => x) mrow) <= length mrow)%nat
        by apply filter_length_le.
      lia.
    - apply fill_rows_shape; [split; [reflexivity | exact Hd] | exact Hlen]. }
  rewrite Hwf, Hwk, Hk.
  rewrite (sum_fill_is_sum_kept d) by (try assumption; apply repeat_length).
  reflexivity.
Qed.

(** X2.  On the reals, for a [(b, L, d)] tensor and a [(b, L)] mask that
    keeps at least one position of every example, [masked_mean] returns the
    plain mean over the sequence axis of the kept rows alone: the sum of the
    kept rows divided by their number. *)
Theorem masked_mean_is_mean_of_kept :
  forall (t : tensor3 R) (mask : list (list bool)) (dim b L d : nat),
    shape3 t b L d -> shape2 mask b L ->
    Forall (fun mrow => In true mrow) mask ->
    masked_mean t mask dim = Ok (mean_dim1 (zip_with kept_rows t mask)).
Proof.
  intros t mask dim b L d [Hb Ht] [Hmb HmL] Hkeep.
  assert (Hal : Forall2 (fun rows mrow => length mrow = length rows) t mask).
  { clear Hkeep. revert b mask Hb Hmb HmL. induction Ht as [|rows t Hrows _ IH];
      intros b [|mrow mask] Hb Hmb HmL; simpl in *; try (subst; discriminate);
      constructor.
    - inversion HmL; subst. destruct Hrows as [Hl _]. congruence.
    - inversion HmL; subst. eapply IH; [reflexivity | | assumption].
      simpl in Hmb. lia. }
  rewrite (masked_mean_aligned dim Hal). apply f_equal.
  unfold mean_dim1, zip_with. rewrite map_map.
  apply map_ext_in. intros [rows mrow] Hin. simpl fst; simpl snd.
  assert (Hrows : In rows t) by (eapply in_combine_l; exact Hin).
  assert (Hmrow : In mrow mask) by (eapply in_combine_r; exact Hin).
  rewrite Forall_forall in Ht, HmL, Hkeep.
  destruct (Ht rows Hrows) as [HL Hd].
  apply (pool_rows_is_mean_of_kept d); [|exact Hd | apply Hkeep; exact Hmrow].
  rewrite (HmL mrow Hmrow). symmetry; exact HL.
Qed.

Lemma masked_mean_is_mean_of_kept_witness :
  masked_mean [[[1; 2]; [3; 4]; [5; 6]]] [[true; false; true]] 1
  = Ok (mean_dim1 [[[1; 2]; [5; 6]]]).
Proof.
  apply (masked_mean_is_mean_of_kept
           [[[1; 2]; [3; 4]; [5; 6]]] [[true; false; true]] 1 1 3 2).
  - repeat split; repeat constructor.
  - repeat split; repeat constructor.
  - repeat constructor.
Defined.

(** ** What the embedding stage puts in the store *)

Lemma mapM_nth {A B} (f : A -> result B) (xs : list A) (ys : list B) i a :
  mapM f xs = Ok ys -> nth_error xs i = Some a ->
  exists b, f a = Ok b /\ nth_error ys i = Some b.
Proof.
  revert ys i; induction xs as [|x xs IH]; intros ys i Hm Hi;
    [destruct i; discriminate|].
  simpl in Hm. destruct (f x) as [y|e] eqn:Hx; [|discriminate].
  destruct (mapM f xs) as [ys'|e] eqn:Hxs; [|discriminate].
  simpl in Hm. inversion Hm; subst ys. destruct i as [|i]; simpl in *.
  - inversion Hi; subst. exists y; split; [exact Hx | reflexivity].
  - apply (IH ys' i eq_refl Hi).
Qed.

Lemma nth_error_combine {A B} (xs : list A) (ys : list B) i a b :
  nth_error xs i = Some a -> nth_error ys i = Some b ->
  nth_error (combine xs ys) i = Some (a, b).
Proof.
  revert ys i; induction xs as [|x xs IH]; intros [|y ys] [|i] Ha Hb;
    simpl in *; try discriminate.
  - inversion Ha; inversion Hb; reflexivity.
  - apply IH; assumption.
Qed.

Lemma lookup_ok_inv s (w : matrix R) i e :
  lookup s w i = Ok e ->
  in_range (length w) i = true /\ nth_error w (Z.to_nat i) = Some e.
Proof.
  unfold lookup, in_range.
  destruct ((0 <=? i)%Z && (i <? Z.of_nat (length w))%Z)%bool; [|discriminate].
  destruct (nth_error w (Z.to_nat i)) as [row|]; [|discriminate].
  intros Heq; inversion Heq; subst. split; reflexivity.
Qed.

(** One modality: position [k] of example [i] holds the table row of its id
    plus row [k] of the positional table. *)
Lemma embed_one_value s s' (w p : matrix R) N M d ids n x :
  shape2 w N d -> shape2 p M d ->
  Forall (fun r => length r = n) ids ->
  embed_one_fun s s' w p ids n = Ok x ->
  forall i k row id,
    nth_error ids i = Some row -> nth_error row k = Some id ->
    exists e q,
      in_range N id = true /\
      nth_error w (Z.to_nat id) = Some e /\
      nth_error p k = Some q /\
      nth_error (nth i x []) k = Some (zip_with Rplus e q).
Proof.
  intros [HwN Hwd] [HpM Hpd] Hwf Hrun i k row id Hrow Hid.
  unfold embed_one_fun in Hrun.
  destruct (embedding_2d s w ids) as [te|e0] eqn:Hte; [|discriminate].
  simpl in Hrun. rewrite positional_lookup in Hrun.
  destruct (Nat.leb n (length p)) eqn:Hn; [|discriminate].
  apply Nat.leb_le in Hn. simpl in Hrun.
  (* the content rows *)
  destruct (mapM_nth _ _ _ i row Hte Hrow) as (rows_i & Hrows_i & Hte_i).
  destruct (mapM_nth _ _ _ k id Hrows_i Hid) as (e & He & Hrows_k).
  destruct (lookup_ok_inv s w id e He) as [Hrange Hwe].
  (* the positional row *)
  assert (Hlen_row : length row = n).
  { rewrite Forall_forall in Hwf. apply Hwf. eapply nth_error_In; exact Hrow. }
  assert (Hk : (k < n)%nat).
  { rewrite <- Hlen_row. apply nth_error_Some. congruence. }
  destruct (nth_error p k) as [q|] eqn:Hq.
  2:{ apply nth_error_None in Hq. lia. }
  assert (Htp : nth_error (firstn n p) k = Some q).
  { rewrite nth_error_firstn.
    replace (Nat.ltb k n) with true by (symmetry; apply Nat.ltb_lt; exact Hk).
    exact Hq. }
  (* the sum *)
  unfold add_pos in Hrun.
  destruct (mapM_nth _ _ _ i rows_i Hrun Hte_i) as (xi & Hxi & Hx_i).
  assert (Hlen_rows : length rows_i = n).
  { apply mapM_length in Hrows_i. congruence. }
  rewrite xzip_same_length in Hxi
    by (rewrite length_firstn; lia).
  destruct (mapM_nth _ _ _ k (e, q) Hxi (nth_error_combine _ _ _ _ _ Hrows_k Htp))
    as (v & Hv & Hxi_k).
  simpl in Hv.
  assert (Hle : length e = d).
  { rewrite Forall_forall in Hwd. apply Hwd. eapply nth_error_In; exact Hwe. }
  assert (Hlq : length q = d).
  { rewrite Forall_forall in Hpd. apply Hpd. eapply nth_error_In; exact Hq. }
  rewrite xzip_same_length in Hv by congruence.
  rewrite (mapM_pure (fun pr : R * R => fst pr + snd pr)) in Hv.
  inversion Hv; subst v.
  exists e, q. rewrite <- HwN. repeat split; try assumption.
  rewrite (nth_error_nth x i [] Hx_i). exact Hxi_k.
Qed.

(** X4.  When lines 68 to 72 get through, on a model with the shapes
    [__init__] gives, the two tensors they return hold, at position [k] of
    example [i], the content row of the id found there plus row [k] of the
    positional table of that modality: the same positional row for every
    example, and an id that is in its vocabulary. *)
Theorem embed_adds_content_and_position :
  forall cfg self w h text speech_tokens rx ry h',
    holds self h w ->
    model_ok cfg w ->
    wf_ids text -> wf_ids speech_tokens ->
    embed self text speech_tokens h = (Ok (rx, ry), h') ->
    exists x y,
      nth_error h' rx = Some (Cube x) /\
      nth_error h' ry = Some (Cube y) /\
      (forall i k row id,
          nth_error (data text) i = Some row -> nth_error row k = Some id ->
          exists e q,
            in_range (num_text_tokens cfg) id = true /\
            nth_error (W_text_emb w) (Z.to_nat id) = Some e /\
            nth_error (W_text_pos_emb w) k = Some q /\
            nth_error (nth i x []) k = Some (zip_with Rplus e q)) /\
      (forall i k row id,
          nth_error (data speech_tokens) i = Some row ->
          nth_error row k = Some id ->
          exists e q,
            in_range (num_speech_tokens cfg) id = true /\
            nth_error (W_speech_emb w) (Z.to_nat id) = Some e /\
            nth_error (W_speech_pos_emb w) k = Some q /\
            nth_error (nth i y []) k = Some (zip_with Rplus e q)).
Proof.
  intros cfg self w h text speech_tokens rx ry h' Hh Hok Hwt Hws Hrun.
  destruct Hok as (Hte & Htp & _ & Hse & Hsp & _).
  destruct (embed_run self w text speech_tokens h Hh)
    as [extra (Herr1 & Herr2 & Hgood)].
  destruct (embed_text_fun w text) as [x|e] eqn:Hx.
  2:{ rewrite (Herr1 e eq_refl) in Hrun. discriminate. }
  destruct (embed_speech_fun w speech_tokens) as [y|e] eqn:Hy.
  2:{ rewrite (Herr2 x e eq_refl eq_refl) in Hrun. discriminate. }
  destruct (Hgood x y eq_refl eq_refl) as (rx' & ry' & Hrun' & Hcx & Hcy).
  rewrite Hrun' in Hrun. inversion Hrun; subst rx' ry' h'. clear Hrun.
  exists x, y. split; [exact Hcx|]. split; [exact Hcy|]. split.
  - exact (embed_one_value TextEmb TextPosEmb _ _ _ _ _ _ _ _ Hte Htp Hwt Hx).
  - exact (embed_one_value SpeechEmb SpeechPosEmb _ _ _ _ _ _ _ _ Hse Hsp Hws Hy).
Qed.

Lemma embed_adds_content_and_position_witness :
  exists rx x,
    fst (embed tiny_model tiny_text tiny_speech tiny_heap) = Ok (rx, 9%nat) /\
    nth_error (snd (embed tiny_model tiny_text tiny_speech tiny_heap)) rx
    = Some (Cube x) /\
    nth_error (nth 0 x []) 1 = Some (zip_with Rplus [-1] [0]).
Proof.
  destruct (embed tiny_model tiny_text tiny_speech tiny_heap)
    as [[[rx ry]|e] h'] eqn:Hrun; [|discriminate Hrun].
  destruct (embed_adds_content_and_position tiny_config tiny_model
              tiny_weights tiny_heap tiny_text tiny_speech rx ry h')
    as (x & y & Hcx & _ & Htext & _).
  - repeat split; reflexivity.
  - repeat split; repeat constructor.
  - repeat constructor.
  - repeat constructor.
  - exact Hrun.
  - exists rx, x. split; [inversion Hrun; reflexivity|].
    split; [exact Hcx|].
    destruct (Htext 0%nat 1%nat [0; 1]%Z 1%Z eq_refl eq_refl)
      as (e & q & _ & He & Hq & Hval).
    simpl in He, Hq. inversion He; inversion Hq; subst. exact Hval.
Defined.

(** ** Symmetry of the similarity head *)

Lemma dot_comm (x y : list R) : dot x y = dot y x.
Proof.
  unfold dot, zip_with. f_equal.
  revert y; induction x as [|a x IH]; intros [|c y]; simpl; try reflexivity.
  rewrite IH. f_equal. lra.
Qed.

Lemma grid_ext b (f g : nat -> nat -> R) :
  (forall i j, (i < b)%nat -> (j < b)%nat -> f i j = g i j) ->
  grid b f = grid b g.
Proof.
  intros Hfg. unfold grid. apply map_ext_in. intros i Hi.
  apply map_ext_in. intros j Hj.
  apply in_seq in Hi. apply in_seq in Hj. apply Hfg; lia.
Qed.

Lemma spec_directional_ce_ext b (f g : nat -> nat -> R) :
  (forall i j, (i < b)%nat -> (j < b)%nat -> f i j = g i j) ->
  spec_directional_ce b f = spec_directional_ce b g.
Proof.
  intros Hfg. unfold spec_directional_ce. f_equal. f_equal.
  apply map_ext_in. intros i Hi. apply in_seq in Hi.
  rewrite (Hfg i i) by lia.
  replace (map (fun j => exp (f i j)) (seq 0 b))
    with (map (fun j => exp (g i j)) (seq 0 b)); [reflexivity|].
  apply map_ext_in. intros j Hj. apply in_seq in Hj.
  rewrite (Hfg i j) by lia. reflexivity.
Qed.

(** The matrix of dot products, entry by entry. *)
Lemma dot_grid (tl sl : matrix R) b d :
  shape2 tl b d -> shape2 sl b d ->
  map (fun x => map (fun y => dot x y) sl) tl
  = grid b (fun i j => dot (nth i tl []) (nth j sl [])).
Proof.
  intros [Htl _] [Hsl _]. unfold grid.
  rewrite (map_nth_seq tl []) at 1. rewrite map_map, Htl.
  apply map_ext. intros i.
  rewrite (map_nth_seq sl []) at 1. rewrite map_map, Hsl.
  reflexivity.
Qed.

Lemma zip_with_dot_comm (tl sl : matrix R) :
  zip_with dot tl sl = zip_with dot sl tl.
Proof.
  unfold zip_with. revert sl; induction tl as [|x tl IH]; intros [|y sl];
    simpl; try reflexivity.
  rewrite IH, dot_comm. reflexivity.
Qed.

(** X5.  The head does not depend on which batch of latents is called text
    and which speech: for two batches of [b] latents of one width, exchanging
    them transposes the matrix of dot products and leaves the loss of lines
    95 to 98 and the scores of lines 91 to 93 as they are. *)
Theorem head_is_symmetric :
  forall temp b d (tl sl : matrix R),
    shape2 tl b d -> shape2 sl b d ->
    (exists sim,
        einsum_id_jd_ij tl sl = Ok sim /\
        einsum_id_jd_ij sl tl = Ok (transpose sim)) /\
    contrastive_loss temp b sl tl = contrastive_loss temp b tl sl /\
    scores temp sl tl = scores temp tl sl.
Proof.
  intros temp b d tl sl Htl Hsl. split; [|split].
  - exists (map (fun x => map (fun y => dot x y) sl) tl). split.
    + apply (einsum_matrix_value tl sl b b d Htl Hsl).
    + rewrite (einsum_matrix_value sl tl b b d Hsl Htl).
      rewrite (dot_grid tl sl b d Htl Hsl), (dot_grid sl tl b d Hsl Htl).
      rewrite transpose_grid. apply f_equal.
      apply grid_ext. intros i j _ _. apply dot_comm.
  - rewrite (contrastive_loss_spec temp b d sl tl Hsl Htl).
    rewrite (contrastive_loss_spec temp b d tl sl Htl Hsl).
    apply f_equal. unfold spec_loss; cbv zeta.
    rewrite (spec_directional_ce_ext b
               (spec_similarity temp sl tl)
               (fun j i => spec_similarity temp tl sl i j))
      by (intros i j _ _; unfold spec_similarity; rewrite dot_comm; reflexivity).
    rewrite (spec_directional_ce_ext b
               (fun j i => spec_similarity temp sl tl i j)
               (spec_similarity temp tl sl))
      by (intros i j _ _; unfold spec_similarity; rewrite dot_comm; reflexivity).
    lra.
  - rewrite (scores_value temp sl tl b d Hsl Htl).
    rewrite (scores_value temp tl sl b d Htl Hsl).
    rewrite zip_with_dot_comm. reflexivity.
Qed.

Lemma head_is_symmetric_witness :
  contrastive_loss 2 2 [[3; 4]; [5; 6]] [[1; 0]; [0; 1]]
  = contrastive_loss 2 2 [[1; 0]; [0; 1]] [[3; 4]; [5; 6]] /\
  scores 2 [[3; 4]; [5; 6]] [[1; 0]; [0; 1]]
  = scores 2 [[1; 0]; [0; 1]] [[3; 4]; [5; 6]].
Proof.
  destruct (head_is_symmetric 2 2 2 [[1; 0]; [0; 1]] [[3; 4]; [5; 6]])
    as (_ & Hloss & Hscores).
  - repeat split; repeat constructor.
  - repeat split; repeat constructor.
  - split; [exact Hloss | exact Hscores].
Defined.

(** ** Bounds on the loss, on the reals *)

Lemma dot_cons a c (x y : list R) : dot (a :: x) (c :: y) = a * c + dot x y.
Proof. unfold dot, zip_with. simpl. apply rsum_cons. Qed.

Lemma cauchy_schwarz_step a c D X Y :
  0 <= X -> 0 <= Y -> D * D <= X * Y ->
  (a * c + D) * (a * c + D) <= (a * a + X) * (c * c + Y).
Proof.
  intros HX HY HD.
  assert (H1 : 2 * (a * c) * D <= a * a * Y + c * c * X).
  { destruct (Rle_or_lt (2 * (a * c) * D) (a * a * Y + c * c * X)) as [H|H];
      [exact H|].
    exfalso.
    set (u := a * a * Y + c * c * X) in *.
    set (v := 2 * (a * c) * D) in *.
    assert (H0 : 0 <= u) by (unfold u; nra).
    assert (H2 : u * u < v * v) by nra.
    assert (H3 : v * v <= 4 * ((a * a) * (c * c)) * (X * Y)).
    { assert (Hac : 0 <= (a * a) * (c * c)) by nra.
      replace (v * v) with (4 * ((a * a) * (c * c)) * (D * D))
        by (unfold v; ring).
      apply Rmult_le_compat_l; [lra | exact HD]. }
    assert (H4 : 4 * ((a * a) * (c * c)) * (X * Y) <= u * u).
    { assert (Hsq := Rle_0_sqr (a * a * Y - c * c * X)). unfold Rsqr in Hsq.
      replace (u * u) with
        (4 * ((a * a) * (c * c)) * (X * Y)
         + (a * a * Y - c * c * X) * (a * a * Y - c * c * X))
        by (unfold u; ring).
      lra. }
    lra. }
  replace ((a * c + D) * (a * c + D))
    with (a * a * (c * c) + 2 * (a * c) * D + D * D) by ring.
  replace ((a * a + X) * (c * c + Y))
    with (a * a * (c * c) + (a * a * Y + c * c * X) + X * Y) by ring.
  lra.
Qed.

(** The Cauchy-Schwarz inequality for [dot], which pairs the entries up to
    the shorter of its arguments. *)
Lemma dot_square_le (x : list R) : forall y,
  dot x y * dot x y
  <= rsum (map (fun a => a * a) x) * rsum (map (fun a => a * a) y).
Proof.
  induction x as [|a x IH]; intros [|c y].
  - unfold dot, zip_with; simpl. rewrite rsum_nil. lra.
  - unfold dot, zip_with; simpl map at 1 2 3. rewrite !rsum_nil. lra.
  - assert (H := sum_squares_nonneg (a :: x)).
    unfold dot, zip_with; simpl combine; simpl map at 1 2 4.
    rewrite !rsum_nil. lra.
  - rewrite dot_cons. simpl map. rewrite !rsum_cons.
    apply cauchy_schwarz_step; [apply sum_squares_nonneg .. | apply IH].
Qed.

Lemma abs_dot_le (x y : list R) : Rabs (dot x y) <= norm2 x * norm2 y.
Proof.
  unfold norm2.
  rewrite <- sqrt_mult by apply sum_squares_nonneg.
  rewrite <- sqrt_Rsqr_abs. apply sqrt_le_1_alt.
  unfold Rsqr. apply dot_square_le.
Qed.

(** A normalized row is never longer than 1. *)
Lemma normalize_row_norm_le_1 (v : list R) : norm2 (normalize_row v) <= 1.
Proof.
  destruct (normalize_row_norm v) as [Hbig Hsmall].
  destruct (Rle_or_lt eps (norm2 v)) as [H|H].
  - rewrite (Hbig H). lra.
  - rewrite (Hsmall H). assert (He := eps_pos).
    apply (Rmult_le_reg_r eps); [exact He|].
    unfold Rdiv. rewrite Rmult_assoc, Rinv_l by lra. lra.
Qed.

Lemma nth_normalize (X : matrix R) i :
  nth i (normalize X) [] = normalize_row (nth i X []).
Proof.
  unfold normalize. change (@nil R) with (normalize_row []) at 1.
  apply map_nth.
Qed.

(** The dot product of two latents is between -1 and 1. *)
Lemma latent_dot_le_1 (X Y : matrix R) i j :
  Rabs (dot (nth i (normalize X) []) (nth j (normalize Y) [])) <= 1.
Proof.
  rewrite !nth_normalize.
  eapply Rle_trans; [apply abs_dot_le|].
  assert (H1 := normalize_row_norm_le_1 (nth i X [])).
  assert (H2 := normalize_row_norm_le_1 (nth j Y [])).
  assert (H3 := norm2_nonneg (normalize_row (nth i X []))).
  assert (H4 := norm2_nonneg (normalize_row (nth j Y []))).
  nra.
Qed.

Lemma similarity_bounded temp (X Y : matrix R) i j :
  0 <= temp ->
  Rabs (spec_similarity temp (normalize X) (normalize Y) i j) <= temp.
Proof.
  intros Ht. unfold spec_similarity. rewrite Rabs_mult, (Rabs_right temp) by lra.
  assert (H := latent_dot_le_1 X Y i j).
  assert (H0 := Rabs_pos (dot (nth i (normalize X) []) (nth j (normalize Y) []))).
  nra.
Qed.

Lemma rsum_app (xs ys : list R) : rsum (xs ++ ys) = rsum xs + rsum ys.
Proof.
  induction xs as [|x xs IH]; simpl app.
  - rewrite rsum_nil. lra.
  - rewrite !rsum_cons, IH. lra.
Qed.

Lemma rsum_pos (xs : list R) :
  Forall (fun x => 0 < x) xs -> (1 <= length xs)%nat -> 0 < rsum xs.
Proof.
  intros Hpos Hlen. destruct Hpos as [|x xs Hx Hxs]; simpl in Hlen; [lia|].
  rewrite rsum_cons.
  assert (0 <= rsum xs).
  { apply rsum_nonneg. eapply Forall_impl; [|exact Hxs].
    intros y Hy; simpl in Hy; lra. }
  lra.
Qed.

(** In a sum of two or more positive terms every term is less than the
    sum. *)
Lemma rsum_gt_term (xs : list R) i x :
  Forall (fun y => 0 < y) xs -> (2 <= length xs)%nat ->
  nth_error xs i = Some x -> x < rsum xs.
Proof.
  intros Hpos Hlen Hx.
  destruct (nth_error_split xs i Hx) as (l1 & l2 & -> & _).
  rewrite rsum_app, rsum_cons.
  apply Forall_app in Hpos. destruct Hpos as [H1 H2].
  inversion H2 as [|? ? _ H2']; subst.
  rewrite length_app in Hlen; simpl in Hlen.
  assert (Hn1 : 0 <= rsum l1).
  { apply rsum_nonneg. eapply Forall_impl; [|exact H1].
    intros y Hy; simpl in Hy; lra. }
  assert (Hn2 : 0 <= rsum l2).
  { apply rsum_nonneg. eapply Forall_impl; [|exact H2'].
    intros y Hy; simpl in Hy; lra. }
  destruct l1 as [|y l1].
  - assert (0 < rsum l2) by (apply rsum_pos; [exact H2' | simpl in Hlen; lia]).
    rewrite rsum_nil. lra.
  - assert (0 < rsum (y :: l1)) by (apply rsum_pos; [exact H1 | simpl; lia]).
    lra.
Qed.

Lemma spec_directional_ce_pos b f : (2 <= b)%nat -> 0 < spec_directional_ce b f.
Proof.
  intros Hb. unfold spec_directional_ce.
  apply Rdiv_lt_0_compat; [|apply lt_0_INR; lia].
  apply rsum_pos; [|rewrite length_map, length_seq; lia].
  apply Forall_forall. intros y Hy.
  apply in_map_iff in Hy. destruct Hy as (i & <- & Hi). apply in_seq in Hi.
  set (s := rsum (map (fun j => exp (f i j)) (seq 0 b))).
  assert (Hlt : exp (f i i) < s).
  { unfold s. apply (rsum_gt_term _ i).
    - apply Forall_forall. intros z Hz. apply in_map_iff in Hz.
      destruct Hz as (j & <- & _). apply exp_pos.
    - rewrite length_map, length_seq. exact Hb.
    - rewrite nth_error_map.
      rewrite (nth_error_nth' _ 0%nat) by (rewrite length_seq; lia).
      rewrite seq_nth by lia. reflexivity. }
  assert (Hpos := exp_pos (f i i)).
  assert (Hratio : 0 < exp (f i i) / s < 1).
  { split.
    - apply Rdiv_lt_0_compat; lra.
    - apply (Rmult_lt_reg_r s); [lra|]. unfold Rdiv.
      rewrite Rmult_assoc, Rinv_l by lra. lra. }
  assert (Hln : ln (exp (f i i) / s) < 0).
  { rewrite <- ln_1. apply ln_increasing; apply Hratio. }
  lra.
Qed.

Lemma ln_le_compat x y : 0 < x -> x <= y -> ln x <= ln y.
Proof.
  intros Hx [Hlt|Heq].
  - left. apply ln_increasing; assumption.
  - rewrite Heq. lra.
Qed.

Lemma exp_le_compat x y : x <= y -> exp x <= exp y.
Proof.
  intros [Hlt|Heq].
  - left. apply exp_increasing; exact Hlt.
  - rewrite Heq. lra.
Qed.

Lemma abs_le_inv x a : Rabs x <= a -> - a <= x <= a.
Proof. unfold Rabs. destruct (Rcase_abs x); lra. Qed.

Lemma rsum_map_le {A} (g : A -> R) c (l : list A) :
  (forall x, In x l -> g x <= c) -> rsum (map g l) <= INR (length l) * c.
Proof.
  induction l as [|x l IH]; intros Hg.
  - simpl. rewrite rsum_nil. lra.
  - simpl map. rewrite rsum_cons. simpl length. rewrite S_INR.
    assert (H1 := Hg x (or_introl eq_refl)).
    assert (H2 : rsum (map g l) <= INR (length l) * c)
      by (apply IH; intros y Hy; apply Hg; right; exact Hy).
    lra.
Qed.

Lemma spec_directional_ce_upper b f M :
  (1 <= b)%nat ->
  (forall i j, Rabs (f i j) <= M) ->
  spec_directional_ce b f <= ln (INR b) + 2 * M.
Proof.
  intros Hb Hf. unfold spec_directional_ce.
  assert (HINR : 0 < INR b) by (apply lt_0_INR; lia).
  apply (Rmult_le_reg_r (INR b)); [exact HINR|].
  unfold Rdiv. rewrite Rmult_assoc, Rinv_l by lra. rewrite Rmult_1_r.
  rewrite (Rmult_comm _ (INR b)).
  rewrite <- (length_seq b 0) at 2.
  apply rsum_map_le. intros i Hi. apply in_seq in Hi. cbv beta.
  set (s := rsum (map (fun j => exp (f i j)) (seq 0 b))).
  destruct (rsum_exp_pos (f i) b i) as [Hpos Hle]; [lia|]. fold s in Hle.
  change (exp (f i i) * / s) with (exp (f i i) / s).
  rewrite ln_quotient by lra. rewrite ln_exp.
  assert (Hs : s <= INR b * exp M).
  { unfold s. rewrite <- (length_seq b 0) at 2.
    apply rsum_map_le. intros j _. apply exp_le_compat.
    assert (H := Hf i j). apply abs_le_inv in H. lra. }
  assert (Hln : ln s <= ln (INR b) + M).
  { rewrite <- (ln_exp M). rewrite <- ln_mult by (try apply exp_pos; lra).
    apply ln_le_compat; lra. }
  assert (Hii := Hf i i). apply abs_le_inv in Hii. lra.
Qed.

(** ** Batches of different sizes *)

Section MismatchedBatches.
Context {A : Type} `{Scalar A}.

(** [forward_latents_ok] with a batch size for each side. *)
Lemma forward_latents_ok_sides cfg (self : VoiceCLIP A) w text speech_tokens
  text_mask :
  model_ok cfg w ->
  encoder_ok (text_transformer self) (dim_text cfg) ->
  encoder_ok (speech_transformer self) (dim_speech cfg) ->
  valid_sides cfg text speech_tokens text_mask ->
  exists pt ps,
    forward_latents_fun self w text speech_tokens text_mask
    = Ok (normalize pt, normalize ps) /\
    shape2 pt (size0 text) (dim_latent cfg) /\
    shape2 ps (size0 speech_tokens) (dim_latent cfg).
Proof.
  intros (Hte & Htp & Htl & Hse & Hsp & Hsl) Henc_t Henc_s
         (Hwt & Hws & Hit & His & [HLt1 HLt2] & [HLs1 HLs2] & Hmf & _).
  unfold forward_latents_fun, embed_text_fun, embed_speech_fun.
  destruct (embed_one_ok TextEmb TextPosEmb _ _ _ _ _ Hte Htp
              (data text) (size1 text) Hwt Hit HLt2) as (x & Hx & Hxs).
  destruct (embed_one_ok SpeechEmb SpeechPosEmb _ _ _ _ _ Hse Hsp
              (data speech_tokens) (size1 speech_tokens) Hws His HLs2)
    as (y & Hy & Hys).
  rewrite Hx, Hy; simpl rbind. unfold latents_fun.
  fold (size0 text) in Hxs. fold (size0 speech_tokens) in Hys.
  destruct (Henc_t x text_mask _ _ Hxs Hmf) as (enc_text & Het & Hets).
  destruct (Henc_s y None _ _ Hys I) as (enc_speech & Hes & Hess).
  rewrite Het, Hes; simpl rbind.
  assert (Hpool : exists pooled,
             pool enc_text text_mask = Ok pooled /\
             shape2 pooled (size0 text) (dim_text cfg)).
  { destruct text_mask as [mask|]; simpl.
    - exact (masked_mean_shape enc_text mask _ _ _ HLt1 Hets Hmf).
    - eexists; split; [reflexivity|].
      exact (mean_dim1_shape enc_text _ _ _ HLt1 Hets). }
  destruct Hpool as (pooled & Hpool & Hps). rewrite Hpool; simpl rbind.
  destruct (linear_shape _ _ _ _ _ Htl Hps) as (pt & Hpt & Hpts).
  assert (Hms := mean_dim1_shape enc_speech _ _ _ HLs1 Hess).
  destruct (linear_shape _ _ _ _ _ Hsl Hms) as (ps & Hps' & Hpss).
  rewrite Hpt; simpl rbind. rewrite Hps'; simpl rbind.
  exists pt, ps. split; [reflexivity|]. split; [exact Hpts | exact Hpss].
Qed.

Lemma similarity_rows temp (tl sl : matrix A) :
  Forall (fun row => length row = length sl)
         (map (scale temp) (map (fun x => map (fun y => dot x y) sl) tl)).
Proof.
  apply Forall_forall. intros row Hrow.
  apply in_map_iff in Hrow. destruct Hrow as (r & <- & Hr).
  apply in_map_iff in Hr. destruct Hr as (x & <- & _).
  unfold scale. rewrite !length_map. reflexivity.
Qed.

Lemma nll_in_range (row : list A) k :
  (k < length row)%nat -> exists v, nll row k = Ok v.
Proof.
  intros Hk. unfold nll.
  destruct (nth_error (log_softmax row) k) as [v|] eqn:Hv.
  - eexists; reflexivity.
  - apply nth_error_None in Hv. unfold log_softmax in Hv.
    rewrite length_map in Hv. lia.
Qed.

Lemma nll_out_of_range (row : list A) k :
  (length row <= k)%nat -> nll row k = Error (IndexError Target).
Proof.
  intros Hk. unfold nll.
  destruct (nth_error (log_softmax row) k) as [v|] eqn:Hv; [|reflexivity].
  assert (Hlt : (k < length (log_softmax row))%nat)
    by (apply nth_error_Some; congruence).
  unfold log_softmax in Hlt. rewrite length_map in Hlt. lia.
Qed.

(** Lines 95 to 98 on [bt] text latents and [bs] speech latents, [bt] and
    [bs] different: with more speech than text the second cross-entropy
    meets [bs] rows and [bt] labels; with more text than speech the first one
    meets the label [bs] in a row of [bs] classes. *)
Lemma contrastive_loss_mismatch temp bt bs d (tl sl : matrix A) :
  shape2 tl bt d -> shape2 sl bs d ->
  (1 <= bt)%nat -> (1 <= bs)%nat -> bt <> bs ->
  contrastive_loss temp bt tl sl
  = Error (if Nat.ltb bt bs then ShapeError else IndexError Target).
Proof.
  intros Htl Hsl Hbt Hbs Hne. unfold contrastive_loss.
  rewrite (einsum_matrix_value tl sl bt bs d Htl Hsl); simpl rbind.
  set (sim := map (scale temp) (map (fun x => map (fun y => dot x y) sl) tl)).
  assert (Hrows : Forall (fun row => length row = bs) sim).
  { destruct Hsl as [Hls _]. rewrite <- Hls. apply similarity_rows. }
  assert (Hlen : length sim = bt).
  { unfold sim. rewrite !length_map. apply Htl. }
  unfold cross_entropy at 1. rewrite Hlen, length_seq, Nat.eqb_refl.
  destruct (Nat.ltb bt bs) eqn:Hlt.
  - apply Nat.ltb_lt in Hlt.
    destruct (@mapM_Forall _ _ (fun p : list A * nat => nll (fst p) (snd p))
                (fun p => (snd p < length (fst p))%nat) (fun _ => True)
                (combine sim (seq 0 bt))) as (ls & Hls & _ & _).
    + intros [row k] Hk. simpl in Hk.
      destruct (nll_in_range row k Hk) as [v Hv]. exists v; split; [exact Hv | exact I].
    + apply Forall_forall. intros [row k] Hin. simpl.
      rewrite Forall_forall in Hrows.
      rewrite (Hrows row) by (eapply in_combine_l; exact Hin).
      apply in_combine_r in Hin. apply in_seq in Hin. lia.
    + rewrite Hls; simpl rbind. unfold cross_entropy.
      replace (Nat.eqb (length (transpose sim)) (length (seq 0 bt))) with false;
        [reflexivity|].
      symmetry. apply Nat.eqb_neq. unfold transpose.
      rewrite length_map, !length_seq.
      rewrite (width_nonempty bs sim) by (try lia; exact Hrows). lia.
  - apply Nat.ltb_ge in Hlt.
    rewrite (@mapM_first_error _ _
               (fun p : list A * nat => nll (fst p) (snd p))
               (IndexError Target)); [reflexivity | |].
    + intros [row k] _. simpl.
      destruct (Nat.lt_ge_cases k (length row)) as [Hk|Hk].
      * left. apply nll_in_range; exact Hk.
      * right. apply nll_out_of_range; exact Hk.
    + destruct (nth_error sim bs) as [row|] eqn:Hrow.
      2:{ apply nth_error_None in Hrow. lia. }
      exists (row, bs). split.
      * eapply nth_error_In. apply nth_error_combine; [exact Hrow|].
        rewrite (nth_error_nth' _ 0%nat) by (rewrite length_seq; lia).
        rewrite seq_nth by lia. reflexivity.
      * simpl. apply nll_out_of_range.
        rewrite Forall_forall in Hrows.
        rewrite (Hrows row) by (eapply nth_error_In; exact Hrow). lia.
Qed.

(** X10.  On a well-shaped model whose encoders keep the shape of the tensors
    of their own width, in any arithmetic, a text batch
    and a speech batch that are each valid but of different sizes make
    [forward] raise in loss mode: a shape error from the second
    cross-entropy when there are more speech than text examples, an index
    error on the class label from the first one when there are fewer.  In
    score mode it raises a shape error when neither size is 1. *)
Theorem mismatched_batches_raise :
  forall cfg (self : VoiceCLIP A) w h text speech_tokens text_mask,
    holds self h w ->
    model_ok cfg w ->
    encoder_ok (text_transformer self) (dim_text cfg) ->
    encoder_ok (speech_transformer self) (dim_speech cfg) ->
    valid_sides cfg text speech_tokens text_mask ->
    (1 <= size0 text)%nat -> (1 <= size0 speech_tokens)%nat ->
    size0 text <> size0 speech_tokens ->
    fst (forward self text speech_tokens text_mask true h)
    = Error (if Nat.ltb (size0 text) (size0 speech_tokens)
             then ShapeError else IndexError Target) /\
    ((2 <= size0 text)%nat -> (2 <= size0 speech_tokens)%nat ->
     fst (forward self text speech_tokens text_mask false h)
     = Error ShapeError).
Proof.
  intros cfg self w h text speech_tokens text_mask Hh Hok Het Hes Hvalid
         Hbt Hbs Hne.
  destruct (forward_latents_ok_sides cfg self w text speech_tokens text_mask
              Hok Het Hes Hvalid) as (pt & ps & Hfun & Hpt & Hps).
  apply normalize_shape in Hpt. apply normalize_shape in Hps.
  split.
  - destruct (forward_via_latents self w text speech_tokens text_mask true h Hh)
      as (h1 & _ & Hfwd).
    rewrite Hfwd; simpl fst. unfold forward_fun. rewrite Hfun. cbn [rbind].
    unfold head_fun. cbn [negb fst snd].
    rewrite (contrastive_loss_mismatch _ _ _ _ _ _ Hpt Hps Hbt Hbs Hne).
    reflexivity.
  - intros H2t H2s.
    destruct (forward_via_latents self w text speech_tokens text_mask false h Hh)
      as (h1 & _ & Hfwd).
    rewrite Hfwd; simpl fst. unfold forward_fun. rewrite Hfun. cbn [rbind].
    unfold head_fun. cbn [negb fst snd]. unfold scores, einsum_nd_nd_n.
    destruct Hpt as [Hlt _]. destruct Hps as [Hls _].
    rewrite bzip_mismatch by lia. reflexivity.
Qed.

End MismatchedBatches.

Lemma mismatched_batches_raise_witness :
  fst (forward tiny_model tiny_text pair_speech None true tiny_heap)
  = Error ShapeError /\
  fst (forward tiny_model pair_text tiny_speech None true tiny_heap)
  = Error (IndexError Target).
Proof.
  split.
  - apply (mismatched_batches_raise tiny_config tiny_model tiny_weights
             tiny_heap tiny_text pair_speech None).
    + repeat split; reflexivity.
    + repeat split; repeat constructor.
    + intros x mask b L Hx _. exists x; split; [reflexivity | exact Hx].
    + intros x mask b L Hx _. exists x; split; [reflexivity | exact Hx].
    + unfold valid_sides, wf_ids, mask_fits, mask_nonempty; simpl.
      repeat split; repeat constructor.
    + unfold size0; simpl; lia.
    + unfold size0; simpl; lia.
    + unfold size0; simpl; lia.
  - apply (mismatched_batches_raise tiny_config tiny_model tiny_weights
             tiny_heap pair_text tiny_speech None).
    + repeat split; reflexivity.
    + repeat split; repeat constructor.
    + intros x mask b L Hx _. exists x; split; [reflexivity | exact Hx].
    + intros x mask b L Hx _. exists x; split; [reflexivity | exact Hx].
    + unfold valid_sides, wf_ids, mask_fits, mask_nonempty; simpl.
      repeat split; repeat constructor.
    + unfold size0; simpl; lia.
    + unfold size0; simpl; lia.
    + unfold size0; simpl; lia.
Defined.

Section OneText.
Context {A : Type} `{Scalar A}.

(** One text latent against [bs] speech latents: [einsum] repeats the text
    latent. *)
Lemma scores_single_text temp (t : list A) (sl : matrix A) bs d :
  length t = d -> shape2 sl bs d ->
  scores temp [t] sl = Ok (map (fun s => smul (dot t s) temp) sl).
Proof.
  intros Ht [Hls Hsd]. unfold scores, einsum_nd_nd_n, bzip.
  assert (Hrow : mapM (bdot t) sl = Ok (map (dot t) sl)).
  { rewrite (mapM_ext_in _ (fun s => Ok (dot t s))); [apply mapM_pure|].
    intros s Hs. apply bdot_same_length.
    rewrite Forall_forall in Hsd. rewrite (Hsd s Hs). exact Ht. }
  destruct (Nat.eqb (length [t]) (length sl)) eqn:Hone.
  - apply Nat.eqb_eq in Hone. destruct sl as [|s [|s' sl]]; try discriminate.
    simpl. inversion Hsd; subst.
    rewrite bdot_same_length by congruence. reflexivity.
  - rewrite Hrow; simpl rbind. unfold scale. rewrite map_map. reflexivity.
Qed.

(** X11.  Score mode ranks: on a well-shaped model whose encoders keep the
    shape of the tensors of their own width, in any arithmetic, one valid
    text example with [b] valid speech examples gives [b]
    scores, the score [j] being the dot product of the one text latent and
    speech latent [j], times [exp(temperature)]. *)
Theorem one_text_is_scored_against_each_speech :
  forall cfg (self : VoiceCLIP A) w h text speech_tokens text_mask,
    holds self h w ->
    model_ok cfg w ->
    encoder_ok (text_transformer self) (dim_text cfg) ->
    encoder_ok (speech_transformer self) (dim_speech cfg) ->
    valid_sides cfg text speech_tokens text_mask ->
    size0 text = 1%nat ->
    exists text_latents speech_latents h1 sim,
      forward_latents self text speech_tokens text_mask h
      = (Ok (text_latents, speech_latents), h1) /\
      forward self text speech_tokens text_mask false h = (Ok (Scores sim), h1) /\
      length sim = size0 speech_tokens /\
      forall j, (j < size0 speech_tokens)%nat ->
        nth j sim szero =
        smul (dot (nth 0 text_latents []) (nth j speech_latents []))
             (sexp (W_temperature w)).
Proof.
  intros cfg self w h text speech_tokens text_mask Hh Hok Het Hes Hvalid Hone.
  destruct (forward_latents_ok_sides cfg self w text speech_tokens text_mask
              Hok Het Hes Hvalid) as (pt & ps & Hfun & Hpt & Hps).
  destruct (forward_via_latents self w text speech_tokens text_mask false h Hh)
    as (h1 & Hlat & Hfwd).
  apply normalize_shape in Hpt. apply normalize_shape in Hps.
  rewrite Hone in Hpt.
  destruct (normalize pt) as [|t [|t' tl]] eqn:Hnpt;
    try (destruct Hpt as [Hl _]; simpl in Hl; discriminate).
  assert (Ht : length t = dim_latent cfg).
  { destruct Hpt as [_ Hd]. inversion Hd; assumption. }
  exists [t], (normalize ps), h1,
         (map (fun s => smul (dot t s) (sexp (W_temperature w))) (normalize ps)).
  split; [rewrite Hlat, Hfun; reflexivity|]. split.
  - rewrite Hfwd. unfold forward_fun. rewrite Hfun. cbn [rbind].
    unfold head_fun. cbn [negb fst snd].
    rewrite (scores_single_text _ t _ _ _ Ht Hps). reflexivity.
  - destruct Hps as [Hls _]. split; [rewrite length_map; exact Hls|].
    intros j Hj.
    rewrite (nth_map_in (fun s => smul (dot t s) (sexp (W_temperature w))) _ j
               [] szero)
      by lia.
    reflexivity.
Qed.

End OneText.

Lemma one_text_is_scored_against_each_speech_witness :
  exists sim,
    fst (forward tiny_model tiny_text pair_speech None false tiny_heap)
    = Ok (Scores sim) /\
    length sim = 2%nat.
Proof.
  destruct (one_text_is_scored_against_each_speech tiny_config tiny_model
              tiny_weights tiny_heap tiny_text pair_speech None)
    as (tl & sl & h1 & sim & _ & Hfwd & Hlen & _).
  - repeat split; reflexivity.
  - repeat split; repeat constructor.
  - intros x mask b L Hx _. exists x; split; [reflexivity | exact Hx].
  - intros x mask b L Hx _. exists x; split; [reflexivity | exact Hx].
  - unfold valid_sides, wf_ids, mask_fits, mask_nonempty; simpl.
    repeat split; repeat constructor.
  - reflexivity.
  - exists sim. rewrite Hfwd. split; [reflexivity | exact Hlen].
Defined.

(** ** The module's smoke test *)

Lemma ids_below_valid bound b L n (t : IdTensor) :
  ids_below bound b L t -> (bound <= Z.of_nat n)%Z ->
  wf_ids t /\ ids_in_range n t = true /\ size0 t = b /\ size1 t = L.
Proof.
  intros (HL & Hb & Hrows) Hbound. unfold wf_ids, ids_in_range, size0.
  split; [|split; [|split; assumption]].
  - eapply Forall_impl; [|exact Hrows]. intros r [Hr _]. congruence.
  - apply forallb_forall. intros r Hr.
    rewrite Forall_forall in Hrows. destruct (Hrows r Hr) as [_ Hids].
    apply forallb_forall. intros i Hi.
    rewrite Forall_forall in Hids. specialize (Hids i Hi).
    unfold in_range. apply andb_true_intro; split;
      [apply Z.leb_le | apply Z.ltb_lt]; lia.
Qed.

Lemma zero_ids_below bound b L :
  (0 < bound)%Z -> ids_below bound b L (zero_ids b L).
Proof.
  intros Hbound. unfold ids_below, zero_ids; simpl.
  split; [reflexivity|]. split; [apply repeat_length|].
  apply Forall_forall. intros r Hr. apply repeat_spec in Hr. subst r.
  split; [apply repeat_length|].
  apply Forall_forall. intros i Hi. apply repeat_spec in Hi. subst i. lia.
Qed.

(** The batch of the smoke test fits the default model. *)
Lemma smoke_batch_valid text speech_tokens :
  ids_below 1000 2 200 text ->
  ids_below 8192 2 250 speech_tokens ->
  valid_input default_config text speech_tokens None /\ size0 text = 2%nat.
Proof.
  intros Htext Hspeech.
  assert (Hnt : Z.of_nat (num_text_tokens default_config) = 10000%Z)
    by (vm_compute; reflexivity).
  assert (Hns : Z.of_nat (num_speech_tokens default_config) = 8192%Z)
    by (vm_compute; reflexivity).
  destruct (ids_below_valid 1000 2 200 (num_text_tokens default_config) text
              Htext) as (Hwt & Hit & Hbt & HLt); [lia|].
  destruct (ids_below_valid 8192 2 250 (num_speech_tokens default_config)
              speech_tokens Hspeech) as (Hws & His & Hbs & HLs); [lia|].
  split; [|exact Hbt].
  unfold valid_input. rewrite Hbt, Hbs, HLt, HLs.
  repeat split; try assumption; try (simpl; lia).
  apply Nat2Z.inj_le. rewrite Hns. simpl. lia.
Qed.

(** X12.  The call at the bottom of the module goes through: on the model
    [__init__] builds with its default arguments, with encoders that keep
    the shape of the tensors of width 512, the width they are built with,
    any text batch of 2 rows of 200 ids below 1000 and any speech batch of 2
    rows of 250 ids below 8192 is a valid input (200 is exactly the text
    positional table, 250 is far inside the speech one), and [forward] with
    [return_loss = true] returns a loss, in any arithmetic; on binary32 the
    loss is NaN or at least 0; on the reals it is greater than 0 and at most
    [ln 2 + 2 e]. *)
Theorem smoke_test_returns_a_loss :
  (forall (A : Type) (S : Scalar A) (rnd : Init A) h0 text speech_tokens,
      encoder_ok (Transformer_text rnd 200 512 6 8) 512 ->
      encoder_ok (Transformer_speech rnd 250 512 6 8) 512 ->
      ids_below 1000 2 200 text ->
      ids_below 8192 2 250 speech_tokens ->
      valid_input default_config text speech_tokens None /\
      exists self h loss h1,
        init default_config rnd h0 = (Ok self, h) /\
        forward self text speech_tokens None true h = (Ok (Loss loss), h1)) /\
  (forall (rnd : Init float32) h0 text speech_tokens,
      encoder_ok (Transformer_text rnd 200 512 6 8) 512 ->
      encoder_ok (Transformer_speech rnd 250 512 6 8) 512 ->
      ids_below 1000 2 200 text ->
      ids_below 8192 2 250 speech_tokens ->
      exists self h loss h1,
        init default_config rnd h0 = (Ok self, h) /\
        forward self text speech_tokens None true h = (Ok (Loss loss), h1) /\
        (loss = f32_nan \/ SFleb (S754_zero false) loss = true)) /\
  (forall (rnd : Init R) h0 text speech_tokens,
      encoder_ok (Transformer_text rnd 200 512 6 8) 512 ->
      encoder_ok (Transformer_speech rnd 250 512 6 8) 512 ->
      ids_below 1000 2 200 text ->
      ids_below 8192 2 250 speech_tokens ->
      exists self h loss h1,
        init default_config rnd h0 = (Ok self, h) /\
        forward self text speech_tokens None true h = (Ok (Loss loss), h1) /\
        0 < loss <= ln 2 + 2 * exp 1).
Proof.
  split; [|split].
  - intros A S rnd h0 text speech_tokens Het Hes Htext Hspeech.
    destruct (smoke_batch_valid text speech_tokens Htext Hspeech)
      as [Hvalid Hbt].
    split; [exact Hvalid|].
    destruct (init_run default_config rnd h0)
      as (self & Hinit & _ & _ & _ & _ & _ & _ & _ & Htt & Hst).
    assert (Hh := init_holds default_config rnd h0 self _ Hinit).
    assert (Hok := init_weights_ok default_config rnd).
    assert (Het' : encoder_ok (text_transformer self)
                              (dim_text default_config))
      by (rewrite Htt; exact Het).
    assert (Hes' : encoder_ok (speech_transformer self)
                              (dim_speech default_config))
      by (rewrite Hst; exact Hes).
    destruct (first_stage default_config self _ _ text speech_tokens None
                Hh Hok Het' Hes' (valid_input_fits _ _ _ _ Hvalid))
      as (pt & ps & h1 & _ & Hpt & Hps & _ & Hfwd).
    apply normalize_shape in Hpt. apply normalize_shape in Hps.
    exists self. eexists. eexists. exists h1.
    split; [exact Hinit|].
    rewrite Hfwd. unfold head_fun. cbn [negb fst snd].
    rewrite (contrastive_loss_value _ _ _ _ _ Hpt Hps). reflexivity.
  - intros rnd h0 text speech_tokens Het Hes Htext Hspeech.
    destruct (smoke_batch_valid text speech_tokens Htext Hspeech)
      as [Hvalid Hbt].
    destruct (init_run default_config rnd h0)
      as (self & Hinit & _ & _ & _ & _ & _ & _ & _ & Htt & Hst).
    assert (Hh := init_holds default_config rnd h0 self _ Hinit).
    assert (Hok := init_weights_ok default_config rnd).
    assert (Het' : encoder_ok (text_transformer self)
                              (dim_text default_config))
      by (rewrite Htt; exact Het).
    assert (Hes' : encoder_ok (speech_transformer self)
                              (dim_speech default_config))
      by (rewrite Hst; exact Hes).
    destruct (first_stage default_config self _ _ text speech_tokens None
                Hh Hok Het' Hes' (valid_input_fits _ _ _ _ Hvalid))
      as (pt & ps & h1 & _ & Hpt & Hps & _ & Hfwd).
    apply normalize_shape in Hpt. apply normalize_shape in Hps.
    exists self. eexists. eexists. exists h1.
    split; [exact Hinit|]. split.
    + rewrite Hfwd. unfold head_fun. cbn [negb fst snd].
      rewrite (contrastive_loss_value _ _ _ _ _ Hpt Hps). reflexivity.
    + apply f32_signbit_clear. apply f32_symmetric_ce_signbit.
  - intros rnd h0 text speech_tokens Het Hes Htext Hspeech.
    destruct (smoke_batch_valid text speech_tokens Htext Hspeech)
      as [Hvalid Hbt].
    destruct (init_run default_config rnd h0)
      as (self & Hinit & _ & _ & _ & _ & _ & _ & _ & Htt & Hst).
    assert (Hh := init_holds default_config rnd h0 self _ Hinit).
    assert (Hok := init_weights_ok default_config rnd).
    set (w := init_weights default_config rnd) in *.
    assert (Het' : encoder_ok (text_transformer self)
                              (dim_text default_config))
      by (rewrite Htt; exact Het).
    assert (Hes' : encoder_ok (speech_transformer self)
                              (dim_speech default_config))
      by (rewrite Hst; exact Hes).
    destruct (first_stage default_config self w _ text speech_tokens None
                Hh Hok Het' Hes' (valid_input_fits _ _ _ _ Hvalid))
      as (pt & ps & h1 & _ & Hpt & Hps & _ & Hfwd).
    apply normalize_shape in Hpt. apply normalize_shape in Hps.
    exists self. eexists. eexists. exists h1.
    split; [exact Hinit|]. split.
    + rewrite Hfwd. unfold head_fun. cbn [negb fst snd].
      rewrite (contrastive_loss_spec _ _ _ _ _ Hpt Hps). reflexivity.
    + rewrite Hbt. unfold spec_loss; cbv zeta.
      change (sexp (W_temperature w)) with (exp 1).
      assert (Ht : 0 <= exp 1) by (left; apply exp_pos).
      assert (Hp1 := spec_directional_ce_pos 2
                       (spec_similarity (exp 1)
                          (normalize pt) (normalize ps)) (le_n 2)).
      assert (Hp2 := spec_directional_ce_pos 2
                       (fun j i => spec_similarity (exp 1)
                                     (normalize pt) (normalize ps) i j) (le_n 2)).
      assert (Hu1 := spec_directional_ce_upper 2
                       (spec_similarity (exp 1)
                          (normalize pt) (normalize ps))
                       (exp 1) (le_S 1 1 (le_n 1))
                       (fun i j => similarity_bounded _ pt ps i j Ht)).
      assert (Hu2 := spec_directional_ce_upper 2
                       (fun j i => spec_similarity (exp 1)
                                     (normalize pt) (normalize ps) i j)
                       (exp 1) (le_S 1 1 (le_n 1))
                       (fun j i => similarity_bounded _ pt ps i j Ht)).
      replace (INR 2) with 2 in Hu1, Hu2 by (simpl; lra).
      split; lra.
Qed.

Lemma smoke_test_returns_a_loss_witness :
  (exists self h loss h1,
      init default_config tiny_init [] = (Ok self, h) /\
      forward self (zero_ids 2 200) (zero_ids 2 250) None true h
      = (Ok (Loss loss), h1) /\
      0 < loss <= ln 2 + 2 * exp 1) /\
  (exists self h loss h1,
      init default_config
        {| w_text_emb := fun _ _ => f32_one;
           w_text_pos_emb := fun _ _ => f32_one;
           Transformer_text := fun _ _ _ d => strict_encoder 512;
           w_to_text_latent := fun _ _ => f32_one;
           w_speech_emb := fun _ _ => f32_one;
           w_speech_pos_emb := fun _ _ => f32_one;
           Transformer_speech := fun _ _ _ _ => strict_encoder 512;
           w_to_speech_latent := fun _ _ => f32_one |} []
      = (Ok self, h) /\
      forward self (zero_ids 2 200) (zero_ids 2 250) None true h
      = (Ok (Loss loss), h1) /\
      (loss = f32_nan \/ SFleb (S754_zero false) loss = true)).
Proof.
  destruct smoke_test_returns_a_loss as (Hany & Hf32 & Hreal).
  split.
  - apply (Hreal tiny_init [] (zero_ids 2 200) (zero_ids 2 250)).
    + intros x mask b L Hx _. exists x; split; [reflexivity | exact Hx].
    + intros x mask b L Hx _. exists x; split; [reflexivity | exact Hx].
    + apply zero_ids_below. lia.
    + apply zero_ids_below. lia.
  - apply Hf32.
    + apply strict_encoder_ok.
    + apply strict_encoder_ok.
    + apply zero_ids_below. lia.
    + apply zero_ids_below. lia.
Defined.
(** ** The four index checks *)

Section IndexChecks.
Context {A : Type} `{Scalar A}.

(** X14.  On a model with the shapes [__init__] gives and well-formed id
    tensors, lines 68 to 72 raise exactly when a lookup meets an index
    outside its table, and at the first such lookup in the order text
    content, text position, speech content, speech position; the bound of
    the speech positions is [num_speech_tokens].  Otherwise they return two
    tensors; they never raise a shape error. *)
Theorem embedding_stage_outcome :
  forall cfg (self : VoiceCLIP A) w h text speech_tokens,
    holds self h w ->
    model_ok cfg w ->
    wf_ids text -> wf_ids speech_tokens ->
    match first_index_fault cfg text speech_tokens with
    | Some s =>
        fst (embed self text speech_tokens h) = Error (IndexError s)
    | None =>
        exists rx ry, fst (embed self text speech_tokens h) = Ok (rx, ry)
    end.
Proof.
  intros cfg self w h text speech_tokens Hh Hok Hwt Hws.
  destruct Hok as (Hte & Htp & _ & Hse & Hsp & _).
  destruct (embed_run self w text speech_tokens h Hh)
    as [extra (Herr1 & Herr2 & Hgood)].
  unfold first_index_fault, ids_in_range.
  destruct (forallb (forallb (in_range (num_text_tokens cfg))) (data text))
    eqn:Hit; simpl negb; cbv iota.
  2:{ rewrite (Herr1 (IndexError TextEmb)); [reflexivity|].
      apply (embed_one_bad_id TextEmb TextPosEmb _ _ _ _ Hte); exact Hit. }
  destruct (Nat.ltb (text_seq_len cfg) (size1 text)) eqn:HLt.
  { apply Nat.ltb_lt in HLt.
    rewrite (Herr1 (IndexError TextPosEmb)); [reflexivity|].
    apply (embed_one_too_long TextEmb TextPosEmb _ _ _ _ _ Hte Htp);
      assumption. }
  apply Nat.ltb_ge in HLt.
  destruct (embed_one_ok TextEmb TextPosEmb _ _ _ _ _ Hte Htp
              (data text) (size1 text) Hwt Hit HLt) as (x & Hx & _).
  destruct (forallb (forallb (in_range (num_speech_tokens cfg)))
              (data speech_tokens)) eqn:His; simpl negb; cbv iota.
  2:{ rewrite (Herr2 x (IndexError SpeechEmb) Hx); [reflexivity|].
      apply (embed_one_bad_id SpeechEmb SpeechPosEmb _ _ _ _ Hse); exact His. }
  destruct (Nat.ltb (num_speech_tokens cfg) (size1 speech_tokens)) eqn:HLs.
  { apply Nat.ltb_lt in HLs.
    rewrite (Herr2 x (IndexError SpeechPosEmb) Hx); [reflexivity|].
    apply (embed_one_too_long SpeechEmb SpeechPosEmb _ _ _ _ _ Hse Hsp);
      assumption. }
  apply Nat.ltb_ge in HLs.
  destruct (embed_one_ok SpeechEmb SpeechPosEmb _ _ _ _ _ Hse Hsp
              (data speech_tokens) (size1 speech_tokens) Hws His HLs)
    as (y & Hy & _).
  destruct (Hgood x y Hx Hy) as (rx & ry & Hrun & _).
  exists rx, ry. rewrite Hrun. reflexivity.
Qed.

End IndexChecks.

Lemma embedding_stage_outcome_witness :
  fst (embed tiny_model tiny_text
         {| size1 := 4; data := [[0; 1; 2; 0]]%Z |} tiny_heap)
  = Error (IndexError SpeechPosEmb) /\
  exists rx ry,
    fst (embed tiny_model tiny_text
           {| size1 := 3; data := [[0; 1; 2]]%Z |} tiny_heap) = Ok (rx, ry).
Proof.
  split.
  - apply (embedding_stage_outcome tiny_config tiny_model tiny_weights
             tiny_heap tiny_text {| size1 := 4; data := [[0; 1; 2; 0]]%Z |}).
    + repeat split; reflexivity.
    + repeat split; repeat constructor.
    + repeat constructor.
    + repeat constructor.
  - apply (embedding_stage_outcome tiny_config tiny_model tiny_weights
             tiny_heap tiny_text {| size1 := 3; data := [[0; 1; 2]]%Z |}).
    + repeat split; reflexivity.
    + repeat split; repeat constructor.
    + repeat constructor.
    + repeat constructor.
Defined.

(** ** The two modes agree *)

(** X6.  The scores of lines 91 to 93 are the diagonal of the similarity
    matrix of lines 95 to 98: for two batches of [b] latents of one width,
    score [i] is entry [(i, i)] of the scaled matrix the loss is computed
    from. *)
Theorem scores_are_the_diagonal :
  forall temp b d (tl sl : matrix R),
    shape2 tl b d -> shape2 sl b d ->
    exists sim v,
      einsum_id_jd_ij tl sl = Ok sim /\
      scores temp tl sl = Ok v /\
      length v = b /\
      forall i, (i < b)%nat ->
        nth i v 0 = nth i (nth i (map (scale temp) sim) []) 0.
Proof.
  intros temp b d tl sl Htl Hsl.
  exists (map (fun x => map (fun y => dot x y) sl) tl),
         (scale temp (zip_with dot tl sl)).
  split; [apply (einsum_matrix_value tl sl b b d Htl Hsl)|].
  split; [apply (scores_value temp tl sl b d Htl Hsl)|].
  rewrite (similarity_grid temp tl sl b d Htl Hsl).
  destruct Htl as [Hlt _]. destruct Hsl as [Hls _]. split.
  - unfold scale. rewrite length_map, length_zip_with; congruence.
  - intros i Hi. unfold scale.
    rewrite (nth_map_in (fun a => a * temp) _ i 0 0)
      by (rewrite length_zip_with; congruence).
    rewrite (nth_zip_with dot _ _ i [] [] 0) by congruence.
    unfold grid.
    rewrite (nth_map_in _ (seq 0 b) i 0%nat [])
      by (rewrite length_seq; exact Hi).
    rewrite seq_nth by exact Hi. simpl Nat.add.
    rewrite (nth_map_in _ (seq 0 b) i 0%nat 0)
      by (rewrite length_seq; exact Hi).
    rewrite seq_nth by exact Hi. reflexivity.
Qed.

Lemma scores_are_the_diagonal_witness :
  exists sim v,
    einsum_id_jd_ij [[1; 0]; [0; 1]] [[3; 4]; [5; 6]] = Ok sim /\
    scores 2 [[1; 0]; [0; 1]] [[3; 4]; [5; 6]] = Ok v /\
    nth 1 v 0 = nth 1 (nth 1 (map (scale 2) sim) []) 0.
Proof.
  destruct (scores_are_the_diagonal 2 2 2 [[1; 0]; [0; 1]] [[3; 4]; [5; 6]])
    as (sim & v & Hsim & Hv & _ & Hdiag).
  - repeat split; repeat constructor.
  - repeat split; repeat constructor.
  - exists sim, v. split; [exact Hsim|]. split; [exact Hv|].
    apply Hdiag. lia.
Defined.
